(** * nebulacrypt: the DCKP-ES transform-and-container pipeline

    A shallow embedding of the pixel pipeline of
    [apps/encryption/services]: key derivation, the logistic-map keystream,
    chunking, the seeded shuffle, the XOR-plus-diffusion cipher, the binary
    package and the per-page loops of the orchestrator.

    Conventions.
    - A Python [int] is a [Z]; a length or an index of a loop is a [nat].
    - A Python [float] is a primitive [float] (IEEE 754 binary64, round to
      nearest even), which is what CPython computes with.
    - [bytes] are a [list Z] of values in [0, 256).
    - A Python [str] is the [string] of its UTF-8 bytes, so that [s.encode()]
      is the byte list of the string.
    - A raised exception is the [Raise] case of [result]. *)

From Stdlib Require Import ZArith Lia Floats.
From Stdlib Require Ascii String DecimalString DecimalZ QArith Qpower Lqa.
From stdpp Require Import base list numbers option strings sorting.

(** ** Exceptions and the result monad *)

Inductive exn : Type :=
| ValueError (msg : string)
| OverflowError
| IndexError
| KeyError (key : string)
| StructError
| JSONDecodeError
| UnicodeDecodeError
| TypeError
| ZeroDivisionError.

Inductive result (A : Type) : Type :=
| Ok (a : A)
| Raise (e : exn).
Arguments Ok {A} a.
Arguments Raise {A} e.

Definition bind {A B : Type} (c : result A) (k : A -> result B) : result B :=
  match c with
  | Ok a => k a
  | Raise e => Raise e
  end.

Notation "x <- c ;; k" := (bind c (fun x => k))
  (at level 100, c at next level, right associativity).

(** [for i in idx: s = body(i, s)], stopping at the first exception. *)
Fixpoint for_each {S : Type} (idx : list nat) (body : nat -> S -> result S) (s : S)
  : result S :=
  match idx with
  | [] => Ok s
  | i :: rest => s' <- body i s ;; for_each rest body s'
  end.

(** [range(lo, hi)] and [range(hi, lo, -1)] over natural numbers. *)
Definition range (lo hi : nat) : list nat := seq lo (hi - lo).
Definition range_down (hi lo : nat) : list nat := rev (seq (S lo) (hi - lo)).

(** [[f(x) for x in l]], stopping at the first exception. *)
Fixpoint map_result {A B : Type} (f : A -> result B) (l : list A) : result (list B) :=
  match l with
  | [] => Ok []
  | x :: rest => y <- f x ;; ys <- map_result f rest ;; Ok (y :: ys)
  end.

Lemma bind_Ok {A B : Type} (c : result A) (k : A -> result B) b :
  (x <- c ;; k x) = Ok b <-> exists a, c = Ok a /\ k a = Ok b.
Proof.
  destruct c as [a|e]; simpl; split.
  - intros H. by exists a.
  - by intros (a' & [= ->] & H).
  - done.
  - by intros (a' & [=] & _).
Qed.

Lemma map_result_fmap {A B C : Type} (g : A -> B) (f : B -> result C) l :
  map_result f (g <$> l) = map_result (fun x => f (g x)) l.
Proof.
  induction l as [|x l IH]; [done|].
  rewrite fmap_cons. cbn [map_result]. by rewrite IH.
Qed.

Lemma map_result_ext {A B : Type} (f g : A -> result B) l :
  (forall x, f x = g x) -> map_result f l = map_result g l.
Proof. intros Hfg. induction l as [|x l IH]; simpl; [done|]. by rewrite Hfg, IH. Qed.

Lemma map_result_Ok_length {A B : Type} (f : A -> result B) l r :
  map_result f l = Ok r -> length r = length l.
Proof.
  revert r. induction l as [|x l IH]; intros r; simpl.
  - by intros [= <-].
  - destruct (f x) as [y|]; simpl; [|done].
    destruct (map_result f l) as [ys|]; simpl; [|done].
    intros [= <-]. simpl. f_equal. by apply IH.
Qed.

Lemma map_result_Ok_lookup {A B : Type} (f : A -> result B) l r i x :
  map_result f l = Ok r -> l !! i = Some x -> exists y, f x = Ok y /\ r !! i = Some y.
Proof.
  revert r i. induction l as [|a l IH]; intros r i; simpl; [done|].
  destruct (f a) as [y|] eqn:Hfa; simpl; [|done].
  destruct (map_result f l) as [ys|]; simpl; [|done].
  intros [= <-]. destruct i as [|i]; simpl.
  - intros [= <-]. by exists y.
  - intros Hi. by apply IH.
Qed.

Lemma map_result_all_Ok {A B : Type} (f : A -> result B) (g : A -> B) l :
  (forall x, x ∈ l -> f x = Ok (g x)) -> map_result f l = Ok (g <$> l).
Proof.
  induction l as [|a l IH]; intros Hl; [done|].
  rewrite fmap_cons. cbn [map_result].
  rewrite Hl by left. simpl. rewrite IH; [done|].
  intros x Hx. apply Hl. by right.
Qed.

Lemma map_result_Ok_pointwise {A B : Type} (f : A -> result B) l r :
  length l = length r ->
  (forall i x, l !! i = Some x -> exists y, r !! i = Some y /\ f x = Ok y) ->
  map_result f l = Ok r.
Proof.
  revert r. induction l as [|a l IH]; intros [|b r] Hlen Hall; try done.
  cbn [map_result]. destruct (Hall 0 a eq_refl) as (y & [= <-] & ->). cbn [bind].
  rewrite (IH r); [done|by injection Hlen|].
  intros i x Hi. exact (Hall (S i) x Hi).
Qed.

(** ** numpy arrays

    An array is its shape, its element type and its elements in row-major
    (C) order, which is the order [flatten], [reshape], [tobytes] and
    [frombuffer] all work in. *)

Inductive dtype : Type := UInt8 | Int32 | Int64.

Record ndarray : Type := NDArray {
  shape : list Z;
  dtype_of : dtype;
  data : list Z
}.

Definition prod_list (l : list Z) : Z := foldr Z.mul 1%Z l.

Definition is_byte (b : Z) : Prop := (0 <= b < 256)%Z.

(** A well-formed array of bytes: as many elements as the shape says. *)
Record wf_uint8 (a : ndarray) : Prop := {
  wf_dims : Forall (fun d => (0 <= d)%Z) (shape a);
  wf_size : Z.of_nat (length (data a)) = prod_list (shape a);
  wf_dtype : dtype_of a = UInt8;
  wf_bytes : Forall is_byte (data a)
}.

(** [a.flatten()]: the elements, as a one-dimensional array. *)
Definition flatten (a : ndarray) : list Z := data a.

(** [a.astype(np.uint8)] on integers: C conversion, modulo 256. *)
Definition astype_uint8 (l : list Z) : list Z := (fun x => x mod 256)%Z <$> l.

(** [np.bitwise_xor(a, b)] on two one-dimensional arrays of one length. *)
Definition bitwise_xor (a b : list Z) : list Z := zip_with Z.lxor a b.

(** [flat.reshape(shp)]: one dimension may be [-1] and is then inferred;
    any other mismatch raises [ValueError]. *)
Definition reshape (dt : dtype) (flat : list Z) (shp : list Z) : result ndarray :=
  let n := Z.of_nat (length flat) in
  let neg := filter (fun d => (d < 0)%Z) shp in
  match neg with
  | [] =>
      if (prod_list shp =? n)%Z then Ok (NDArray shp dt flat)
      else Raise (ValueError "cannot reshape array")
  | [d] =>
      if (d =? -1)%Z then
        let known := prod_list (filter (fun d => (0 <=? d)%Z) shp) in
        if (known =? 0)%Z then Raise (ValueError "cannot reshape array")
        else if (n mod known =? 0)%Z then
          Ok (NDArray ((fun d => if (d <? 0)%Z then (n / known)%Z else d) <$> shp) dt flat)
        else Raise (ValueError "cannot reshape array")
      else Raise (ValueError "negative dimensions not allowed")
  | _ => Raise (ValueError "can only specify one unknown dimension")
  end.

Lemma reshape_wf dt flat shp :
  Forall (fun d => (0 <= d)%Z) shp ->
  Z.of_nat (length flat) = prod_list shp ->
  reshape dt flat shp = Ok (NDArray shp dt flat).
Proof.
  intros Hdims Hsize. unfold reshape.
  assert (Hneg : filter (fun d => (d < 0)%Z) shp = []).
  { clear Hsize. induction Hdims as [|d shp Hd _ IH]; [done|].
    rewrite filter_cons_False by lia. exact IH. }
  rewrite Hneg. by rewrite Hsize, Z.eqb_refl.
Qed.

Lemma is_byte_lxor a b : is_byte a -> is_byte b -> is_byte (Z.lxor a b).
Proof.
  unfold is_byte. intros Ha Hb.
  assert (H0 : (0 <= Z.lxor a b)%Z) by (apply Z.lxor_nonneg; lia).
  split; [done|].
  destruct (decide (Z.lxor a b = 0%Z)) as [->|Hne]; [lia|].
  apply (Z.log2_lt_pow2 _ 8); [lia|].
  pose proof (Z.log2_lxor a b ltac:(lia) ltac:(lia)) as Hl.
  assert (Z.log2 a < 8)%Z.
  { destruct (decide (a = 0%Z)) as [->|]; [done|]. apply Z.log2_lt_pow2; lia. }
  assert (Z.log2 b < 8)%Z.
  { destruct (decide (b = 0%Z)) as [->|]; [done|]. apply Z.log2_lt_pow2; lia. }
  lia.
Qed.

Lemma astype_uint8_bytes l : Forall is_byte l -> astype_uint8 l = l.
Proof.
  unfold astype_uint8. induction 1 as [|x l Hx _ IH]; [done|].
  rewrite fmap_cons, IH. f_equal. apply Z.mod_small. exact Hx.
Qed.

Lemma astype_uint8_is_byte l : Forall is_byte (astype_uint8 l).
Proof.
  unfold astype_uint8. apply Forall_fmap, Forall_forall. intros x _.
  unfold is_byte. simpl. apply Z.mod_pos_bound. lia.
Qed.

Lemma length_astype_uint8 l : length (astype_uint8 l) = length l.
Proof. unfold astype_uint8. apply length_fmap. Qed.

Lemma bitwise_xor_is_byte a b :
  Forall is_byte a -> Forall is_byte b -> Forall is_byte (bitwise_xor a b).
Proof.
  unfold bitwise_xor. intros Ha. revert b.
  induction Ha as [|x a Hx _ IH]; intros b Hb; [constructor|].
  destruct Hb as [|y b Hy Hb]; simpl; [constructor|].
  constructor; [by apply is_byte_lxor|by apply IH].
Qed.

Lemma bitwise_xor_involutive a b :
  length a = length b -> bitwise_xor (bitwise_xor a b) b = a.
Proof.
  unfold bitwise_xor. revert b. induction a as [|x a IH]; intros [|y b]; simpl; try done.
  intros [= Hlen]. rewrite IH by done. f_equal.
  by rewrite Z.lxor_assoc, Z.lxor_nilpotent, Z.lxor_0_r.
Qed.

Lemma bitwise_xor_lookup a b i :
  i < length a -> length a = length b ->
  bitwise_xor a b !!! i = Z.lxor (a !!! i) (b !!! i).
Proof.
  unfold bitwise_xor. revert b i. induction a as [|x a IH]; intros [|y b] i; simpl; try lia.
  intros Hi [= Hlen]. destruct i as [|i]; [done|]. simpl. apply IH; [lia|done].
Qed.

(** [len(a)]: the first dimension. *)
Definition len (a : ndarray) : result Z :=
  match shape a with
  | d :: _ => Ok d
  | [] => Raise TypeError
  end.

(** An index into an axis of length [n]: a negative one counts from the
    end, one out of bounds raises [IndexError]. *)
Definition norm_index (n i : Z) : result nat :=
  let j := if (i <? 0)%Z then (i + n)%Z else i in
  if ((0 <=? j) && (j <? n))%Z then Ok (Z.to_nat j) else Raise IndexError.

(** Row [i] of row-major data whose rows hold [w] elements each. *)
Definition row (w : nat) (d : list Z) (i : nat) : list Z := take w (drop (i * w) d).

(** [a[idx]] for an integer array [idx]: the rows of [a] that [idx] names,
    in the order of [idx]. *)
Definition take_rows (a : ndarray) (idx : list Z) : result ndarray :=
  match shape a with
  | [] => Raise IndexError
  | n :: rest =>
      let w := Z.to_nat (prod_list rest) in
      rows <- map_result (fun i => j <- norm_index n i ;; Ok (row w (data a) j)) idx ;;
      Ok (NDArray (Z.of_nat (length idx) :: rest) (dtype_of a) (concat rows))
  end.

(** [np.arange(n)]. *)
Definition arange (n : Z) : list Z := Z.of_nat <$> seq 0 (Z.to_nat n).

(** [np.argsort(a)]: the positions of [a] in ascending order of their
    entries. On distinct entries, which is all a permutation has, every
    sorting algorithm gives this list. *)
Definition key_le (a : list Z) (i j : nat) : Prop := (a !!! i <= a !!! j)%Z.

#[global] Instance key_le_dec (a : list Z) : RelDecision (key_le a).
Proof. intros i j. unfold key_le. apply _. Defined.

Definition argsort (a : list Z) : list Z :=
  Z.of_nat <$> merge_sort (key_le a) (seq 0 (length a)).

(** [np.pad(flat, (0, padding), mode='constant', constant_values=0)]. *)
Definition pad_right (flat : list Z) (padding : Z) : result (list Z) :=
  if (padding <? 0)%Z then Raise (ValueError "index can't contain negative values")
  else Ok (flat ++ replicate (Z.to_nat padding) 0%Z).

(** [l[:stop]]: a negative [stop] counts from the end. *)
Definition slice_to {A : Type} (l : list A) (stop : Z) : list A :=
  if (stop <? 0)%Z then take (Z.to_nat (Z.of_nat (length l) + stop)) l
  else take (Z.to_nat stop) l.

(** *** Rows of a row-major array *)

Lemma row_S w d i : row w d (S i) = row w (drop w d) i.
Proof. unfold row. by rewrite drop_drop. Qed.

Lemma row_concat w rows j r :
  Forall (fun r => length r = w) rows ->
  rows !! j = Some r ->
  row w (concat rows) j = r.
Proof.
  intros Hrows. revert j. induction Hrows as [|r0 rows Hr0 _ IH]; intros j; [done|].
  destruct j as [|j]; simpl.
  - intros [= <-]. unfold row. rewrite Nat.mul_0_l, drop_0.
    by rewrite take_app_length' by done.
  - intros Hj. rewrite row_S. rewrite drop_app_length' by done. by apply IH.
Qed.

Lemma length_concat_rows w (rows : list (list Z)) :
  Forall (fun r => length r = w) rows -> length (concat rows) = length rows * w.
Proof.
  induction 1 as [|r rows Hr _ IH]; simpl; [done|].
  rewrite length_app. lia.
Qed.

Lemma concat_rows w d n :
  length d = n * w -> concat (row w d <$> seq 0 n) = d.
Proof.
  revert d. induction n as [|n IH]; intros d Hd.
  - by destruct d.
  - rewrite <- cons_seq, fmap_cons, <- fmap_S_seq, <- list_fmap_compose. simpl.
    rewrite (list_fmap_ext _ (row w (drop w d)) (seq 0 n)) by (intros; apply row_S).
    rewrite IH by (rewrite length_drop; lia).
    unfold row. simpl. apply take_drop.
Qed.

Lemma length_row w d i : (S i) * w <= length d -> length (row w d i) = w.
Proof. intros Hi. unfold row. rewrite length_take, length_drop. lia. Qed.

Lemma norm_index_in_range n i :
  (0 <= i < n)%Z -> norm_index n i = Ok (Z.to_nat i).
Proof.
  intros Hi. unfold norm_index.
  rewrite (proj2 (Z.ltb_ge i 0)) by lia.
  by rewrite (proj2 (Z.leb_le 0 i)), (proj2 (Z.ltb_lt i n)) by lia.
Qed.

(** Indexing by in-range indices never raises, and picks the named rows. *)
Lemma take_rows_in_range a n rest idx :
  shape a = n :: rest ->
  Forall (fun i => (0 <= i < n)%Z) idx ->
  take_rows a idx =
  Ok (NDArray (Z.of_nat (length idx) :: rest) (dtype_of a)
        (concat ((fun i => row (Z.to_nat (prod_list rest)) (data a) (Z.to_nat i)) <$> idx))).
Proof.
  intros Hshape Hidx. unfold take_rows. rewrite Hshape.
  rewrite (map_result_all_Ok _
    (fun i => row (Z.to_nat (prod_list rest)) (data a) (Z.to_nat i))); [done|].
  intros i Hi. rewrite Forall_forall in Hidx.
  by rewrite norm_index_in_range by auto.
Qed.

(** *** [argsort] inverts a permutation of [arange n] *)

Lemma lookup_total_seq_fmap (l : list Z) :
  (fun i => l !!! i) <$> seq 0 (length l) = l.
Proof.
  apply list_eq. intros i. rewrite list_lookup_fmap.
  destruct (decide (i < length l)) as [Hi|Hi].
  - rewrite lookup_seq_lt by done. simpl.
    by rewrite list_lookup_lookup_total_lt by done.
  - rewrite lookup_seq_ge by lia. simpl. symmetry. apply lookup_ge_None. lia.
Qed.

Lemma Sorted_arange n : Sorted Z.le (arange n).
Proof.
  unfold arange. generalize (Z.to_nat n) as k. intros k. generalize 0 as lo.
  induction k as [|k IH]; intros lo; simpl; [constructor|].
  constructor; [apply IH|].
  destruct k; simpl; constructor. lia.
Qed.

#[global] Instance key_le_total (a : list Z) : Total (key_le a).
Proof. intros i j. unfold key_le. lia. Qed.

Lemma argsort_permutation (perm : list Z) (n : Z) :
  perm ≡ₚ arange n ->
  (fun i => perm !!! i) <$> merge_sort (key_le perm) (seq 0 (length perm)) = arange n.
Proof.
  intros Hperm.
  apply (Sorted_unique Z.le).
  - apply (Sorted_fmap _ (key_le perm)); [done|]. apply (Sorted_merge_sort _).
  - apply Sorted_arange.
  - rewrite merge_sort_Permutation. by rewrite lookup_total_seq_fmap.
Qed.

(** [s] lists the positions of [a] in ascending order of their entries. *)
Definition sorts (a : list Z) (s : list nat) : Prop :=
  s ≡ₚ seq 0 (length a) /\ Sorted Z.le ((fun i => a !!! i) <$> s).

Lemma fmap_inj_on {A B : Type} (f : A -> B) (l k : list A) :
  (forall x y, x ∈ l -> y ∈ k -> f x = f y -> x = y) ->
  f <$> l = f <$> k -> l = k.
Proof.
  revert k. induction l as [|x l IH]; intros [|y k] Hinj Heq; try done.
  rewrite !fmap_cons in Heq. injection Heq as Hxy Heq.
  f_equal.
  - apply Hinj; [left|left|done].
  - apply IH; [|done]. intros a b Ha Hb. apply Hinj; by right.
Qed.

(** On entries no two of which are equal there is one such list, and
    [argsort] is it, whatever the sorting algorithm. *)
Lemma argsort_unique (a : list Z) (s : list nat) :
  NoDup a -> sorts a s -> argsort a = Z.of_nat <$> s.
Proof.
  intros Hnd [Hperm Hsorted]. unfold argsort. f_equal.
  set (m := merge_sort (key_le a) (seq 0 (length a))).
  assert (Hm : m ≡ₚ seq 0 (length a)) by apply merge_sort_Permutation.
  apply (fmap_inj_on (fun i => a !!! i)).
  - intros i j Hi Hj Hij. rewrite Hm in Hi. rewrite Hperm in Hj.
    apply elem_of_seq in Hi, Hj.
    apply (NoDup_lookup a i j (a !!! i)); [done| |].
    + apply list_lookup_lookup_total_lt. lia.
    + rewrite Hij. apply list_lookup_lookup_total_lt. lia.
  - apply (Sorted_unique Z.le).
    + apply (Sorted_fmap _ (key_le a)); [done|]. apply (Sorted_merge_sort _).
    + done.
    + by rewrite Hm, Hperm.
Qed.

Lemma arange_in_range n i : i ∈ arange n -> (0 <= i < n)%Z.
Proof.
  unfold arange. intros (j & -> & Hj)%list_elem_of_fmap.
  apply elem_of_seq in Hj. lia.
Qed.

Lemma length_arange n : length (arange n) = Z.to_nat n.
Proof. unfold arange. by rewrite length_fmap, length_seq. Qed.

(** Picking the rows a permutation names, and then the rows its argsort
    names, gives the array back. *)
Lemma take_rows_argsort (a : ndarray) (n : Z) (rest perm : list Z) :
  shape a = n :: rest ->
  Forall (fun d => (0 <= d)%Z) (shape a) ->
  Z.of_nat (length (data a)) = prod_list (shape a) ->
  perm ≡ₚ arange n ->
  let w := Z.to_nat (prod_list rest) in
  exists s,
    take_rows a perm = Ok s /\
    shape s = shape a /\
    dtype_of s = dtype_of a /\
    length (data s) = length (data a) /\
    (forall P : Z -> Prop, Forall P (data a) -> Forall P (data s)) /\
    (forall i, i < length perm ->
       row w (data s) i = row w (data a) (Z.to_nat (perm !!! i))) /\
    take_rows s (argsort perm) = Ok a.
Proof.
  intros Hshape Hdims Hsize Hperm w.
  rewrite Hshape in Hdims, Hsize. apply Forall_cons in Hdims as [Hn Hrest].
  assert (Hw : (0 <= prod_list rest)%Z).
  { clear -Hrest. induction Hrest; simpl; lia. }
  simpl in Hsize.
  assert (Hlen : length (data a) = Z.to_nat n * w) by (subst w; nia).
  assert (Hplen : length perm = Z.to_nat n).
  { by rewrite Hperm, length_arange. }
  assert (Hin : Forall (fun i => (0 <= i < n)%Z) perm).
  { apply Forall_forall. intros i Hi. apply arange_in_range. by rewrite <- Hperm. }
  set (rows := (fun i => row w (data a) (Z.to_nat i)) <$> perm).
  assert (Hrows : Forall (fun r => length r = w) rows).
  { subst rows. apply Forall_fmap, Forall_forall. intros i Hi. simpl.
    rewrite Forall_forall in Hin. specialize (Hin i Hi).
    apply length_row. nia. }
  assert (Hrow : forall i, i < length perm ->
            row w (concat rows) i = row w (data a) (Z.to_nat (perm !!! i))).
  { intros i Hi. apply row_concat; [done|]. subst rows.
    rewrite list_lookup_fmap. by rewrite list_lookup_lookup_total_lt by done. }
  exists (NDArray (n :: rest) (dtype_of a) (concat rows)).
  rewrite (take_rows_in_range a n rest) by done.
  rewrite Hplen, Z2Nat.id by done. fold w. fold rows.
  split; [done|]. split; [done|]. split; [done|]. simpl.
  set (m := merge_sort (key_le perm) (seq 0 (length perm))).
  assert (Hm : m ≡ₚ seq 0 (length perm)) by apply merge_sort_Permutation.
  assert (Hmin : forall j, j ∈ m -> j < length perm).
  { intros j Hj. rewrite Hm in Hj. apply elem_of_seq in Hj. lia. }
  assert (Hdata : concat ((fun i => row w (concat rows) (Z.to_nat i)) <$> argsort perm)
                  = data a).
  { unfold argsort. fold m. rewrite <- list_fmap_compose.
    rewrite (list_fmap_ext _ (fun j => row w (data a) (Z.to_nat (perm !!! j))) m).
    2:{ intros i j Hj. simpl. rewrite Nat2Z.id. apply Hrow, Hmin.
        by apply list_elem_of_lookup_2 in Hj. }
    replace ((fun j => row w (data a) (Z.to_nat (perm !!! j))) <$> m)
      with ((fun v => row w (data a) (Z.to_nat v)) <$> ((fun j => perm !!! j) <$> m))
      by (by rewrite <- list_fmap_compose).
    subst m. rewrite (argsort_permutation perm n) by done.
    unfold arange. rewrite <- list_fmap_compose.
    rewrite (list_fmap_ext _ (row w (data a)) (seq 0 (Z.to_nat n))).
    2:{ intros i j _. simpl. by rewrite Nat2Z.id. }
    by apply concat_rows. }
  split.
  { rewrite (length_concat_rows w rows) by done. subst rows.
    by rewrite length_fmap, Hplen. }
  split.
  { intros P HP. apply Forall_concat. subst rows. apply Forall_fmap, Forall_forall.
    intros i _. simpl. unfold row. by apply Forall_take, Forall_drop. }
  split; [by rewrite <- Hplen|].
  rewrite (take_rows_in_range _ n rest); [|done|].
  2:{ unfold argsort. fold m. apply Forall_fmap, Forall_forall.
      intros j Hj. simpl. apply Hmin in Hj. lia. }
  simpl. fold w. rewrite Hdata.
  assert (Hal : length (argsort perm) = Z.to_nat n).
  { unfold argsort. fold m. by rewrite length_fmap, Hm, length_seq. }
  rewrite Hal, Z2Nat.id by done.
  destruct a as [shp dt d]. simpl in *. by subst shp.
Qed.

(** ** Floats: [int(x)] of a Python float *)

(** [int(x)] truncates toward zero; it raises on an infinity or a NaN. *)
Definition py_int (x : float) : result Z :=
  match Prim2SF x with
  | S754_zero _ => Ok 0%Z
  | S754_finite s m e =>
      let a := if (0 <=? e)%Z then (Z.pos m * 2 ^ e)%Z else (Z.pos m / 2 ^ (- e))%Z in
      Ok (if s then (- a)%Z else a)
  | S754_infinity _ => Raise OverflowError
  | S754_nan => Raise (ValueError "cannot convert float NaN to integer")
  end.

(** [math.floor(x)], the reading the specification gives of the same step. *)
Definition float_floor (x : float) : result Z :=
  match Prim2SF x with
  | S754_zero _ => Ok 0%Z
  | S754_finite s m e =>
      if (0 <=? e)%Z then Ok (if s then (- (Z.pos m * 2 ^ e))%Z else (Z.pos m * 2 ^ e)%Z)
      else Ok (if s then (- ((Z.pos m + 2 ^ (- e) - 1) / 2 ^ (- e)))%Z
               else (Z.pos m / 2 ^ (- e))%Z)
  | S754_infinity _ => Raise OverflowError
  | S754_nan => Raise (ValueError "cannot convert float NaN to integer")
  end.

(** ** hashlib.sha256

    SHA-256 as FIPS 180-4 defines it, on 32-bit words held in [Z]; the
    library function the key derivation calls. *)

Module SHA256.
Local Open Scope Z_scope.

Definition add32 (a b : Z) : Z := (a + b) mod 2 ^ 32.
Definition rotr (n x : Z) : Z :=
  Z.lor (Z.shiftr x n) ((Z.shiftl x (32 - n)) mod 2 ^ 32).
Definition xor3 (a b c : Z) : Z := Z.lxor (Z.lxor a b) c.

Definition Ch (x y z : Z) : Z :=
  Z.lxor (Z.land x y) (Z.land (Z.lxor x 0xffffffff) z).
Definition Maj (x y z : Z) : Z := xor3 (Z.land x y) (Z.land x z) (Z.land y z).
Definition Sigma0 (x : Z) : Z := xor3 (rotr 2 x) (rotr 13 x) (rotr 22 x).
Definition Sigma1 (x : Z) : Z := xor3 (rotr 6 x) (rotr 11 x) (rotr 25 x).
Definition sigma0 (x : Z) : Z := xor3 (rotr 7 x) (rotr 18 x) (Z.shiftr x 3).
Definition sigma1 (x : Z) : Z := xor3 (rotr 17 x) (rotr 19 x) (Z.shiftr x 10).

(** The constants, as the standard derives them: the first 32 bits of the
    fractional parts of the cube roots (for [K]) and of the square roots
    (for [H0]) of the first primes. *)
Definition is_prime (p : nat) : bool :=
  forallb (fun d => negb (p mod d =? 0)%nat) (seq 2 (p - 2)).
Definition primes : list Z := Z.of_nat <$> filter is_prime (seq 2 310).

(** The integer cube root below [2 ^ n], one bit at a time. *)
Fixpoint cbrt_bits (n : nat) (r x : Z) : Z :=
  match n with
  | O => r
  | S n' =>
      let r' := r + 2 ^ Z.of_nat n' in
      if r' * r' * r' <=? x then cbrt_bits n' r' x else cbrt_bits n' r x
  end.

Definition K : list Z :=
  Eval vm_compute in (fun p => cbrt_bits 40 0 (p * 2 ^ 96) mod 2 ^ 32) <$> primes.

Definition H0 : list Z :=
  Eval vm_compute in (fun p => Z.sqrt (p * 2 ^ 64) mod 2 ^ 32) <$> take 8 primes.

(** Big-endian bytes of the low [n] bytes of [x], and back. *)
Fixpoint be_bytes (n : nat) (x : Z) : list Z :=
  match n with
  | O => []
  | S n' => (Z.shiftr x (8 * Z.of_nat n')) mod 256 :: be_bytes n' x
  end.
Definition be_int (l : list Z) : Z := foldl (fun acc b => acc * 256 + b) 0 l.

(** The message, one [0x80], zeros up to 56 modulo 64, the bit length. *)
Definition padding (msg : list Z) : list Z :=
  let n := Z.of_nat (length msg) in
  msg ++ [0x80] ++ replicate (Z.to_nat ((55 - n) mod 64)) 0 ++ be_bytes 8 (8 * n).

Fixpoint words (n : nat) (l : list Z) : list Z :=
  match n with
  | O => []
  | S n' => be_int (take 4 l) :: words n' (drop 4 l)
  end.

(** The message schedule: 16 words of the block, 48 derived ones. *)
Definition schedule_step (w : list Z) (t : nat) : list Z :=
  w ++ [add32 (add32 (sigma1 (w !!! (t - 2)%nat)) (w !!! (t - 7)%nat))
              (add32 (sigma0 (w !!! (t - 15)%nat)) (w !!! (t - 16)%nat))].
Definition schedule (block : list Z) : list Z :=
  foldl schedule_step (words 16 block) (seq 16 48).

Definition round (st : list Z) (kw : Z * Z) : list Z :=
  match st with
  | [a; b; c; d; e; f; g; h] =>
      let t1 := add32 (add32 (add32 h (Sigma1 e)) (add32 (Ch e f g) (fst kw))) (snd kw) in
      let t2 := add32 (Sigma0 a) (Maj a b c) in
      [add32 t1 t2; a; b; c; add32 d t1; e; f; g]
  | _ => st
  end.

Definition compress (h : list Z) (block : list Z) : list Z :=
  zip_with add32 h (foldl round h (zip K (schedule block))).

Fixpoint blocks (n : nat) (h : list Z) (l : list Z) : list Z :=
  match n with
  | O => h
  | S n' => blocks n' (compress h (take 64 l)) (drop 64 l)
  end.

(** [hashlib.sha256(msg).digest()]. *)
Definition sha256 (msg : list Z) : list Z :=
  let padded := padding msg in
  blocks (length padded / 64)%nat H0 padded ≫= be_bytes 4.

End SHA256.

(** ** Strings and bytes *)

(** [s.encode()]. *)
Definition encode (s : string) : list Z :=
  (fun a => Z.of_N (Ascii.N_of_ascii a)) <$> String.list_ascii_of_string s.

(** [int.from_bytes(b, 'big')]. *)
Definition int_from_bytes_big (b : list Z) : Z := SHA256.be_int b.

(** The float of a Python [int] below 2^53 (no rounding takes place). *)
Definition float_of_int (z : Z) : float := PrimFloat.of_uint63 (Uint63.of_Z z).

(** The value of a big-endian byte string, as the specification writes it:
    the sum of [b_i * 256^(n-1-i)]. *)
Fixpoint big_endian_uint (b : list Z) : Z :=
  match b with
  | [] => 0
  | x :: rest => x * 256 ^ Z.of_nat (length rest) + big_endian_uint rest
  end%Z.

Lemma foldl_be_int acc b :
  foldl (fun acc b => acc * 256 + b)%Z acc b =
  (acc * 256 ^ Z.of_nat (length b) + big_endian_uint b)%Z.
Proof.
  revert acc. induction b as [|x b IH]; intros acc; simpl foldl.
  - simpl. lia.
  - rewrite IH. cbn [big_endian_uint length].
    rewrite Nat2Z.inj_succ, Z.pow_succ_r by lia. lia.
Qed.

Lemma int_from_bytes_big_spec b : int_from_bytes_big b = big_endian_uint b.
Proof. unfold int_from_bytes_big, SHA256.be_int. by rewrite foldl_be_int. Qed.

Lemma big_endian_uint_bound b :
  Forall is_byte b -> (0 <= big_endian_uint b < 256 ^ Z.of_nat (length b))%Z.
Proof.
  induction 1 as [|x b Hx _ IH]; cbn [big_endian_uint length]; [lia|].
  rewrite Nat2Z.inj_succ, Z.pow_succ_r by lia. unfold is_byte in Hx. nia.
Qed.

Lemma be_bytes_is_byte n x : Forall is_byte (SHA256.be_bytes n x).
Proof.
  induction n as [|n IH]; simpl; constructor; [|done].
  unfold is_byte. apply Z.mod_pos_bound. lia.
Qed.

Lemma length_be_bytes n x : length (SHA256.be_bytes n x) = n.
Proof. induction n as [|n IH]; simpl; [done|]. by rewrite IH. Qed.

Lemma length_sha256_round st kw : length st = 8 -> length (SHA256.round st kw) = 8.
Proof.
  intros Hst. do 9 (destruct st as [|? st]; try done).
Qed.

Lemma length_sha256_compress h block :
  length h = 8 -> length (SHA256.compress h block) = 8.
Proof.
  intros Hh. unfold SHA256.compress. rewrite length_zip_with_l_eq; [done|].
  rewrite Hh. generalize (zip SHA256.K (SHA256.schedule block)). intros kws.
  revert h Hh. induction kws as [|kw kws IH]; intros h Hh; simpl; [done|].
  apply IH. by apply length_sha256_round.
Qed.

Lemma length_sha256_blocks n h l :
  length h = 8 -> length (SHA256.blocks n h l) = 8.
Proof.
  revert h l. induction n as [|n IH]; intros h l Hh; simpl; [done|].
  apply IH. by apply length_sha256_compress.
Qed.

(** A digest is 32 bytes. *)
Lemma length_sha256 msg : length (SHA256.sha256 msg) = 32.
Proof.
  unfold SHA256.sha256.
  pose proof (length_sha256_blocks (length (SHA256.padding msg) / 64) SHA256.H0
                (SHA256.padding msg) eq_refl) as Hlen.
  destruct (SHA256.blocks _ _ _) as [|a [|b [|c [|d [|e [|f [|g [|h [|]]]]]]]]];
    try done.
Qed.

Lemma sha256_is_byte msg : Forall is_byte (SHA256.sha256 msg).
Proof.
  unfold SHA256.sha256. apply Forall_bind, Forall_forall.
  intros x _. apply be_bytes_is_byte.
Qed.

(** ** dckp_es.py: the encryptor *)

Module DCKPES.

Record DCKPESEncryptor : Type := Encryptor {
  filename : string;
  timestamp : string;  (* [timestamp.isoformat()] *)
  key : list Z;
  chaos_seed : float
}.

(** [_generate_keys()]: the AES key and the chaos seed of a file name and
    a timestamp (in its [isoformat()]). The float literals are the doubles
    nearest to 1000000.0, 0.1 and 0.8. *)
Definition _generate_keys (filename timestamp : string) : list Z * float :=
  let unique_string := filename +:+ "|" +:+ timestamp in
  let hash_bytes := SHA256.sha256 (encode unique_string) in
  let aes_key := take 16 hash_bytes in
  let seed_int := int_from_bytes_big (take 8 (drop 16 hash_bytes)) in
  let chaos_seed := (float_of_int (seed_int mod 1000000) / 1000000)%float in
  let chaos_seed :=
    (0x1.999999999999ap-4 + (chaos_seed * 0x1.999999999999ap-1))%float in
  (aes_key, chaos_seed).

(** [DCKPESEncryptor(filename, timestamp)]. *)
Definition __init__ (filename timestamp : string) : DCKPESEncryptor :=
  let keys := _generate_keys filename timestamp in
  Encryptor filename timestamp (fst keys) (snd keys).

(** [_get_shuffle_seed()]. *)
Definition _get_shuffle_seed (self : DCKPESEncryptor) : Z :=
  int_from_bytes_big (take 4 (key self)).

(** *** The chaos seed of a residue *)

(** The seed [_generate_keys] computes from [seed_int % 1000000]. *)
Definition chaos_seed_of (residue : Z) : float :=
  (0x1.999999999999ap-4 + ((float_of_int residue / 1000000) * 0x1.999999999999ap-1))%float.

(** [0.1 <= x < 0.9] on doubles. *)
Definition seed_in_range (x : float) : bool :=
  ((0x1.999999999999ap-4 <=? x)%float && (x <? 0x1.ccccccccccccdp-1)%float)%bool.

(** [0.1 < x < 0.9] on doubles. *)
Definition seed_in_open_range (x : float) : bool :=
  ((0x1.999999999999ap-4 <? x)%float && (x <? 0x1.ccccccccccccdp-1)%float)%bool.

(** The seeds of the residues [k, k + fuel) all pass [ok]. *)
Fixpoint residues_ok (ok : float -> bool) (fuel : nat) (k : Z) : bool :=
  match fuel with
  | O => true
  | S fuel' => if ok (chaos_seed_of k) then residues_ok ok fuel' (k + 1)%Z else false
  end.

Lemma residues_ok_spec ok fuel : forall k j,
  residues_ok ok fuel k = true ->
  (k <= j < k + Z.of_nat fuel)%Z ->
  ok (chaos_seed_of j) = true.
Proof.
  induction fuel as [|fuel IH]; intros k j Hall Hj; [lia|].
  simpl in Hall. destruct (ok (chaos_seed_of k)) eqn:Hk; [|done].
  destruct (decide (j = k)) as [->|Hne]; [done|].
  apply (IH (k + 1)%Z); [done|lia].
Qed.

Lemma all_residues_in_range :
  residues_ok seed_in_range (Z.to_nat 1000000) 0 = true.
Proof. vm_compute. reflexivity. Qed.

Lemma chaos_seed_of_in_range k :
  (0 <= k < 1000000)%Z -> seed_in_range (chaos_seed_of k) = true.
Proof.
  intros Hk. apply (residues_ok_spec _ (Z.to_nat 1000000) 0%Z k).
  - apply all_residues_in_range.
  - lia.
Qed.

Lemma generate_keys_seed filename timestamp :
  snd (_generate_keys filename timestamp) =
  chaos_seed_of
    (int_from_bytes_big
       (take 8 (drop 16 (SHA256.sha256 (encode (filename +:+ "|" +:+ timestamp)))))
     mod 1000000).
Proof. reflexivity. Qed.

(** Multiplication of doubles commutes. *)
Lemma float_mul_comm (x y : float) : (x * y)%float = (y * x)%float.
Proof.
  rewrite <- (SF2Prim_Prim2SF (x * y)), <- (SF2Prim_Prim2SF (y * x)).
  rewrite !mul_spec. f_equal. unfold SF64mul, SFmul.
  destruct (Prim2SF x) as [sx|sx| |sx mx ex], (Prim2SF y) as [sy|sy| |sy my ey];
    try reflexivity; try (by rewrite xorb_comm).
  by rewrite xorb_comm, Pos.mul_comm, Z.add_comm.
Qed.

(** [CHAOS_R = 3.99], the double nearest to it. *)
Definition CHAOS_R : float := 0x1.feb851eb851ecp+1%float.

(** [_logistic_map(x, iterations)]. *)
Definition _logistic_map (x : float) (iterations : nat) : float :=
  Nat.iter iterations (fun x => (CHAOS_R * x * (1 - x))%float) x.

(** The second loop of [_generate_chaos_sequence]: the state is the
    current [x] and the array being filled. *)
Definition chaos_step (i : nat) (st : float * list Z) : result (float * list Z) :=
  let x := _logistic_map (fst st) 1 in
  v <- py_int (x * 255)%float ;;
  Ok (x, <[i := (v mod 256)%Z]> (snd st)).

(** [_generate_chaos_sequence(length)]. *)
Definition _generate_chaos_sequence (self : DCKPESEncryptor) (length : nat)
  : result (list Z) :=
  let sequence := replicate length 0%Z in
  let x := chaos_seed self in
  let x := Nat.iter 100 (fun x => _logistic_map x 1) x in
  st <- for_each (range 0 length) chaos_step (x, sequence) ;;
  Ok (snd st).

(** The diffusion loop of [encrypt_pixels], in place:
    [encrypted[i] = encrypted[i] ^ encrypted[i-1]]. *)
Definition xor_prev (a : list Z) (i : nat) : list Z :=
  <[i := Z.lxor (a !!! i) (a !!! (i - 1))]> a.

Definition diffuse (encrypted : list Z) : list Z :=
  foldl xor_prev encrypted (range 1 (length encrypted)).

(** The reverse loop of [decrypt_pixels]:
    [for i in range(len(decrypted) - 1, 0, -1)]. *)
Definition undiffuse (decrypted : list Z) : list Z :=
  foldl xor_prev decrypted (range_down (length decrypted - 1) 0).

(** [encrypt_pixels(pixel_data)]. *)
Definition encrypt_pixels (self : DCKPESEncryptor) (pixel_data : ndarray)
  : result ndarray :=
  let flat_data := astype_uint8 (flatten pixel_data) in
  chaos_seq <- _generate_chaos_sequence self (length flat_data) ;;
  let encrypted := bitwise_xor flat_data chaos_seq in
  let encrypted := diffuse encrypted in
  reshape UInt8 encrypted (shape pixel_data).

(** [decrypt_pixels(encrypted_data)]. *)
Definition decrypt_pixels (self : DCKPESEncryptor) (encrypted_data : ndarray)
  : result ndarray :=
  let flat_data := astype_uint8 (flatten encrypted_data) in
  let decrypted := undiffuse flat_data in
  chaos_seq <- _generate_chaos_sequence self (length flat_data) ;;
  let decrypted := bitwise_xor decrypted chaos_seq in
  reshape UInt8 decrypted (shape encrypted_data).

(** *** The keystream loop, in closed form *)

(** [logistic_orbit x0 n] is x_n of the recurrence
    x_{n+1} = CHAOS_R * x_n * (1 - x_n). *)
Fixpoint logistic_orbit (x0 : float) (n : nat) : float :=
  match n with
  | 0 => x0
  | S n => let x := logistic_orbit x0 n in (CHAOS_R * x * (1 - x))%float
  end.

(** The byte emitted for the iterate [x]. *)
Definition chaos_byte (x : float) : result Z :=
  v <- py_int (x * 255)%float ;; Ok (v mod 256)%Z.

Lemma logistic_orbit_iter x n :
  Nat.iter n (fun x => _logistic_map x 1) x = logistic_orbit x n.
Proof.
  induction n as [|n IH]; [done|].
  cbn [Nat.iter nat_rect logistic_orbit]. unfold Nat.iter in IH. by rewrite IH.
Qed.

Lemma logistic_orbit_add x n m :
  logistic_orbit (logistic_orbit x n) m = logistic_orbit x (n + m).
Proof.
  induction m as [|m IH]; simpl.
  - by rewrite Nat.add_0_r.
  - rewrite IH. by replace (n + S m) with (S (n + m)) by lia.
Qed.

Lemma chaos_loop n : forall k x s,
  k + n <= length s ->
  for_each (seq k n) chaos_step (x, s) =
  (r <- map_result (fun i => chaos_byte (logistic_orbit x (S i))) (seq 0 n) ;;
   Ok (logistic_orbit x n, take k s ++ r ++ drop (k + n) s)).
Proof.
  induction n as [|n IH]; intros k x s Hk.
  - simpl. by rewrite Nat.add_0_r, take_drop.
  - rewrite <- (cons_seq n 0), <- (cons_seq n k). cbn [for_each map_result].
    unfold chaos_step at 1, chaos_byte at 1.
    cbn [fst snd _logistic_map Nat.iter nat_rect].
    change (logistic_orbit x 1) with (CHAOS_R * x * (1 - x))%float.
    destruct (py_int _) as [v|e]; cbn [bind]; [|done].
    rewrite IH by (rewrite length_insert; lia).
    rewrite <- fmap_S_seq, map_result_fmap.
    rewrite (map_result_ext (fun i => chaos_byte (logistic_orbit x (S (S i))))
      (fun i => chaos_byte (logistic_orbit (CHAOS_R * x * (1 - x))%float (S i)))).
    2:{ intros i. f_equal. symmetry. exact (logistic_orbit_add x 1 (S i)). }
    destruct (map_result _ _) as [r|e]; cbn [bind]; [|done].
    f_equal. f_equal.
    + exact (logistic_orbit_add x 1 n).
    + rewrite insert_take_drop by lia.
      assert (Ht : length (take k s) = k) by (rewrite length_take; lia).
      replace (take k s ++ (v `mod` 256)%Z :: drop (S k) s)
        with ((take k s ++ [(v `mod` 256)%Z]) ++ drop (S k) s)
        by (by rewrite <- app_assoc).
      rewrite take_app_length' by (rewrite length_app; simpl; lia).
      rewrite drop_app_ge by (rewrite length_app; simpl; lia).
      rewrite length_app, Ht. simpl length. rewrite drop_drop.
      rewrite <- app_assoc. simpl. repeat f_equal. lia.
Qed.

Lemma generate_chaos_sequence_closed self n :
  _generate_chaos_sequence self n =
  map_result (fun i => chaos_byte (logistic_orbit (chaos_seed self) (100 + S i))) (seq 0 n).
Proof.
  unfold _generate_chaos_sequence, range. rewrite Nat.sub_0_r.
  rewrite chaos_loop by (rewrite length_replicate; lia).
  rewrite logistic_orbit_iter.
  rewrite (map_result_ext _ (fun i => chaos_byte
    (logistic_orbit (chaos_seed self) (100 + S i)))).
  2:{ intros i. by rewrite logistic_orbit_add. }
  destruct (map_result _ _) as [r|e] eqn:Hr; simpl; [|done].
  apply map_result_Ok_length in Hr. rewrite length_seq in Hr.
  rewrite drop_ge by (rewrite length_replicate; lia).
  by rewrite app_nil_r.
Qed.

Lemma generate_chaos_sequence_length self n s :
  _generate_chaos_sequence self n = Ok s -> length s = n.
Proof.
  rewrite generate_chaos_sequence_closed. intros H.
  apply map_result_Ok_length in H. by rewrite length_seq in H.
Qed.

(** *** The diffusion loops *)

Lemma length_foldl_xor_prev idx a : length (foldl xor_prev a idx) = length a.
Proof.
  revert a. induction idx as [|i idx IH]; intros a; simpl; [done|].
  rewrite IH. apply length_insert.
Qed.

Lemma xor_prev_lookup_eq a i :
  i < length a -> xor_prev a i !!! i = Z.lxor (a !!! i) (a !!! (i - 1)).
Proof. intros Hi. unfold xor_prev. by rewrite list_lookup_total_insert_eq. Qed.

Lemma xor_prev_lookup_ne a i j : i <> j -> xor_prev a i !!! j = a !!! j.
Proof. intros Hij. unfold xor_prev. by rewrite list_lookup_total_insert_ne. Qed.

(** After the forward loop has run over [1 .. k], the cells up to [k] hold
    the running XOR and the cells after [k] are untouched. *)
Lemma diffuse_prefix a k :
  k < length a ->
  let a' := foldl xor_prev a (seq 1 k) in
  a' !!! 0 = a !!! 0 /\
  (forall j, 1 <= j <= k -> a' !!! j = Z.lxor (a !!! j) (a' !!! (j - 1))) /\
  (forall j, k < j -> a' !!! j = a !!! j).
Proof.
  induction k as [|k IH]; intros Hk; cbv zeta.
  - simpl. split; [done|]. split; [lia|done].
  - destruct IH as (H0 & Hle & Hgt); [lia|].
    rewrite seq_S, foldl_app. simpl foldl.
    set (b := foldl xor_prev a (seq 1 k)) in *.
    assert (Hlen : length b = length a) by apply length_foldl_xor_prev.
    split; [by rewrite xor_prev_lookup_ne by lia|].
    split.
    + intros j Hj. destruct (decide (j = S k)) as [->|Hne].
      * rewrite xor_prev_lookup_eq by lia.
        rewrite xor_prev_lookup_ne by lia.
        rewrite Hgt by lia. by replace (S k - 1) with k by lia.
      * rewrite !xor_prev_lookup_ne by lia. apply Hle. lia.
    + intros j Hj. rewrite xor_prev_lookup_ne by lia. apply Hgt. lia.
Qed.

(** After the backward loop has run over [n-1 .. n-k], those cells hold the
    XOR of two neighbouring input cells and the cells below are untouched. *)
Lemma undiffuse_suffix a k :
  k < length a ->
  let a' := foldl xor_prev a (rev (seq (length a - k) k)) in
  (forall j, length a - k <= j < length a ->
     a' !!! j = Z.lxor (a !!! j) (a !!! (j - 1))) /\
  (forall j, j < length a - k -> a' !!! j = a !!! j).
Proof.
  induction k as [|k IH]; intros Hk; cbv zeta.
  - simpl. split; [lia|done].
  - destruct IH as (Hge & Hlt); [lia|].
    replace (length a - k) with (S (length a - S k)) in * by lia.
    rewrite <- cons_seq. cbn [rev]. rewrite foldl_app. simpl foldl.
    set (b := foldl xor_prev a (rev (seq (S (length a - S k)) k))) in *.
    assert (Hlen : length b = length a) by apply length_foldl_xor_prev.
    split.
    + intros j Hj. destruct (decide (j = length a - S k)) as [->|Hne].
      * rewrite xor_prev_lookup_eq by lia. by rewrite !Hlt by lia.
      * rewrite xor_prev_lookup_ne by lia. apply Hge. lia.
    + intros j Hj. rewrite xor_prev_lookup_ne by lia. apply Hlt. lia.
Qed.

Lemma diffuse_spec a :
  length (diffuse a) = length a /\
  diffuse a !!! 0 = a !!! 0 /\
  (forall i, 1 <= i < length a ->
     diffuse a !!! i = Z.lxor (a !!! i) (diffuse a !!! (i - 1))).
Proof.
  unfold diffuse, range. split; [apply length_foldl_xor_prev|].
  destruct a as [|x a]; [split; [done|simpl; lia]|].
  destruct (diffuse_prefix (x :: a) (length (x :: a) - 1)) as (H0 & Hle & _);
    [simpl; lia|].
  split; [exact H0|]. intros i Hi. apply Hle. lia.
Qed.

Lemma undiffuse_spec a :
  length (undiffuse a) = length a /\
  undiffuse a !!! 0 = a !!! 0 /\
  (forall i, 1 <= i < length a ->
     undiffuse a !!! i = Z.lxor (a !!! i) (a !!! (i - 1))).
Proof.
  unfold undiffuse, range_down. split; [apply length_foldl_xor_prev|].
  destruct a as [|x a]; [split; [done|simpl; lia]|].
  destruct (undiffuse_suffix (x :: a) (length (x :: a) - 1)) as (Hge & Hlt);
    [simpl; lia|].
  replace (length (x :: a) - (length (x :: a) - 1)) with 1 in * by (simpl; lia).
  rewrite Nat.sub_0_r.
  split; [apply Hlt; lia|]. intros i Hi. apply Hge. lia.
Qed.

Lemma diffuse_is_byte a : Forall is_byte a -> Forall is_byte (diffuse a).
Proof.
  unfold diffuse. generalize (range 1 (length a)). intros idx. revert a.
  induction idx as [|i idx IH]; intros a Ha; simpl; [done|].
  apply IH. unfold xor_prev.
  destruct (decide (i < length a)) as [Hi|Hi].
  - apply Forall_insert; [done|].
    apply is_byte_lxor; apply (Forall_lookup_total_1 _ _ _ Ha); lia.
  - by rewrite list_insert_ge by lia.
Qed.

(** The reverse loop undoes the forward loop. *)
Lemma undiffuse_diffuse a : undiffuse (diffuse a) = a.
Proof.
  destruct (diffuse_spec a) as (Hlen & H0 & Hrec).
  destruct (undiffuse_spec (diffuse a)) as (Hlen' & H0' & Hrec').
  apply (list_eq_same_length _ _ (length a)); [done|congruence|].
  intros i x y Hi Hx Hy.
  apply (list_lookup_total_correct _ _ _) in Hx, Hy. subst x y.
  destruct i as [|i]; [congruence|].
  rewrite Hrec', Hrec by lia.
  by rewrite Z.lxor_assoc, Z.lxor_nilpotent, Z.lxor_0_r.
Qed.

Lemma chaos_byte_is_byte x b : chaos_byte x = Ok b -> is_byte b.
Proof.
  unfold chaos_byte. destruct (py_int _) as [v|]; simpl; [|done].
  intros [= <-]. unfold is_byte. apply Z.mod_pos_bound. lia.
Qed.

Lemma map_chaos_byte_is_byte {A : Type} (g : A -> float) l s :
  map_result (fun i => chaos_byte (g i)) l = Ok s -> Forall is_byte s.
Proof.
  revert s. induction l as [|a l IH]; intros s; simpl.
  - intros [= <-]. constructor.
  - destruct (chaos_byte (g a)) as [b|] eqn:Hb; simpl; [|done].
    destruct (map_result _ l) as [bs|]; simpl; [|done].
    intros [= <-]. constructor; [by eapply chaos_byte_is_byte|by apply IH].
Qed.

Lemma chaos_sequence_is_byte self n s :
  _generate_chaos_sequence self n = Ok s -> Forall is_byte s.
Proof.
  rewrite generate_chaos_sequence_closed. apply map_chaos_byte_is_byte.
Qed.

(** With a keystream at hand, [encrypt_pixels] never raises. *)
Lemma encrypt_pixels_Ok self X S :
  Forall (fun d => (0 <= d)%Z) (shape X) ->
  Z.of_nat (length (data X)) = prod_list (shape X) ->
  _generate_chaos_sequence self (length (data X)) = Ok S ->
  encrypt_pixels self X =
  Ok (NDArray (shape X) UInt8 (diffuse (bitwise_xor (astype_uint8 (data X)) S))).
Proof.
  intros Hdims Hsize HS. unfold encrypt_pixels, flatten.
  rewrite length_astype_uint8, HS. cbn [bind].
  apply reshape_wf; [done|].
  destruct (diffuse_spec (bitwise_xor (astype_uint8 (data X)) S)) as (-> & _).
  unfold bitwise_xor. rewrite length_zip_with_l_eq, length_astype_uint8; [done|].
  apply generate_chaos_sequence_length in HS. by rewrite length_astype_uint8.
Qed.

(** What [encrypt_pixels] returned, when it returned. *)
Lemma encrypt_pixels_inv self X E :
  Forall (fun d => (0 <= d)%Z) (shape X) ->
  Z.of_nat (length (data X)) = prod_list (shape X) ->
  encrypt_pixels self X = Ok E ->
  exists S,
    _generate_chaos_sequence self (length (data X)) = Ok S /\
    E = NDArray (shape X) UInt8 (diffuse (bitwise_xor (astype_uint8 (data X)) S)) /\
    length (data E) = length (data X) /\
    Forall is_byte (data E).
Proof.
  intros Hdims Hsize HE.
  destruct (_generate_chaos_sequence self (length (data X))) as [S|e] eqn:HS.
  2:{ unfold encrypt_pixels, flatten in HE.
      by rewrite length_astype_uint8, HS in HE. }
  exists S. split; [done|].
  rewrite (encrypt_pixels_Ok self X S) in HE by done. injection HE as <-.
  split; [done|]. cbn [data].
  pose proof (generate_chaos_sequence_length _ _ _ HS) as HlenS.
  split.
  - destruct (diffuse_spec (bitwise_xor (astype_uint8 (data X)) S)) as (-> & _).
    unfold bitwise_xor.
    by rewrite length_zip_with_l_eq, length_astype_uint8
      by (by rewrite length_astype_uint8).
  - apply diffuse_is_byte, bitwise_xor_is_byte; [apply astype_uint8_is_byte|].
    by eapply chaos_sequence_is_byte.
Qed.

(** [decrypt_pixels] undoes [encrypt_pixels] on an array of bytes. *)
Lemma decrypt_encrypt self X S :
  wf_uint8 X ->
  _generate_chaos_sequence self (length (data X)) = Ok S ->
  decrypt_pixels self
    (NDArray (shape X) UInt8 (diffuse (bitwise_xor (astype_uint8 (data X)) S)))
  = Ok X.
Proof.
  intros [Hdims Hsize Hdt Hbytes] HS.
  pose proof (generate_chaos_sequence_length _ _ _ HS) as HlenS.
  pose proof (chaos_sequence_is_byte _ _ _ HS) as HbS.
  rewrite (astype_uint8_bytes (data X)) by done.
  set (intermediate := bitwise_xor (data X) S).
  assert (Hlen : length intermediate = length (data X)).
  { subst intermediate. unfold bitwise_xor. by rewrite length_zip_with_l_eq. }
  destruct (diffuse_spec intermediate) as (Hdl & _ & _).
  unfold decrypt_pixels, flatten. cbn [data shape].
  rewrite astype_uint8_bytes.
  2:{ apply diffuse_is_byte. by apply bitwise_xor_is_byte. }
  rewrite Hdl, Hlen, HS. cbn [bind].
  rewrite undiffuse_diffuse. subst intermediate.
  rewrite bitwise_xor_involutive by done.
  rewrite reshape_wf by done.
  destruct X as [shp dt d]. simpl in *. by subst dt.
Qed.

End DCKPES.

(** ** Floats: the logistic orbit stays in the unit interval

    One rounding to a double raises a positive value by at most one part
    in 2^52 plus the smallest subnormal; hence [CHAOS_R * x * (1 - x)]
    maps the doubles between zero and one into themselves, [int(x * 255)]
    never raises on them, and it is [floor(x * 255)]. *)

Module FloatBounds.
Import QArith Qpower Lqa.

Local Open Scope Z_scope.

(** The value [m * 2^e] of a mantissa and an exponent. *)
Definition val (m e : Z) : Q := (inject_Z m * 2 ^ e)%Q.

Lemma pow2_pos e : (0 < 2 ^ e)%Q.
Proof. by apply Qpower_0_lt. Qed.

Lemma pow2_add a b : (2 ^ (a + b) == 2 ^ a * 2 ^ b)%Q.
Proof. by apply Qpower_plus. Qed.

Lemma pow2_inject k : 0 <= k -> (inject_Z (2 ^ k) == 2 ^ k)%Q.
Proof. intros Hk. by rewrite Zpower_Qpower. Qed.

Lemma pow2_le a b : a <= b -> (2 ^ a <= 2 ^ b)%Q.
Proof. intros Hab. apply Qpower_le_compat_l; [done|lra]. Qed.

Lemma val_nonneg m e : 0 <= m -> (0 <= val m e)%Q.
Proof.
  intros Hm. unfold val. apply Qmult_le_0_compat; [|apply Qlt_le_weak, pow2_pos].
  change 0%Q with (inject_Z 0). by rewrite <- Zle_Qle.
Qed.

Lemma val_mono m m' e : m <= m' -> (val m e <= val m' e)%Q.
Proof.
  intros Hm. unfold val. apply Qmult_le_compat_r; [|apply Qlt_le_weak, pow2_pos].
  by rewrite <- Zle_Qle.
Qed.

Lemma val_shift m e k : 0 <= k -> (val (m * 2 ^ k) e == val m (e + k))%Q.
Proof.
  intros Hk. unfold val. rewrite inject_Z_mult, pow2_inject, pow2_add by done. ring.
Qed.

Lemma val_succ m e : (val (m + 1) e == val m e + 2 ^ e)%Q.
Proof. unfold val. rewrite inject_Z_plus. ring. Qed.

Lemma val_mul m1 e1 m2 e2 : (val (m1 * m2) (e1 + e2) == val m1 e1 * val m2 e2)%Q.
Proof. unfold val. rewrite inject_Z_mult, pow2_add. ring. Qed.

(** Dropping the low [k] bits of a mantissa does not raise the value. *)
Lemma val_div m e k : 0 <= m -> 0 <= k -> (val (m / 2 ^ k) (e + k) <= val m e)%Q.
Proof.
  intros Hm Hk. rewrite <- val_shift by done. apply val_mono.
  rewrite Z.mul_comm. apply Z.mul_div_le. by apply Z.pow_pos_nonneg.
Qed.

(** *** Shifting right *)

Lemma shr_1_m mrs : 0 <= shr_m mrs -> shr_m (shr_1 mrs) = shr_m mrs / 2.
Proof.
  destruct mrs as [[|[p|p|]|p] r s]; simpl; try done; intros _.
  - rewrite Pos2Z.inj_xI. apply Z.div_unique with 1; lia.
  - rewrite Pos2Z.inj_xO. apply Z.div_unique with 0; lia.
Qed.

Lemma iter_pos_shr_m p : forall mrs,
  0 <= shr_m mrs ->
  shr_m (SpecFloat.iter_pos shr_1 p mrs) = shr_m mrs / 2 ^ Z.pos p.
Proof.
  assert (Hdiv : forall a b, 0 <= a -> 0 < b -> 0 <= a / b)
    by (intros; by apply Z.div_pos).
  assert (Hpow : forall q, 0 < 2 ^ Z.pos q) by (intros; by apply Z.pow_pos_nonneg).
  induction p as [p IH|p IH|]; intros mrs Hm; cbn [SpecFloat.iter_pos].
  - assert (H1 : 0 <= shr_m (shr_1 mrs)) by (rewrite shr_1_m by done; apply Hdiv; lia).
    assert (H2 : 0 <= shr_m (SpecFloat.iter_pos shr_1 p (shr_1 mrs)))
      by (rewrite IH by done; by apply Hdiv).
    rewrite IH, IH, shr_1_m by done.
    pose proof (Hpow p).
    rewrite !Z.div_div by lia. f_equal.
    rewrite Pos2Z.inj_xI, Z.pow_add_r, Z.pow_twice_r by lia. lia.
  - assert (H2 : 0 <= shr_m (SpecFloat.iter_pos shr_1 p mrs))
      by (rewrite IH by done; by apply Hdiv).
    rewrite IH, IH by done.
    pose proof (Hpow p).
    rewrite !Z.div_div by lia. f_equal.
    rewrite <- Z.pow_add_r by lia. f_equal. lia.
  - by apply shr_1_m.
Qed.

(** [shr] by [n] places drops [n] bits of the mantissa and adds [n] to the
    exponent; with [n <= 0] it does nothing. *)
Lemma shr_spec mrs e n :
  0 <= shr_m mrs ->
  let k := Z.max 0 n in
  shr_m (fst (shr mrs e n)) = shr_m mrs / 2 ^ k /\ snd (shr mrs e n) = e + k.
Proof.
  intros Hm k. subst k. destruct n as [|p|p]; simpl shr; cbn [fst snd].
  - rewrite Z.max_id. simpl. rewrite Z.div_1_r. lia.
  - rewrite Z.max_r by lia. split; [by apply iter_pos_shr_m|done].
  - rewrite Z.max_l by lia. simpl. rewrite Z.div_1_r. lia.
Qed.

Lemma shr_exact m e n : n <= 0 -> shr (Build_shr_record m false false) e n =
  (Build_shr_record m false false, e).
Proof. by destruct n. Qed.

Lemma round_nearest_even_le m l : m <= round_nearest_even m l <= m + 1.
Proof. destruct l as [|[]]; simpl; try lia. destruct (Z.even m); lia. Qed.

Lemma digits2_pos_spec p : 2 ^ (Z.pos (digits2_pos p) - 1) <= Z.pos p.
Proof.
  induction p as [p IH|p IH|]; cbn [digits2_pos]; [| |done].
  all: rewrite Pos2Z.inj_succ.
  all: replace (Z.succ (Z.pos (digits2_pos p)) - 1)
         with (Z.succ (Z.pos (digits2_pos p) - 1)) by lia.
  all: rewrite Z.pow_succ_r by lia.
  - pose proof (Pos2Z.inj_xI p). lia.
  - pose proof (Pos2Z.inj_xO p). lia.
Qed.

(** *** Rounding

    The relative and the absolute error of one rounding to a double. *)
Definition eps : Q := 2 ^ (-52).
Definition tiny : Q := 2 ^ (-1074).

(** A float that is zero or positive and finite, and its value. *)
Definition sf_nonneg (x : spec_float) : Prop :=
  match x with
  | S754_zero _ | S754_finite false _ _ => True
  | _ => False
  end.

Definition sf_val (x : spec_float) : Q :=
  match x with
  | S754_finite false m e => val (Z.pos m) e
  | _ => 0
  end.

Lemma sf_val_nonneg x : (0 <= sf_val x)%Q.
Proof. destruct x as [| | |[] m e]; simpl; try lra. by apply val_nonneg. Qed.

Lemma eps_pos : (0 < eps)%Q.
Proof. apply pow2_pos. Qed.

Lemma tiny_pos : (0 < tiny)%Q.
Proof. apply pow2_pos. Qed.

(** One unit in the last place of [m * 2^e], as the format sees it. *)
Lemma ulp_le p e :
  (2 ^ fexp prec emax (Z.pos (digits2_pos p) + e) <= val (Z.pos p) e * eps + tiny)%Q.
Proof.
  unfold fexp, emin, prec, emax.
  pose proof (val_nonneg (Z.pos p) e ltac:(done)) as Hv.
  pose proof eps_pos as He. pose proof tiny_pos as Ht.
  destruct (Z.max_spec (Z.pos (digits2_pos p) + e - 53) (3 - 1024 - 53)) as [[_ ->]|[_ ->]].
  - change (2 ^ (3 - 1024 - 53))%Q with tiny.
    assert (0 <= val (Z.pos p) e * eps)%Q by (apply Qmult_le_0_compat; lra). lra.
  - replace (Z.pos (digits2_pos p) + e - 53)
      with ((Z.pos (digits2_pos p) - 1) + (e + -52)) by lia.
    rewrite pow2_add, pow2_add. fold eps.
    assert (2 ^ (Z.pos (digits2_pos p) - 1) * 2 ^ e <= val (Z.pos p) e)%Q as Hd.
    { unfold val. apply Qmult_le_compat_r; [|apply Qlt_le_weak, pow2_pos].
      rewrite <- pow2_inject by (pose proof (Pos2Z.is_pos (digits2_pos p)); lia).
      rewrite <- Zle_Qle. apply digits2_pos_spec. }
    assert (2 ^ (Z.pos (digits2_pos p) - 1) * 2 ^ e * eps <= val (Z.pos p) e * eps)%Q
      by (apply Qmult_le_compat_r; lra).
    lra.
Qed.

Lemma binary_round_aux_upper p e :
  (val (Z.pos p) e * (1 + eps) + tiny < 2 ^ 972)%Q ->
  let r := binary_round_aux prec emax false (Z.pos p) e loc_Exact in
  sf_nonneg r /\ (sf_val r <= val (Z.pos p) e * (1 + eps) + tiny)%Q.
Proof.
  intros Hsmall r. subst r.
  pose proof (val_nonneg (Z.pos p) e ltac:(done)) as Hv.
  pose proof eps_pos as He. pose proof tiny_pos as Ht.
  pose proof (ulp_le p e) as Hulp.
  assert (Hve : (0 <= val (Z.pos p) e * eps)%Q) by (apply Qmult_le_0_compat; lra).
  unfold binary_round_aux, shr_fexp. cbn [shr_record_of_loc Zdigits2].
  set (d := fexp prec emax (Z.pos (digits2_pos p) + e)) in *.
  destruct (shr_spec (Build_shr_record (Z.pos p) false false) e (d - e) ltac:(done))
    as [Hm1 He1].
  destruct (shr _ e (d - e)) as [mrs1 e1] eqn:Hshr1. cbn [fst snd shr_m] in Hm1, He1.
  set (m1 := round_nearest_even (shr_m mrs1) (loc_of_shr_record mrs1)).
  assert (Hm1pos : 0 <= shr_m mrs1).
  { rewrite Hm1. apply Z.div_pos; [done|]. apply Z.pow_pos_nonneg; lia. }
  assert (Hround : (val m1 e1 <= val (Z.pos p) e * (1 + eps) + tiny)%Q /\ 0 <= m1).
  { destruct (Z.le_gt_cases (d - e) 0) as [Hn|Hn].
    - rewrite shr_exact in Hshr1 by done. injection Hshr1 as <- <-. subst m1. simpl.
      split; [lra|done].
    - pose proof (round_nearest_even_le (shr_m mrs1) (loc_of_shr_record mrs1)) as Hr.
      fold m1 in Hr. split; [|lia].
      rewrite Z.max_r in Hm1, He1 by lia.
      apply Qle_trans with (val (shr_m mrs1 + 1) e1); [apply val_mono; lia|].
      rewrite val_succ, Hm1, He1.
      pose proof (val_div (Z.pos p) e (d - e) ltac:(done) ltac:(lia)) as Hdiv.
      replace (e + (d - e)) with d in * by lia. lra. }
  destruct Hround as [Hround Hm1nn].
  destruct (shr_spec (Build_shr_record m1 false false) e1
              (fexp prec emax (Zdigits2 m1 + e1) - e1) Hm1nn) as [Hm2 He2].
  destruct (shr _ e1 _) as [mrs2 e2] eqn:Hshr2. cbn [fst snd shr_m] in Hm2, He2.
  set (k := Z.max 0 (fexp prec emax (Zdigits2 m1 + e1) - e1)) in *.
  assert (Hk : 0 <= k) by lia.
  pose proof (val_div m1 e1 k Hm1nn Hk) as Hdiv. rewrite <- Hm2, <- He2 in Hdiv.
  assert (Hm2nn : 0 <= shr_m mrs2).
  { rewrite Hm2. apply Z.div_pos; [done|]. by apply Z.pow_pos_nonneg. }
  destruct (shr_m mrs2) as [|q|q]; [| |done].
  - simpl. split; [done|]. lra.
  - destruct (Z.leb_spec e2 (emax - prec)) as [Hle|Hgt].
    + simpl. split; [done|]. lra.
    + exfalso. unfold emax, prec in Hgt.
      assert (2 ^ 972 <= val (Z.pos q) e2)%Q; [|lra].
      apply Qle_trans with (2 ^ e2)%Q; [apply pow2_le; lia|].
      unfold val. rewrite <- (Qmult_1_l (2 ^ e2)) at 1.
      apply Qmult_le_compat_r; [|apply Qlt_le_weak, pow2_pos].
      change 1%Q with (inject_Z 1). rewrite <- Zle_Qle. lia.
Qed.

(** *** Multiplication and subtraction *)

Lemma val_pos p e : (0 < val (Z.pos p) e)%Q.
Proof.
  unfold val. apply Qmult_lt_0_compat; [|apply pow2_pos].
  change 0%Q with (inject_Z 0). by rewrite <- Zlt_Qlt.
Qed.

Lemma val_sub m1 m2 e : (val (m1 - m2) e == val m1 e - val m2 e)%Q.
Proof. unfold val, Z.sub. rewrite inject_Z_plus, inject_Z_opp. ring. Qed.

Lemma SFmul_upper x y :
  sf_nonneg x -> sf_nonneg y ->
  (sf_val x * sf_val y * (1 + eps) + tiny < 2 ^ 972)%Q ->
  sf_nonneg (SFmul prec emax x y) /\
  (sf_val (SFmul prec emax x y) <= sf_val x * sf_val y * (1 + eps) + tiny)%Q.
Proof.
  pose proof eps_pos as He. pose proof tiny_pos as Ht.
  destruct x as [sx| | |[] mx ex]; try done; destruct y as [sy| | |[] my ey]; try done;
    intros _ _ Hsmall; cbn [SFmul xorb sf_val] in *.
  all: try (split; [done|]; cbn [sf_val]; lra).
  pose proof (val_mul (Z.pos mx) ex (Z.pos my) ey) as Hmul.
  rewrite <- Pos2Z.inj_mul in Hmul.
  destruct (binary_round_aux_upper (mx * my) (ex + ey)) as [Hnn Hle];
    [by rewrite Hmul|].
  split; [exact Hnn|]. by rewrite <- Hmul.
Qed.

Lemma iter_xO m d : Z.pos (Pos.iter xO m d) = Z.pos m * 2 ^ Z.pos d.
Proof.
  induction d as [|d IH] using Pos.peano_ind.
  - simpl. lia.
  - rewrite Pos.iter_succ, Pos2Z.inj_xO, IH, Pos2Z.inj_succ, Z.pow_succ_r by lia. lia.
Qed.

Lemma shl_align_val m e e' :
  (val (Z.pos (fst (shl_align m e e'))) (snd (shl_align m e e')) == val (Z.pos m) e)%Q.
Proof.
  unfold shl_align. destruct (e' - e) as [|d|d] eqn:Hd; cbn [fst snd]; try reflexivity.
  rewrite iter_xO, val_shift by lia. replace (e' + Z.pos d) with e by lia. reflexivity.
Qed.

Lemma shl_align_snd m e e' : e' <= e -> snd (shl_align m e e') = e'.
Proof.
  intros Hle. unfold shl_align. destruct (e' - e) as [|d|d] eqn:Hd; cbn [snd]; lia.
Qed.

Lemma binary_round_upper p e :
  (val (Z.pos p) e * (1 + eps) + tiny < 2 ^ 972)%Q ->
  let r := binary_round prec emax false p e in
  sf_nonneg r /\ (sf_val r <= val (Z.pos p) e * (1 + eps) + tiny)%Q.
Proof.
  intros Hsmall r. subst r. unfold binary_round.
  pose proof (shl_align_val p e (fexp prec emax (Z.pos (digits2_pos p) + e))) as Heq.
  destruct (shl_align p e _) as [mz ez]. cbn [fst snd] in Heq.
  destruct (binary_round_aux_upper mz ez) as [Hnn Hle]; [by rewrite Heq|].
  split; [exact Hnn|by rewrite <- Heq].
Qed.

Lemma SFsub_upper x y :
  sf_nonneg x -> sf_nonneg y -> (sf_val y <= sf_val x)%Q ->
  ((sf_val x - sf_val y) * (1 + eps) + tiny < 2 ^ 972)%Q ->
  sf_nonneg (SFsub prec emax x y) /\
  (sf_val (SFsub prec emax x y) <= (sf_val x - sf_val y) * (1 + eps) + tiny)%Q.
Proof.
  pose proof eps_pos as He. pose proof tiny_pos as Ht.
  destruct x as [sx| | |[] mx ex]; try done; destruct y as [sy| | |[] my ey]; try done;
    intros _ _ Hyx Hsmall; cbn [SFsub sf_val cond_Zopp] in *.
  - split; [by destruct sx, sy|]. assert (sf_val (if sx then if sy then S754_zero false
      else S754_zero sx else if sy then S754_zero sx else S754_zero false) == 0)%Q
      as -> by (by destruct sx, sy). lra.
  - pose proof (val_pos my ey). lra.
  - split; [done|]. cbn [sf_val].
    assert (0 <= val (Z.pos mx) ex * eps)%Q
      by (apply Qmult_le_0_compat; [apply Qlt_le_weak, val_pos|lra]).
    lra.
  - set (ez := Z.min ex ey).
    pose proof (shl_align_val mx ex ez) as Hx. pose proof (shl_align_val my ey ez) as Hy.
    rewrite shl_align_snd in Hx, Hy by lia.
    pose proof (val_sub (Z.pos (fst (shl_align mx ex ez)))
                  (Z.pos (fst (shl_align my ey ez))) ez) as Hsub.
    destruct (Z.pos (fst (shl_align mx ex ez)) - Z.pos (fst (shl_align my ey ez)))
      as [|z|z]; cbn [binary_normalize].
    + split; [done|]. cbn [sf_val].
      assert (0 <= (val (Z.pos mx) ex - val (Z.pos my) ey) * eps)%Q
        by (apply Qmult_le_0_compat; lra).
      lra.
    + destruct (binary_round_upper z ez) as [Hnn Hle].
      * assert (val (Z.pos z) ez * eps == (val (Z.pos mx) ex - val (Z.pos my) ey) * eps)%Q
          by (rewrite Hsub, Hx, Hy; reflexivity).
        lra.
      * split; [exact Hnn|].
        assert (val (Z.pos z) ez * eps == (val (Z.pos mx) ex - val (Z.pos my) ey) * eps)%Q
          by (rewrite Hsub, Hx, Hy; reflexivity).
        lra.
    + exfalso. assert (val (Z.neg z) ez < 0)%Q; [|lra].
      unfold val. rewrite <- (Qmult_0_l (2 ^ ez)).
      apply Qmult_lt_compat_r; [apply pow2_pos|].
      change 0%Q with (inject_Z 0). by rewrite <- Zlt_Qlt.
Qed.

(** *** The unit interval *)

(** The floats from zero to [1]. *)
Definition in_unit (x : float) : Prop :=
  sf_nonneg (Prim2SF x) /\ (sf_val (Prim2SF x) <= 1)%Q.

Definition unit_float (x : float) : bool := ((0 <=? x)%float && (x <=? 1)%float)%bool.

Lemma digits2_pos_upper p : Z.pos p < 2 ^ Z.pos (digits2_pos p).
Proof.
  induction p as [p IH|p IH|]; cbn [digits2_pos]; [| |done].
  all: rewrite Pos2Z.inj_succ, Z.pow_succ_r by lia.
  - pose proof (Pos2Z.inj_xI p). lia.
  - pose proof (Pos2Z.inj_xO p). lia.
Qed.

Lemma unit_float_in_unit x : unit_float x = true -> in_unit x.
Proof.
  unfold unit_float, in_unit. rewrite !leb_spec.
  change (Prim2SF 0) with (S754_zero false).
  change (Prim2SF 1) with (S754_finite false 4503599627370496 (-52)).
  pose proof (Prim2SF_valid x) as Hvalid.
  destruct (Prim2SF x) as [s|[]| |[] m e]; try done.
  intros [_ Hle]%andb_prop. split; [done|]. cbn [sf_val].
  unfold SFleb, SFcompare in Hle.
  destruct (Z.compare_spec e (-52)) as [->|Hlt|Hgt]; [| |done].
  - assert (Hm : (m <= 4503599627370496)%positive).
    { unfold Pos.le, Pos.compare. intros Hgt. rewrite Hgt in Hle. discriminate Hle. }
    apply Qle_trans with (val 4503599627370496 (-52)); [|by vm_compute].
    apply val_mono. exact Hm.
  - cbn [valid_binary] in Hvalid. unfold bounded, canonical_mantissa in Hvalid.
    apply andb_prop in Hvalid as [Hcanon%Z.eqb_eq _].
    unfold fexp, emin, prec, emax in Hcanon.
    pose proof (digits2_pos_upper m) as Hup.
    assert (Hd : Z.pos (digits2_pos m) <= 53) by lia.
    assert (Z.pos m <= 2 ^ 53)
      by (etrans; [apply Z.lt_le_incl, Hup|by apply Z.pow_le_mono_r]).
    apply Qle_trans with (val (2 ^ 53) e); [by apply val_mono|].
    rewrite <- (Z.mul_1_l (2 ^ 53)), val_shift by lia.
    apply Qle_trans with (val 1 0); [|by vm_compute].
    unfold val. apply Qmult_le_l; [done|]. apply pow2_le. lia.
Qed.

Lemma eps_small : (eps <= 1 # 1000000)%Q.
Proof. by vm_compute. Qed.

Lemma tiny_small : (tiny <= 1 # 1000000)%Q.
Proof. by vm_compute. Qed.

Lemma pow2_972_large : (1000 <= 2 ^ 972)%Q.
Proof. apply Qle_trans with (2 ^ 10)%Q; [by vm_compute|by apply pow2_le]. Qed.

Lemma CHAOS_R_val :
  sf_nonneg (Prim2SF DCKPES.CHAOS_R) /\ (sf_val (Prim2SF DCKPES.CHAOS_R) <= 3991 # 1000)%Q.
Proof. by vm_compute. Qed.

Lemma one_val : sf_nonneg (Prim2SF 1) /\ (sf_val (Prim2SF 1) == 1)%Q.
Proof. by vm_compute. Qed.

Lemma byte_scale_val :
  sf_nonneg (Prim2SF 255) /\ (sf_val (Prim2SF 255) == 255)%Q.
Proof. by vm_compute. Qed.

Lemma Qmul_le_mono (a b c d : Q) :
  (0 <= a <= b -> 0 <= c <= d -> a * c <= b * d)%Q.
Proof. intros [? ?] [? ?]. nra. Qed.

(** The parabola [3.99 x (1 - x)] stays below one, with room for the
    rounding errors. *)
Lemma logistic_peak (x : Q) :
  (0 <= x <= 1 ->
   ((3991004 # 1000000) * x + (1 # 1000000)) *
   ((1000001 # 1000000) * (1 - x) + (1 # 1000000)) <= 998 # 1000)%Q.
Proof.
  intros [H0 H1]. pose proof (Qsqr_nonneg (x - (1 # 2))) as Hsq.
  simpl in Hsq. nra.
Qed.

(** One step of the logistic map keeps a float of the unit interval
    inside it. *)
Lemma logistic_step_in_unit x :
  in_unit x -> in_unit (DCKPES.CHAOS_R * x * (1 - x))%float.
Proof.
  intros [Hnn Hx]. unfold in_unit. rewrite !mul_spec, sub_spec.
  unfold SF64mul, SF64sub.
  pose proof eps_pos as He. pose proof tiny_pos as Ht.
  pose proof eps_small as He'. pose proof tiny_small as Ht'.
  pose proof pow2_972_large as Hbig.
  destruct CHAOS_R_val as [HRnn HR]. destruct one_val as [H1nn H1].
  pose proof (sf_val_nonneg (Prim2SF DCKPES.CHAOS_R)) as HR0.
  pose proof (sf_val_nonneg (Prim2SF x)) as Hx0.
  set (X := Prim2SF x) in *. set (R := Prim2SF DCKPES.CHAOS_R) in *.
  set (One := Prim2SF 1) in *.
  assert (HRX : (0 <= sf_val R * sf_val X <= 3991 # 1000)%Q) by nra.
  assert (HRXe : (0 <= sf_val R * sf_val X * eps <= 1 # 1000)%Q) by nra.
  destruct (SFmul_upper R X HRnn Hnn) as [Hann Ha]; [lra|].
  assert (H1X : (0 <= (sf_val One - sf_val X) * eps <= 1 # 1000)%Q) by nra.
  destruct (SFsub_upper One X H1nn Hnn) as [Htnn Ht1]; [lra|lra|].
  pose proof (sf_val_nonneg (SFmul prec emax R X)) as Ha0.
  pose proof (sf_val_nonneg (SFsub prec emax One X)) as Ht0.
  set (a := SFmul prec emax R X) in *. set (t := SFsub prec emax One X) in *.
  rewrite H1 in Ht1.
  assert (Hprod : (sf_val a * sf_val t * (1 + eps) + tiny <= 1)%Q).
  { assert (HA1 : (sf_val R * sf_val X <= (3991 # 1000) * sf_val X)%Q) by nra.
    assert (HA2 : (sf_val R * sf_val X * eps <= (3991 # 1000) * sf_val X * (1 # 1000000))%Q)
      by nra.
    assert (HA : (sf_val a <= (3991004 # 1000000) * sf_val X + (1 # 1000000))%Q) by lra.
    assert (HT1 : ((1 - sf_val X) * eps <= (1 - sf_val X) * (1 # 1000000))%Q) by nra.
    assert (HT : (sf_val t <= (1000001 # 1000000) * (1 - sf_val X) + (1 # 1000000))%Q)
      by lra.
    pose proof (Qmul_le_mono _ _ _ _ (conj Ha0 HA) (conj Ht0 HT)) as HAT.
    pose proof (logistic_peak _ (conj Hx0 Hx)) as HP.
    assert (HAT' : (sf_val a * sf_val t <= 998 # 1000)%Q) by lra.
    assert (HAT0 : (0 <= sf_val a * sf_val t)%Q) by (by apply Qmult_le_0_compat).
    pose proof (Qmul_le_mono _ _ _ _ (conj HAT0 HAT') (conj (Qlt_le_weak _ _ He) He'))
      as HATe.
    lra. }
  destruct (SFmul_upper a t Hann Htnn) as [Hynn Hy]; [lra|].
  split; [exact Hynn|lra].
Qed.

Lemma logistic_orbit_in_unit x n : in_unit x -> in_unit (DCKPES.logistic_orbit x n).
Proof.
  intros Hx. induction n as [|n IH]; [done|].
  cbn [DCKPES.logistic_orbit]. by apply logistic_step_in_unit.
Qed.

(** [x * 255] is [+0] or positive and finite for [x] in the unit
    interval. *)
Lemma scale_nonneg x : in_unit x -> sf_nonneg (Prim2SF (x * 255)).
Proof.
  intros [Hnn Hx]. rewrite mul_spec. unfold SF64mul.
  pose proof eps_pos as He. pose proof tiny_pos as Ht.
  pose proof eps_small as He'. pose proof tiny_small as Ht'.
  pose proof pow2_972_large as Hbig.
  destruct byte_scale_val as [Hbnn Hb].
  pose proof (sf_val_nonneg (Prim2SF x)) as Hx0.
  assert (H1 : (0 <= sf_val (Prim2SF x) * sf_val (Prim2SF 255) <= 255)%Q)
    by (rewrite Hb; lra).
  pose proof (Qmul_le_mono _ _ _ _ H1 (conj (Qlt_le_weak _ _ He) He')) as H2.
  apply SFmul_upper; [done|done|lra].
Qed.

(** On a float that is not negative, [int] and [floor] agree and
    return. *)
Lemma py_int_nonneg x :
  sf_nonneg (Prim2SF x) ->
  exists v, py_int x = Ok v /\ float_floor x = Ok v /\ 0 <= v.
Proof.
  unfold py_int, float_floor. destruct (Prim2SF x) as [s| | |[] m e]; try done; intros _.
  - by exists 0.
  - destruct (0 <=? e) eqn:He.
    + eexists. split; [done|]. split; [done|].
      apply Z.leb_le in He. apply Z.mul_nonneg_nonneg; [done|]. by apply Z.pow_nonneg.
    + eexists. split; [done|]. split; [done|].
      apply Z.leb_gt in He. apply Z.div_pos; [done|]. apply Z.pow_pos_nonneg; lia.
Qed.

Lemma chaos_byte_in_unit x :
  in_unit x ->
  exists v, float_floor (x * 255) = Ok v /\ DCKPES.chaos_byte x = Ok (v mod 256).
Proof.
  intros Hx. destruct (py_int_nonneg _ (scale_nonneg x Hx)) as (v & Hint & Hfloor & _).
  exists v. split; [done|]. unfold DCKPES.chaos_byte. by rewrite Hint.
Qed.

(** The generator returns for a seed of the unit interval. *)
Lemma generate_chaos_sequence_total self n :
  in_unit (DCKPES.chaos_seed self) ->
  exists s, DCKPES._generate_chaos_sequence self n = Ok s.
Proof.
  intros Hseed. rewrite DCKPES.generate_chaos_sequence_closed.
  induction (seq 0 n) as [|i l [s Hs]]; [by eexists|].
  cbn [map_result].
  destruct (chaos_byte_in_unit _ (logistic_orbit_in_unit _ (100 + S i) Hseed))
    as (v & _ & ->).
  rewrite Hs. by eexists.
Qed.

(** Every seed that [_generate_keys] derives lies in the unit interval. *)
Lemma all_residues_unit :
  DCKPES.residues_ok unit_float (Z.to_nat 1000000) 0 = true.
Proof. vm_compute. reflexivity. Qed.

Lemma generate_keys_in_unit filename timestamp :
  unit_float (DCKPES.chaos_seed (DCKPES.__init__ filename timestamp)) = true.
Proof.
  unfold DCKPES.__init__. cbn [DCKPES.chaos_seed]. rewrite DCKPES.generate_keys_seed.
  apply (DCKPES.residues_ok_spec _ (Z.to_nat 1000000) 0); [apply all_residues_unit|].
  pose proof (Z.mod_pos_bound
    (int_from_bytes_big
       (take 8 (drop 16 (SHA256.sha256 (encode (filename +:+ "|" +:+ timestamp))))))
    1000000 ltac:(done)).
  lia.
Qed.

End FloatBounds.

(** ** Python values and the json module

    The values the package metadata is made of: [None], booleans, integers,
    strings, sequences and dictionaries (an association list in insertion
    order, as [json.dumps] prints a [dict]). A tuple and a list are both a
    [JList]: [json.dumps] writes them alike. *)

#[local] Set Warnings "-register-all".
Inductive json : Type :=
| JNull
| JBool (b : bool)
| JInt (z : Z)
| JStr (s : string)
| JList (l : list json)
| JDict (kvs : list (string * json)).

(** [d[k]]: the last binding of [k], [KeyError] when there is none,
    [TypeError] when [d] is no dictionary. *)
Fixpoint assoc_last (k : string) (kvs : list (string * json)) : option json :=
  match kvs with
  | [] => None
  | (k', v) :: rest =>
      match assoc_last k rest with
      | Some v' => Some v'
      | None => if String.eqb k k' then Some v else None
      end
  end.

Definition dict_get (d : json) (k : string) : result json :=
  match d with
  | JDict kvs =>
      match assoc_last k kvs with
      | Some v => Ok v
      | None => Raise (KeyError k)
      end
  | _ => Raise TypeError
  end.

(** A value used as an integer: a boolean is one. *)
Definition as_int (v : json) : result Z :=
  match v with
  | JInt z => Ok z
  | JBool b => Ok (if b then 1 else 0)%Z
  | _ => Raise TypeError
  end.

(** A value used as a dimension: numpy takes no boolean for one. *)
Definition as_dim (v : json) : result Z :=
  match v with
  | JInt z => Ok z
  | _ => Raise TypeError
  end.

(** A value used as a shape: a list of dimensions, or one dimension;
    [None] is no shape. *)
Definition as_shape (v : json) : result (option (list Z)) :=
  match v with
  | JNull => Ok None
  | JList l => shp <- map_result as_dim l ;; Ok (Some shp)
  | _ => z <- as_dim v ;; Ok (Some [z])
  end.

(** [flat.reshape(shp)] for a one-dimensional [flat]: [reshape(None)]
    leaves the array as it is. *)
Definition reshape_to (dt : dtype) (flat : list Z) (shp : option (list Z))
  : result ndarray :=
  match shp with
  | Some shp => reshape dt flat shp
  | None => Ok (NDArray [Z.of_nat (length flat)] dt flat)
  end.

(** A value used as the bound of a slice: [None] leaves the slice open. *)
Definition as_index (v : json) : result (option Z) :=
  match v with
  | JNull => Ok None
  | _ => z <- as_int v ;; Ok (Some z)
  end.

Definition as_str (v : json) : result string :=
  match v with
  | JStr s => Ok s
  | _ => Raise TypeError
  end.

Definition json_of_shape (shp : list Z) : json := JList (JInt <$> shp).

Arguments as_shape : simpl never.
Arguments json_of_shape : simpl never.

(** [json.dumps] and [json.loads] of Python's standard library, for these
    values. Strings are written between quotes as they are, which is what
    [json.dumps] does for the printable ASCII strings without a quote or a
    backslash that the package holds (its keys, its version and the names
    of element types); [json.loads] reads the short escapes but not
    [\u]. Numbers with a fraction or an exponent are outside the model. *)
Module Json.
Import Stdlib.Strings.Ascii.

Definition quote : Ascii.ascii := Ascii.ascii_of_nat 34.
Definition backslash : Ascii.ascii := Ascii.ascii_of_nat 92.

Definition chars (s : string) : list Ascii.ascii := String.list_ascii_of_string s.

Definition print_string (s : string) : list Ascii.ascii := quote :: chars s ++ [quote].

Definition print_int (z : Z) : list Ascii.ascii :=
  chars (DecimalString.NilZero.string_of_int (Z.to_int z)).

(** [json.dumps(v)], with its default separators [", "] and [": "]. *)
Fixpoint print (v : json) : list Ascii.ascii :=
  match v with
  | JNull => chars "null"
  | JBool b => if b then chars "true" else chars "false"
  | JInt z => print_int z
  | JStr s => print_string s
  | JList l =>
      "[" ::
      (fix items (l : list json) : list Ascii.ascii :=
         match l with
         | [] => []
         | x :: rest =>
             print x ++ match rest with [] => [] | _ => chars ", " ++ items rest end
         end) l ++ ["]"]
  | JDict kvs =>
      "{" ::
      (fix members (kvs : list (string * json)) : list Ascii.ascii :=
         match kvs with
         | [] => []
         | (k, x) :: rest =>
             print_string k ++ chars ": " ++ print x ++
             match rest with [] => [] | _ => chars ", " ++ members rest end
         end) kvs ++ ["}"]
  end%char.

Definition dumps (v : json) : string := String.string_of_list_ascii (print v).

Definition is_ws (c : Ascii.ascii) : bool :=
  (Ascii.eqb c " " || Ascii.eqb c (Ascii.ascii_of_nat 9) ||
   Ascii.eqb c (Ascii.ascii_of_nat 10) || Ascii.eqb c (Ascii.ascii_of_nat 13))%bool.

Fixpoint skip_ws (s : list Ascii.ascii) : list Ascii.ascii :=
  match s with
  | c :: rest => if is_ws c then skip_ws rest else s
  | [] => []
  end.

Definition is_digit (c : Ascii.ascii) : bool :=
  let n := Ascii.nat_of_ascii c in ((48 <=? n) && (n <=? 57))%nat.

Fixpoint span_digits (s : list Ascii.ascii) : list Ascii.ascii * list Ascii.ascii :=
  match s with
  | c :: rest =>
      if is_digit c then let p := span_digits rest in (c :: fst p, snd p) else ([], s)
  | [] => ([], [])
  end.

(** An integer: an optional minus sign and then [0] or digits that do not
    start with [0]; not followed by a fraction or an exponent. *)
Definition parse_int (s : list Ascii.ascii) : option (Z * list Ascii.ascii) :=
  let neg := match s with c :: _ => Ascii.eqb c "-" | [] => false end in
  let p := span_digits (if neg then tail s else s) in
  let token := String.string_of_list_ascii ((if neg then ["-"%char] else []) ++ fst p) in
  match snd p with
  | c :: _ =>
      if (Ascii.eqb c "." || Ascii.eqb c "e" || Ascii.eqb c "E")%bool then None
      else
        match DecimalString.NilZero.int_of_string token with
        | Some d =>
            if String.eqb (DecimalString.NilZero.string_of_int (Z.to_int (Z.of_int d))) token
               || String.eqb token "-0"
            then Some (Z.of_int d, snd p) else None
        | None => None
        end
  | [] =>
      match DecimalString.NilZero.int_of_string token with
      | Some d =>
          if String.eqb (DecimalString.NilZero.string_of_int (Z.to_int (Z.of_int d))) token
             || String.eqb token "-0"
          then Some (Z.of_int d, snd p) else None
      | None => None
      end
  end.

Definition unescape (c : Ascii.ascii) : option Ascii.ascii :=
  if Ascii.eqb c quote then Some quote
  else if Ascii.eqb c backslash then Some backslash
  else if Ascii.eqb c "/" then Some "/"%char
  else if Ascii.eqb c "b" then Some (Ascii.ascii_of_nat 8)
  else if Ascii.eqb c "f" then Some (Ascii.ascii_of_nat 12)
  else if Ascii.eqb c "n" then Some (Ascii.ascii_of_nat 10)
  else if Ascii.eqb c "r" then Some (Ascii.ascii_of_nat 13)
  else if Ascii.eqb c "t" then Some (Ascii.ascii_of_nat 9)
  else None.

(** The characters of a string up to its closing quote. *)
Fixpoint parse_string_body (s : list Ascii.ascii) : option (list Ascii.ascii * list Ascii.ascii) :=
  match s with
  | [] => None
  | c :: rest =>
      if Ascii.eqb c quote then Some ([], rest)
      else if Ascii.eqb c backslash then
        match rest with
        | e :: rest' =>
            match unescape e, parse_string_body rest' with
            | Some c', Some (body, r) => Some (c' :: body, r)
            | _, _ => None
            end
        | [] => None
        end
      else if (Ascii.nat_of_ascii c <? 32)%nat then None
      else
        match parse_string_body rest with
        | Some (body, r) => Some (c :: body, r)
        | None => None
        end
  end.

Definition parse_literal (word : string) (v : json) (s : list Ascii.ascii)
  : option (json * list Ascii.ascii) :=
  let w := chars word in
  if decide (take (length w) s = w) then Some (v, drop (length w) s) else None.

(** A value, the rest of a list after its opening bracket or a comma, and
    the rest of a dictionary likewise; [fuel] bounds the nesting and the
    number of items. *)
Fixpoint parse_value (fuel : nat) (s : list Ascii.ascii) : option (json * list Ascii.ascii) :=
  match fuel with
  | O => None
  | S fuel =>
      match skip_ws s with
      | [] => None
      | c :: rest =>
          if Ascii.eqb c quote then
            match parse_string_body rest with
            | Some (body, r) => Some (JStr (String.string_of_list_ascii body), r)
            | None => None
            end
          else if Ascii.eqb c "[" then
            match skip_ws rest with
            | "]"%char :: r => Some (JList [], r)
            | _ =>
                match parse_items fuel rest with
                | Some (l, r) => Some (JList l, r)
                | None => None
                end
            end
          else if Ascii.eqb c "{" then
            match skip_ws rest with
            | "}"%char :: r => Some (JDict [], r)
            | _ =>
                match parse_members fuel rest with
                | Some (kvs, r) => Some (JDict kvs, r)
                | None => None
                end
            end
          else if Ascii.eqb c "n" then parse_literal "null" JNull (c :: rest)
          else if Ascii.eqb c "t" then parse_literal "true" (JBool true) (c :: rest)
          else if Ascii.eqb c "f" then parse_literal "false" (JBool false) (c :: rest)
          else
            match parse_int (c :: rest) with
            | Some (z, r) => Some (JInt z, r)
            | None => None
            end
      end
  end
with parse_items (fuel : nat) (s : list Ascii.ascii) : option (list json * list Ascii.ascii) :=
  match fuel with
  | O => None
  | S fuel =>
      match parse_value fuel s with
      | Some (x, r) =>
          match skip_ws r with
          | ","%char :: r' =>
              match parse_items fuel r' with
              | Some (l, r'') => Some (x :: l, r'')
              | None => None
              end
          | "]"%char :: r' => Some ([x], r')
          | _ => None
          end
      | None => None
      end
  end
with parse_members (fuel : nat) (s : list Ascii.ascii)
  : option (list (string * json) * list Ascii.ascii) :=
  match fuel with
  | O => None
  | S fuel =>
      match skip_ws s with
      | c :: rest =>
          if Ascii.eqb c quote then
            match parse_string_body rest with
            | Some (k, r) =>
                match skip_ws r with
                | ":"%char :: r' =>
                    match parse_value fuel r' with
                    | Some (x, r'') =>
                        match skip_ws r'' with
                        | ","%char :: r3 =>
                            match parse_members fuel r3 with
                            | Some (kvs, r4) =>
                                Some ((String.string_of_list_ascii k, x) :: kvs, r4)
                            | None => None
                            end
                        | "}"%char :: r3 => Some ([(String.string_of_list_ascii k, x)], r3)
                        | _ => None
                        end
                    | None => None
                    end
                | _ => None
                end
            | None => None
            end
          else None
      | [] => None
      end
  end.

(** [json.loads(s)]: one value, and nothing but white space after it. *)
Definition loads (s : string) : option json :=
  let l := chars s in
  match parse_value (S (length l)) l with
  | Some (v, rest) => match skip_ws rest with [] => Some v | _ => None end
  | None => None
  end.

End Json.

(** *** Plain documents

    Values whose strings are printable ASCII without a quote or a
    backslash: what the package metadata is made of. *)

Definition plain_char (c : Ascii.ascii) : bool :=
  let n := Ascii.nat_of_ascii c in
  ((32 <=? n) && (n <? 127) && negb (n =? 34) && negb (n =? 92))%nat.

Definition plain_string (s : string) : bool :=
  forallb plain_char (String.list_ascii_of_string s).

Fixpoint json_plain (v : json) : bool :=
  match v with
  | JStr s => plain_string s
  | JList l => forallb json_plain l
  | JDict kvs => forallb (fun kv => let '(k, x) := kv in plain_string k && json_plain x) kvs
  | _ => true
  end.

(** *** Reading back what was printed

    [json.loads] reads a plain document back from what [json.dumps] wrote
    for it, and what was written is ASCII. *)

Module JsonFacts.
Import Json.
Import Stdlib.Strings.Ascii.


Definition is_digit_char (c : Ascii.ascii) : Prop := is_digit c = true.

Lemma string_of_uint_digits d :
  Forall is_digit_char (chars (DecimalString.NilEmpty.string_of_uint d)).
Proof.
  induction d; simpl; constructor; (done || exact IHd).
Qed.

Lemma print_uint_digits d :
  Forall is_digit_char (chars (DecimalString.NilZero.string_of_uint d)) /\
  chars (DecimalString.NilZero.string_of_uint d) <> [].
Proof.
  destruct d; (split; [try apply (string_of_uint_digits (_ _)); by repeat constructor|done]).
Qed.

Lemma span_digits_app ds rest :
  Forall is_digit_char ds ->
  match rest with [] => True | c :: _ => is_digit c = false end ->
  span_digits (ds ++ rest) = (ds, rest).
Proof.
  intros Hds Hrest. induction Hds as [|c ds Hc _ IH]; simpl.
  - destruct rest as [|c rest]; [done|]. simpl. by rewrite Hrest.
  - unfold is_digit_char in Hc. by rewrite Hc, IH.
Qed.

(** What may follow a printed value: nothing, or a comma or a closing
    bracket or brace. *)
Definition delimited (rest : list Ascii.ascii) : Prop :=
  match rest with
  | [] => True
  | c :: _ => c = ","%char \/ c = "]"%char \/ c = "}"%char
  end.

Lemma to_int_canonical z :
  Z.to_int z <> Decimal.Pos Decimal.Nil /\ Z.to_int z <> Decimal.Neg Decimal.Nil.
Proof.
  destruct z; simpl; split; try done; intros [= Heq];
    by apply DecimalPos.Unsigned.to_uint_nonnil in Heq.
Qed.

Lemma chars_string_of_list l : chars (String.string_of_list_ascii l) = l.
Proof. apply String.list_ascii_of_string_of_list_ascii. Qed.

Lemma string_of_chars s : String.string_of_list_ascii (chars s) = s.
Proof. apply String.string_of_list_ascii_of_string. Qed.

Definition not_number_like (rest : list Ascii.ascii) : Prop :=
  match rest with
  | [] => True
  | c :: _ => is_digit c = false /\ c <> "."%char /\ c <> "e"%char /\ c <> "E"%char
  end.

Lemma parse_int_token (minus : bool) ds rest d :
  let sign := if minus then ["-"%char] else [] in
  Forall is_digit_char ds -> ds <> [] -> not_number_like rest ->
  DecimalString.NilZero.int_of_string (String.string_of_list_ascii (sign ++ ds)) = Some d ->
  DecimalString.NilZero.string_of_int (Z.to_int (Z.of_int d)) =
    String.string_of_list_ascii (sign ++ ds) ->
  parse_int (sign ++ ds ++ rest) = Some (Z.of_int d, rest).
Proof.
  intros sign Hds Hne Hrest Hread Hcanon. unfold parse_int.
  assert (Hspan : span_digits (ds ++ rest) = (ds, rest)).
  { apply span_digits_app; [done|]. destruct rest; [done|apply Hrest]. }
  assert (Hneg : match sign ++ ds ++ rest with c :: _ => Ascii.eqb c "-" | [] => false end
                 = minus).
  { subst sign. destruct minus; [done|]. destruct ds as [|c ds]; [done|].
    apply Forall_cons in Hds as [Hc _]. simpl.
    destruct (Ascii.eqb_spec c "-") as [->|]; done. }
  cbv zeta. rewrite Hneg.
  assert (Htail : (if minus then tail (sign ++ ds ++ rest) else sign ++ ds ++ rest)
                  = ds ++ rest) by (subst sign; by destruct minus).
  rewrite Htail, Hspan. cbn [fst snd]. fold sign.
  rewrite Hread, Hcanon, String.eqb_refl. simpl orb. cbv iota.
  destruct rest as [|c rest]; [done|].
  destruct Hrest as (_ & H1 & H2 & H3).
  destruct (Ascii.eqb_spec c ".") as [->|]; [done|].
  destruct (Ascii.eqb_spec c "e") as [->|]; [done|].
  destruct (Ascii.eqb_spec c "E") as [->|]; done.
Qed.

Lemma delimited_not_number_like rest : delimited rest -> not_number_like rest.
Proof. destruct rest as [|c rest]; [done|]. by intros [->|[->| ->]]. Qed.

Lemma parse_int_print z rest :
  delimited rest -> parse_int (print_int z ++ rest) = Some (z, rest).
Proof.
  intros Hrest%delimited_not_number_like. unfold print_int.
  destruct (to_int_canonical z) as [Hpos Hneg].
  pose proof (DecimalString.NilZero.isi _ Hpos Hneg) as Hisi.
  pose proof (DecimalZ.of_to z) as Hof.
  destruct (Z.to_int z) as [d|d] eqn:Hd.
  - destruct (print_uint_digits d) as [Hdig Hne].
    pose proof (parse_int_token false _ rest (Decimal.Pos d) Hdig Hne Hrest) as Hp.
    cbv zeta in Hp. cbn [app] in Hp. rewrite string_of_chars in Hp.
    rewrite <- Hof. apply Hp; [exact Hisi|]. by rewrite Hof, Hd.
  - destruct (print_uint_digits d) as [Hdig Hne].
    pose proof (parse_int_token true _ rest (Decimal.Neg d) Hdig Hne Hrest) as Hp.
    cbv zeta iota in Hp.
    change (["-"%char] ++ chars (DecimalString.NilZero.string_of_uint d))
      with (chars (DecimalString.NilZero.string_of_int (Decimal.Neg d))) in Hp.
    rewrite string_of_chars in Hp.
    rewrite <- Hof.
    change (chars (DecimalString.NilZero.string_of_int (Decimal.Neg d)) ++ rest)
      with (["-"%char] ++ chars (DecimalString.NilZero.string_of_uint d) ++ rest).
    apply Hp; [exact Hisi|]. by rewrite Hof, Hd.
Qed.
Fixpoint print_items (l : list json) : list Ascii.ascii :=
  match l with
  | [] => []
  | x :: rest => print x ++ match rest with [] => [] | _ => chars ", " ++ print_items rest end
  end.

Fixpoint print_members (kvs : list (string * json)) : list Ascii.ascii :=
  match kvs with
  | [] => []
  | (k, x) :: rest =>
      print_string k ++ chars ": " ++ print x ++
      match rest with [] => [] | _ => chars ", " ++ print_members rest end
  end.

Lemma print_JList l : print (JList l) = "["%char :: print_items l ++ ["]"%char].
Proof. reflexivity. Qed.

Lemma print_JDict kvs : print (JDict kvs) = "{"%char :: print_members kvs ++ ["}"%char].
Proof. reflexivity. Qed.

Definition plain_member (kv : string * json) : bool :=
  let '(k, x) := kv in plain_string k && json_plain x.

(** The fuel that reading a printed value takes. *)
Fixpoint json_size (v : json) : nat :=
  match v with
  | JList l =>
      S ((fix go l := match l with [] => 0 | x :: l => S (json_size x + go l) end) l)
  | JDict kvs =>
      S ((fix go (kvs : list (string * json)) :=
            match kvs with [] => 0 | (_, x) :: kvs => S (json_size x + go kvs) end) kvs)
  | _ => 1
  end.

Fixpoint items_size (l : list json) : nat :=
  match l with
  | [] => 0
  | x :: l => S (json_size x + items_size l)
  end.

Fixpoint members_size (kvs : list (string * json)) : nat :=
  match kvs with
  | [] => 0
  | (_, x) :: kvs => S (json_size x + members_size kvs)
  end.

Lemma json_size_JList l : json_size (JList l) = S (items_size l).
Proof. reflexivity. Qed.

Lemma json_size_JDict kvs : json_size (JDict kvs) = S (members_size kvs).
Proof. reflexivity. Qed.

Lemma json_size_pos v : 1 <= json_size v.
Proof. destruct v; simpl; lia. Qed.

Lemma skip_ws_head c r : is_ws c = false -> skip_ws (c :: r) = c :: r.
Proof. intros Hc. simpl. by rewrite Hc. Qed.

Lemma parse_value_space fuel s : parse_value fuel (" "%char :: s) = parse_value fuel s.
Proof. by destruct fuel. Qed.

Lemma parse_items_space fuel s : parse_items fuel (" "%char :: s) = parse_items fuel s.
Proof. destruct fuel; [done|]. simpl. by rewrite parse_value_space. Qed.

Lemma parse_members_space fuel s : parse_members fuel (" "%char :: s) = parse_members fuel s.
Proof. by destruct fuel. Qed.

Lemma plain_char_spec c :
  plain_char c = true ->
  Ascii.eqb c quote = false /\ Ascii.eqb c backslash = false /\
  (Ascii.nat_of_ascii c <? 32)%nat = false /\ (Ascii.nat_of_ascii c < 127)%nat.
Proof.
  intros Hc. repeat split.
  - destruct (Ascii.eqb_spec c quote) as [->|]; done.
  - destruct (Ascii.eqb_spec c backslash) as [->|]; done.
  - unfold plain_char in Hc. cbv zeta in Hc.
    apply andb_prop in Hc as [[[Hc _]%andb_prop _]%andb_prop _].
    apply Nat.leb_le in Hc. apply Nat.ltb_ge. lia.
  - unfold plain_char in Hc. cbv zeta in Hc.
    apply andb_prop in Hc as [[[_ Hc]%andb_prop _]%andb_prop _].
    by apply Nat.ltb_lt in Hc.
Qed.

Lemma parse_string_body_plain s rest :
  plain_string s = true ->
  parse_string_body (chars s ++ quote :: rest) = Some (chars s, rest).
Proof.
  unfold plain_string, chars. induction (String.list_ascii_of_string s) as [|c l IH].
  - intros _. reflexivity.
  - simpl forallb. intros [Hc Hl]%andb_prop.
    destruct (plain_char_spec c Hc) as (Hq & Hb & Hctl & _).
    simpl. by rewrite Hq, Hb, Hctl, (IH Hl).
Qed.

Lemma parse_literal_word word v rest :
  parse_literal word v (chars word ++ rest) = Some (v, rest).
Proof.
  unfold parse_literal. cbv zeta.
  rewrite take_app_length, drop_app_length. by rewrite decide_True.
Qed.

Lemma print_int_head z :
  exists c cs, print_int z = c :: cs /\ (c = "-"%char \/ is_digit c = true).
Proof.
  unfold print_int. destruct (Z.to_int z) as [d|d].
  - destruct (print_uint_digits d) as [Hdig Hne]. simpl.
    destruct (chars (DecimalString.NilZero.string_of_uint d)) as [|c cs]; [done|].
    apply Forall_cons in Hdig as [Hc _]. eauto.
  - simpl. eauto.
Qed.

(** A printed value starts with a character that is neither white space
    nor a closing bracket or brace. *)
Lemma print_head v :
  exists c cs, print v = c :: cs /\ is_ws c = false /\ c <> "]"%char /\ c <> "}"%char.
Proof.
  destruct v as [|[]|z|s|l|kvs]; try (eexists _, _; by repeat split).
  destruct (print_int_head z) as (c & cs & Heq & Hc). exists c, cs.
  split; [exact Heq|]. destruct Hc as [->|Hc]; [done|].
  repeat split; [|by intros ->..].
  unfold is_ws. repeat (match goal with
    |- context [Ascii.eqb c ?x] => destruct (Ascii.eqb_spec c x) as [->|]; [done|] end).
  done.
Qed.

Lemma print_items_head x l :
  exists c cs, print_items (x :: l) = c :: cs /\
    is_ws c = false /\ c <> "]"%char /\ c <> "}"%char.
Proof.
  destruct (print_head x) as (c & cs & Heq & Hc). cbn [print_items]. rewrite Heq.
  eexists _, _. by split.
Qed.

Lemma not_close_bracket {A} (c : Ascii.ascii) r (a : list Ascii.ascii -> A) (b : A) :
  c <> "]"%char ->
  match c :: r with "]"%char :: r' => a r' | _ => b end = b.
Proof. destruct c as [[] [] [] [] [] [] [] []]; try reflexivity. by intros []. Qed.

Lemma not_close_brace {A} (c : Ascii.ascii) r (a : list Ascii.ascii -> A) (b : A) :
  c <> "}"%char ->
  match c :: r with "}"%char :: r' => a r' | _ => b end = b.
Proof. destruct c as [[] [] [] [] [] [] [] []]; try reflexivity. by intros []. Qed.

Lemma parse_value_S fuel s :
  parse_value (S fuel) s =
  match skip_ws s with
  | [] => None
  | c :: rest =>
      if Ascii.eqb c quote then
        match parse_string_body rest with
        | Some (body, r) => Some (JStr (String.string_of_list_ascii body), r)
        | None => None
        end
      else if Ascii.eqb c "[" then
        match skip_ws rest with
        | "]"%char :: r => Some (JList [], r)
        | _ =>
            match parse_items fuel rest with
            | Some (l, r) => Some (JList l, r)
            | None => None
            end
        end
      else if Ascii.eqb c "{" then
        match skip_ws rest with
        | "}"%char :: r => Some (JDict [], r)
        | _ =>
            match parse_members fuel rest with
            | Some (kvs, r) => Some (JDict kvs, r)
            | None => None
            end
        end
      else if Ascii.eqb c "n" then parse_literal "null" JNull (c :: rest)
      else if Ascii.eqb c "t" then parse_literal "true" (JBool true) (c :: rest)
      else if Ascii.eqb c "f" then parse_literal "false" (JBool false) (c :: rest)
      else
        match parse_int (c :: rest) with
        | Some (z, r) => Some (JInt z, r)
        | None => None
        end
  end.
Proof. reflexivity. Qed.

Lemma parse_items_S fuel s :
  parse_items (S fuel) s =
  match parse_value fuel s with
  | Some (x, r) =>
      match skip_ws r with
      | ","%char :: r' =>
          match parse_items fuel r' with
          | Some (l, r'') => Some (x :: l, r'')
          | None => None
          end
      | "]"%char :: r' => Some ([x], r')
      | _ => None
      end
  | None => None
  end.
Proof. reflexivity. Qed.

Lemma parse_members_S fuel s :
  parse_members (S fuel) s =
  match skip_ws s with
  | c :: rest =>
      if Ascii.eqb c quote then
        match parse_string_body rest with
        | Some (k, r) =>
            match skip_ws r with
            | ":"%char :: r' =>
                match parse_value fuel r' with
                | Some (x, r'') =>
                    match skip_ws r'' with
                    | ","%char :: r3 =>
                        match parse_members fuel r3 with
                        | Some (kvs, r4) =>
                            Some ((String.string_of_list_ascii k, x) :: kvs, r4)
                        | None => None
                        end
                    | "}"%char :: r3 => Some ([(String.string_of_list_ascii k, x)], r3)
                    | _ => None
                    end
                | None => None
                end
            | _ => None
            end
        | None => None
        end
      else None
  | [] => None
  end.
Proof. reflexivity. Qed.

Definition reads_values (fuel : nat) : Prop :=
  forall v rest, json_plain v = true -> json_size v <= fuel -> delimited rest ->
    parse_value fuel (print v ++ rest) = Some (v, rest).

Lemma parse_items_print fuel l rest :
  reads_values fuel ->
  (l <> [] -> forallb json_plain l = true -> items_size l <= fuel ->
   parse_items fuel (print_items l ++ "]"%char :: rest) = Some (l, rest)) ->
  forall x, json_plain x = true -> forallb json_plain l = true ->
  items_size (x :: l) <= S fuel ->
  parse_items (S fuel) (print_items (x :: l) ++ "]"%char :: rest) = Some (x :: l, rest).
Proof.
  intros Hval IH x Hx Hl Hsize. cbn [items_size] in Hsize.
  rewrite parse_items_S. cbn [print_items]. rewrite <- app_assoc.
  destruct l as [|y l].
  - rewrite Hval; [|done|lia|simpl; tauto]. reflexivity.
  - rewrite <- app_assoc. rewrite Hval; [|done|lia|simpl; tauto].
    cbn [chars String.list_ascii_of_string app].
    rewrite skip_ws_head by done. rewrite parse_items_space.
    rewrite IH; [done|done|done|lia].
Qed.

Lemma parse_members_print fuel kvs rest :
  reads_values fuel ->
  (kvs <> [] -> forallb plain_member kvs = true -> members_size kvs <= fuel ->
   parse_members fuel (print_members kvs ++ "}"%char :: rest) = Some (kvs, rest)) ->
  forall k x, plain_string k = true -> json_plain x = true ->
  forallb plain_member kvs = true ->
  members_size ((k, x) :: kvs) <= S fuel ->
  parse_members (S fuel) (print_members ((k, x) :: kvs) ++ "}"%char :: rest)
  = Some ((k, x) :: kvs, rest).
Proof.
  intros Hval IH k x Hk Hx Hkvs Hsize. cbn [members_size] in Hsize.
  rewrite parse_members_S. cbn [print_members]. unfold print_string at 1.
  cbn [app]. rewrite skip_ws_head by done. rewrite Ascii.eqb_refl.
  rewrite <- !app_assoc. cbn [app]. rewrite parse_string_body_plain by done.
  cbn [chars String.list_ascii_of_string app].
  rewrite skip_ws_head by done. rewrite parse_value_space.
  destruct kvs as [|[k' y] kvs].
  - rewrite Hval; [|done|lia|simpl; tauto]. cbn [app].
    rewrite skip_ws_head by done. by rewrite string_of_chars.
  - cbn [app]. rewrite Hval; [|done|lia|simpl; tauto].
    rewrite skip_ws_head by done. rewrite parse_members_space.
    rewrite IH; [by rewrite string_of_chars|done|done|lia].
Qed.

Lemma parse_print fuel :
  reads_values fuel /\
  (forall l rest, l <> [] -> forallb json_plain l = true -> items_size l <= fuel ->
     parse_items fuel (print_items l ++ "]"%char :: rest) = Some (l, rest)) /\
  (forall kvs rest, kvs <> [] -> forallb plain_member kvs = true ->
     members_size kvs <= fuel ->
     parse_members fuel (print_members kvs ++ "}"%char :: rest) = Some (kvs, rest)).
Proof.
  induction fuel as [|fuel (IHv & IHi & IHm)].
  { split; [|split].
    - intros v ??. pose proof (json_size_pos v). lia.
    - intros [|x l]; [done|]. simpl. lia.
    - intros [|[k x] l]; [done|]. simpl. lia. }
  split; [|split].
  - intros v rest Hplain Hsize Hrest. rewrite parse_value_S.
    destruct v as [|b|z|s|l|kvs].
    + change (print JNull ++ rest) with ("n"%char :: (chars "ull" ++ rest)).
      rewrite skip_ws_head by done.
      change ("n"%char :: (chars "ull" ++ rest)) with (chars "null" ++ rest).
      by rewrite parse_literal_word.
    + destruct b.
      * change (print (JBool true) ++ rest) with ("t"%char :: (chars "rue" ++ rest)).
        rewrite skip_ws_head by done.
        change ("t"%char :: (chars "rue" ++ rest)) with (chars "true" ++ rest).
        by rewrite parse_literal_word.
      * change (print (JBool false) ++ rest) with ("f"%char :: (chars "alse" ++ rest)).
        rewrite skip_ws_head by done.
        change ("f"%char :: (chars "alse" ++ rest)) with (chars "false" ++ rest).
        by rewrite parse_literal_word.
    + cbn [print]. pose proof (parse_int_print z rest Hrest) as Hint.
      destruct (print_int_head z) as (c & cs & Heq & Hc). rewrite Heq in *.
      cbn [app] in *.
      assert (Hws : is_ws c = false /\ Ascii.eqb c quote = false /\
                    Ascii.eqb c "[" = false /\ Ascii.eqb c "{" = false /\
                    Ascii.eqb c "n" = false /\ Ascii.eqb c "t" = false /\
                    Ascii.eqb c "f" = false).
      { destruct Hc as [->|Hc]; [done|]. unfold is_ws.
        repeat (match goal with
          |- context [Ascii.eqb c ?x] => destruct (Ascii.eqb_spec c x) as [->|]; [done|] end).
        done. }
      destruct Hws as (Hws & H1 & H2 & H3 & H4 & H5 & H6).
      rewrite skip_ws_head by done. by rewrite H1, H2, H3, H4, H5, H6, Hint.
    + cbn [print]. unfold print_string. cbn [app].
      rewrite skip_ws_head by done. rewrite Ascii.eqb_refl.
      rewrite <- app_assoc. cbn [app].
      rewrite parse_string_body_plain by done. by rewrite string_of_chars.
    + rewrite print_JList. cbn [app]. rewrite skip_ws_head by done.
      rewrite <- app_assoc. cbn [app].
      change (Ascii.eqb "[" quote) with false. rewrite Ascii.eqb_refl. cbv iota.
      destruct l as [|x l]; [done|].
      destruct (print_items_head x l) as (c & cs & Heq & Hws & Hc & _).
      rewrite Heq at 1. cbn [app]. rewrite skip_ws_head by done.
      etrans; [exact (not_close_bracket c _ (fun r => Some (JList [], r)) _ Hc)|].
      rewrite json_size_JList in Hsize.
      rewrite IHi; [done|done|done|lia].
    + rewrite print_JDict. cbn [app]. rewrite skip_ws_head by done.
      rewrite <- app_assoc. cbn [app].
      change (Ascii.eqb "{" quote) with false. change (Ascii.eqb "{" "[") with false.
      rewrite Ascii.eqb_refl. cbv iota.
      destruct kvs as [|[k x] kvs]; [done|].
      assert (exists cs, print_members ((k, x) :: kvs) = quote :: cs) as [cs Heq]
        by (eexists; reflexivity).
      rewrite Heq at 1. cbn [app]. rewrite skip_ws_head by done.
      etrans; [exact (not_close_brace quote (cs ++ "}"%char :: rest) (fun r => Some (JDict [], r)) _
                        ltac:(done))|].
      rewrite json_size_JDict in Hsize.
      rewrite IHm; [done|done|exact Hplain|lia].
  - intros [|x l] rest Hne Hplain Hsize; [done|].
    simpl forallb in Hplain. apply andb_prop in Hplain as [Hx Hl].
    apply parse_items_print; [exact IHv|apply IHi|done..].
  - intros [|[k x] kvs] rest Hne Hplain Hsize; [done|].
    simpl forallb in Hplain. apply andb_prop in Hplain as [[Hk Hx]%andb_prop Hkvs].
    apply parse_members_print; [exact IHv|apply IHm|done..].
Qed.

Lemma json_nested_ind (P : json -> Prop) :
  P JNull -> (forall b, P (JBool b)) -> (forall z, P (JInt z)) -> (forall s, P (JStr s)) ->
  (forall l, Forall P l -> P (JList l)) ->
  (forall kvs, Forall (fun kv => P kv.2) kvs -> P (JDict kvs)) ->
  forall v, P v.
Proof.
  intros Hnull Hbool Hint Hstr Hlist Hdict. fix IH 1. intros [|b|z|s|l|kvs].
  - exact Hnull.
  - apply Hbool.
  - apply Hint.
  - apply Hstr.
  - apply Hlist. revert l. fix IHl 1. intros [|x l]; constructor; [apply IH|apply IHl].
  - apply Hdict. revert kvs. fix IHl 1.
    intros [|[k x] kvs]; constructor; [apply IH|apply IHl].
Qed.

Lemma length_print_int z : 1 <= length (print_int z).
Proof. destruct (print_int_head z) as (c & cs & -> & _). simpl. lia. Qed.

Lemma json_size_length v : json_size v <= length (print v).
Proof.
  induction v as [|[]|z|s|l IH|kvs IH] using json_nested_ind; try (simpl; lia).
  - apply length_print_int.
  - rewrite json_size_JList, print_JList, length_cons, length_app. simpl length.
    enough (items_size l <= S (length (print_items l))) by lia.
    induction IH as [|x l Hx _ IH]; [simpl; lia|].
    cbn [items_size print_items]. rewrite length_app.
    destruct l as [|y l]; [simpl; lia|]. rewrite length_app. simpl length at 2. lia.
  - rewrite json_size_JDict, print_JDict, length_cons, length_app. simpl length.
    enough (members_size kvs <= S (length (print_members kvs))) by lia.
    induction IH as [|[k x] kvs Hx _ IH]; [simpl; lia|].
    cbn [members_size print_members]. unfold print_string.
    rewrite length_app, length_cons, !length_app. simpl in Hx.
    destruct kvs as [|y kvs]; [simpl; lia|]. rewrite length_app. simpl length at 3 4 5. lia.
Qed.

Lemma parse_value_print v rest :
  json_plain v = true -> delimited rest ->
  parse_value (S (length (print v ++ rest))) (print v ++ rest) = Some (v, rest).
Proof.
  intros Hv Hrest. apply parse_print; [done| |done].
  pose proof (json_size_length v). rewrite length_app. lia.
Qed.

Definition ascii_char (c : Ascii.ascii) : Prop := (Ascii.nat_of_ascii c < 128)%nat.

Lemma digit_ascii c : is_digit c = true -> ascii_char c.
Proof.
  unfold is_digit, ascii_char. cbv zeta. intros [_ H]%andb_prop.
  apply Nat.leb_le in H. lia.
Qed.

Lemma print_int_ascii z : Forall ascii_char (print_int z).
Proof.
  unfold print_int. destruct (Z.to_int z) as [d|d]; simpl.
  - eapply Forall_impl; [apply print_uint_digits|apply digit_ascii].
  - constructor; [by apply Nat.ltb_lt|].
    eapply Forall_impl; [apply print_uint_digits|apply digit_ascii].
Qed.

Lemma plain_string_ascii s : plain_string s = true -> Forall ascii_char (chars s).
Proof.
  unfold plain_string, chars.
  induction (String.list_ascii_of_string s) as [|c l IH]; [constructor|].
  simpl forallb. intros [Hc Hl]%andb_prop. constructor; [|by apply IH].
  apply plain_char_spec in Hc as (_ & _ & _ & Hc). unfold ascii_char. lia.
Qed.

Lemma print_string_ascii s : plain_string s = true -> Forall ascii_char (print_string s).
Proof.
  intros Hs. unfold print_string. constructor; [by apply Nat.ltb_lt|].
  apply Forall_app. split; [by apply plain_string_ascii|].
  constructor; [by apply Nat.ltb_lt|constructor].
Qed.

Lemma print_ascii v : json_plain v = true -> Forall ascii_char (print v).
Proof.
  assert (Hsep : forall w : string, plain_string w = true -> Forall ascii_char (chars w))
    by apply plain_string_ascii.
  induction v as [|[]|z|s|l IH|kvs IH] using json_nested_ind; intros Hv.
  - by apply (Hsep "null").
  - by apply (Hsep "true").
  - by apply (Hsep "false").
  - apply print_int_ascii.
  - by apply print_string_ascii.
  - rewrite print_JList. constructor; [by apply Nat.ltb_lt|].
    apply Forall_app. split; [|by apply (Hsep "]")].
    change (forallb json_plain l = true) in Hv.
    induction IH as [|x l Hx _ IH]; [constructor|].
    simpl forallb in Hv. apply andb_prop in Hv as [Hpx Hpl].
    cbn [print_items]. apply Forall_app. split; [by apply Hx|].
    destruct l as [|y l]; [constructor|].
    apply Forall_app. split; [by apply (Hsep ", ")|by apply IH].
  - rewrite print_JDict. constructor; [by apply Nat.ltb_lt|].
    apply Forall_app. split; [|by apply (Hsep "}")].
    change (forallb plain_member kvs = true) in Hv.
    induction IH as [|[k x] kvs Hx _ IH]; [constructor|].
    simpl forallb in Hv. apply andb_prop in Hv as [[Hk Hpx]%andb_prop Hpl].
    cbn [print_members]. apply Forall_app. split; [by apply print_string_ascii|].
    apply Forall_app. split; [by apply (Hsep ": ")|].
    apply Forall_app. split; [by apply Hx|].
    destruct kvs as [|y kvs]; [constructor|].
    apply Forall_app. split; [by apply (Hsep ", ")|by apply IH].
Qed.

End JsonFacts.

Lemma loads_dumps v : json_plain v = true -> Json.loads (Json.dumps v) = Some v.
Proof.
  intros Hv. unfold Json.loads, Json.dumps. cbv zeta.
  rewrite JsonFacts.chars_string_of_list.
  pose proof (JsonFacts.parse_value_print v [] Hv I) as Hp. rewrite app_nil_r in Hp.
  by rewrite Hp.
Qed.

Lemma dumps_ascii v :
  json_plain v = true -> Forall (fun x => (0 <= x < 128)%Z) (encode (Json.dumps v)).
Proof.
  intros Hv. unfold encode, Json.dumps.
  fold (Json.chars (String.string_of_list_ascii (Json.print v))).
  rewrite JsonFacts.chars_string_of_list. apply Forall_fmap.
  eapply Forall_impl; [by apply JsonFacts.print_ascii|].
  intros c Hc. unfold JsonFacts.ascii_char, Ascii.nat_of_ascii in Hc. simpl. lia.
Qed.

Lemma as_shape_json_of_shape shp : as_shape (json_of_shape shp) = Ok (Some shp).
Proof.
  unfold as_shape, json_of_shape. rewrite map_result_fmap.
  rewrite (map_result_all_Ok _ id); [by rewrite list_fmap_id|done].
Qed.

Lemma json_of_shape_plain shp : json_plain (json_of_shape shp) = true.
Proof.
  unfold json_of_shape. simpl. induction shp as [|d shp IH]; [done|].
  rewrite fmap_cons. simpl. exact IH.
Qed.

(** ** pixel_processor.py *)

(** [np.random.RandomState(seed).shuffle(x)], numpy's generator: [Raise]
    where numpy rejects the seed, and otherwise a rearrangement of [x]. *)
Class RandomState : Type := {
  rng_shuffle : Z -> list Z -> result (list Z);
  rng_shuffle_perm seed x y : rng_shuffle seed x = Ok y -> y ≡ₚ x
}.

(** The seeds [np.random.RandomState] takes are the integers from 0 to
    2^32 - 1; on any other it raises [ValueError]. *)
Class SeedRange (R : RandomState) : Prop := {
  rng_seed_accepted seed x :
    (0 <= seed < 2 ^ 32)%Z -> exists y, rng_shuffle seed x = Ok y;
  rng_seed_rejected seed x :
    ~ (0 <= seed < 2 ^ 32)%Z ->
    rng_shuffle seed x = Raise (ValueError "Seed must be between 0 and 2**32 - 1")
}.

(** [Image.fromarray(a)] for an array [a] of bytes of shape [shp]. The mode
    of the image is looked up under the dimensions that follow the first
    two: none is L, [2] is LA, [3] is RGB, [4] is RGBA, and anything else
    raises [TypeError]. The size is (shape[1], shape[0]), two C integers;
    an array of one dimension is an image one pixel wide, and an array of
    no dimension has no shape[1] to read. An image is the array of its
    pixels, so the image made is the array, of shape (height, width) or
    (height, width, channels). *)
Definition fromarray (shp : list Z) (pixels : list Z) : result ndarray :=
  let sized (height width : Z) (shp : list Z) : result ndarray :=
    if ((width <? 2 ^ 31) && (height <? 2 ^ 31))%Z
    then Ok (NDArray shp UInt8 pixels)
    else Raise OverflowError in
  match shp with
  | [] => Raise IndexError
  | [height] => sized height 1%Z [height; 1%Z]
  | [height; width] => sized height width shp
  | [height; width; channels] =>
      if ((channels =? 2) || (channels =? 3) || (channels =? 4))%Z
      then sized height width shp
      else Raise TypeError
  | _ => Raise TypeError
  end.

(** The shapes of the arrays of the images of modes L, LA, RGB and RGBA
    that have a pixel: (height, width) or (height, width, channels) with
    2, 3 or 4 channels, and sides that C integers hold. *)
Definition image_shape (shp : list Z) : Prop :=
  match shp with
  | [height; width] => (0 < height < 2 ^ 31)%Z /\ (0 < width < 2 ^ 31)%Z
  | [height; width; channels] =>
      (0 < height < 2 ^ 31)%Z /\ (0 < width < 2 ^ 31)%Z /\
      (channels = 2 \/ channels = 3 \/ channels = 4)%Z
  | _ => False
  end.

Lemma fromarray_image shp pixels :
  image_shape shp -> fromarray shp pixels = Ok (NDArray shp UInt8 pixels).
Proof.
  unfold fromarray, image_shape.
  destruct shp as [|height [|width [|channels [|? ?]]]]; try done.
  - intros [Hh Hw].
    by rewrite (proj2 (Z.ltb_lt width _)), (proj2 (Z.ltb_lt height _)) by lia.
  - intros (Hh & Hw & Hc).
    rewrite (proj2 (Z.ltb_lt width _)), (proj2 (Z.ltb_lt height _)) by lia.
    by destruct Hc as [->| [->| ->]].
Qed.

(** Whether [fromarray] raises, and the shape of the image, depend on the
    shape alone. *)
Lemma fromarray_shape_only shp pixels pixels' img :
  fromarray shp pixels = Ok img ->
  img = NDArray (shape img) UInt8 pixels /\
  fromarray shp pixels' = Ok (NDArray (shape img) UInt8 pixels').
Proof.
  unfold fromarray.
  destruct shp as [|height [|width [|channels [|? ?]]]]; try done;
    repeat match goal with
    | |- context [if ?b then _ else _] => destruct b
    end; try done; by intros [= <-].
Qed.

Module PixelProcessor.

Record PixelProcessor : Type := Build { chunk_size : Z }.

(** [PixelProcessor(chunk_size)]:
    [self.chunk_size = chunk_size or getattr(settings, 'CHUNK_SIZE', 32)];
    the settings module is a parameter. *)
Definition __init__ (settings_CHUNK_SIZE : option Z) (chunk_size : option Z)
  : PixelProcessor :=
  let default := match settings_CHUNK_SIZE with Some c => c | None => 32%Z end in
  match chunk_size with
  | Some c => Build (if (c =? 0)%Z then default else c)
  | None => Build default
  end.

(** A PIL image is the array of its pixels, rows first and the channels
    of a pixel last, which is what [np.array(image)] gives: an array of
    bytes for the L, RGB and RGBA pages the renderer produces, an array of
    32-bit integers for an image of mode I. *)
Definition image_to_array (image : ndarray) : ndarray := image.

(** [Image.fromarray(array.astype(np.uint8))]. *)
Definition array_to_image (array : ndarray) : result ndarray :=
  fromarray (shape array) (astype_uint8 (data array)).

(** The metadata dictionary [chunk_pixels] builds. *)
Definition chunk_metadata (original_shape : list Z)
    (original_size padding num_chunks chunk_size : Z) : json :=
  JDict [("original_shape", json_of_shape original_shape);
         ("original_size", JInt original_size);
         ("padding", JInt padding);
         ("num_chunks", JInt num_chunks);
         ("chunk_size", JInt chunk_size)].

(** [chunk_pixels(image)]. *)
Definition chunk_pixels (self : PixelProcessor) (image : ndarray)
  : result (ndarray * json) :=
  let img_array := image_to_array image in
  let original_shape := shape img_array in
  let flat_array := flatten img_array in
  let original_size := Z.of_nat (length flat_array) in
  if (chunk_size self =? 0)%Z then Raise ZeroDivisionError else
  let remainder := (Z.of_nat (length flat_array) mod chunk_size self)%Z in
  padded <-
    (if negb (remainder =? 0)%Z then
       let padding := (chunk_size self - remainder)%Z in
       flat_array <- pad_right flat_array padding ;;
       Ok (flat_array, padding)
     else Ok (flat_array, 0%Z)) ;;
  let flat_array := fst padded in
  let padding := snd padded in
  let num_chunks := (Z.of_nat (length flat_array) / chunk_size self)%Z in
  chunks <- reshape (dtype_of img_array) flat_array [num_chunks; chunk_size self] ;;
  let metadata := chunk_metadata original_shape original_size padding num_chunks
                    (chunk_size self) in
  Ok (chunks, metadata).

(** [unchunk_pixels(chunks, metadata)]. *)
Definition unchunk_pixels (chunks : ndarray) (metadata : json) : result ndarray :=
  let flat_array := flatten chunks in
  padding <- dict_get metadata "padding" ;;
  padding <- as_int padding ;;
  flat_array <-
    (if (0 <? padding)%Z then
       original_size <- dict_get metadata "original_size" ;;
       stop <- as_index original_size ;;
       Ok (match stop with
           | Some stop => slice_to flat_array stop
           | None => flat_array
           end)
     else Ok flat_array) ;;
  original_shape <- dict_get metadata "original_shape" ;;
  original_shape <- as_shape original_shape ;;
  img_array <- reshape_to (dtype_of chunks) flat_array original_shape ;;
  array_to_image img_array.

Section Shuffle.
Context `{RandomState}.

(** [generate_shuffle_indices(num_chunks, seed)]. *)
Definition generate_shuffle_indices (num_chunks : Z) (seed : Z) : result (list Z) :=
  rng_shuffle seed (arange num_chunks).

(** [shuffle_chunks(chunks, seed)]. *)
Definition shuffle_chunks (chunks : ndarray) (seed : Z)
  : result (ndarray * list Z) :=
  num_chunks <- len chunks ;;
  shuffle_indices <- generate_shuffle_indices num_chunks seed ;;
  shuffled_chunks <- take_rows chunks shuffle_indices ;;
  Ok (shuffled_chunks, shuffle_indices).

End Shuffle.

(** [unshuffle_chunks(shuffled_chunks, shuffle_indices)]. *)
Definition unshuffle_chunks (shuffled_chunks : ndarray) (shuffle_indices : list Z)
  : result ndarray :=
  let inverse_indices := argsort shuffle_indices in
  take_rows shuffled_chunks inverse_indices.

(** The padding [chunk_pixels] adds to [size] elements, and the number of
    chunks it makes. *)
Definition padding_of (cs size : Z) : Z := ((cs - size mod cs) mod cs)%Z.
Definition num_chunks_of (cs size : Z) : Z := ((size + padding_of cs size) / cs)%Z.

Lemma padding_of_spec cs size :
  (0 < cs)%Z -> (0 <= size)%Z ->
  (0 <= padding_of cs size < cs)%Z /\
  (size + padding_of cs size = cs * num_chunks_of cs size)%Z /\
  (0 <= num_chunks_of cs size <= size)%Z.
Proof.
  intros Hcs Hsize. unfold num_chunks_of, padding_of.
  pose proof (Z.mod_pos_bound size cs Hcs) as Hrem.
  pose proof (Z.div_mod size cs ltac:(lia)) as Hdm.
  pose proof (Z.div_pos size cs Hsize Hcs) as Hq.
  destruct (decide (size mod cs = 0)%Z) as [H0|H0].
  - rewrite H0, Z.sub_0_r, Z.mod_same, Z.add_0_r by lia.
    split; [lia|]. split; [lia|]. nia.
  - rewrite (Z.mod_small (cs - size mod cs)) by lia.
    replace (size + (cs - size mod cs))%Z with ((size / cs + 1) * cs)%Z by lia.
    rewrite Z.div_mul by lia.
    split; [lia|]. split; [lia|]. nia.
Qed.

(** With a positive chunk size, [chunk_pixels] never raises. *)
Lemma chunk_pixels_Ok (self : PixelProcessor) (x : ndarray) :
  (0 < chunk_size self)%Z ->
  let size := Z.of_nat (length (data x)) in
  let cs := chunk_size self in
  chunk_pixels self x =
  Ok (NDArray [num_chunks_of cs size; cs] (dtype_of x)
        (data x ++ replicate (Z.to_nat (padding_of cs size)) 0%Z),
      chunk_metadata (shape x) size (padding_of cs size) (num_chunks_of cs size) cs).
Proof.
  intros Hcs size cs.
  destruct (padding_of_spec cs size Hcs ltac:(lia)) as (Hpad & Hmul & Hnum).
  unfold chunk_pixels, image_to_array, flatten. fold cs. fold size.
  rewrite (proj2 (Z.eqb_neq cs 0)) by lia.
  pose proof (Z.mod_pos_bound size cs Hcs) as Hrem.
  assert (Hnc : forall l : list Z, Z.of_nat (length l) = (size + padding_of cs size)%Z ->
            (Z.of_nat (length l) / cs = num_chunks_of cs size)%Z).
  { intros l ->. done. }
  destruct (Z.eqb_spec (size mod cs) 0) as [H0|H0]; cbn [negb bind fst snd].
  - assert (Hp0 : padding_of cs size = 0%Z).
    { unfold padding_of. by rewrite H0, Z.sub_0_r, Z.mod_same by lia. }
    rewrite Hp0 in *. rewrite Hnc by (fold size; lia).
    rewrite reshape_wf.
    + simpl. by rewrite app_nil_r.
    + repeat constructor; lia.
    + simpl. fold size. lia.
  - assert (Hp : padding_of cs size = (cs - size mod cs)%Z).
    { unfold padding_of. apply Z.mod_small. lia. }
    unfold pad_right. rewrite (proj2 (Z.ltb_ge _ _)) by lia. cbn [bind fst snd].
    rewrite <- Hp.
    assert (Hlen : Z.of_nat (length (data x ++ replicate
              (Z.to_nat (padding_of cs size)) 0%Z)) = (size + padding_of cs size)%Z).
    { rewrite length_app, length_replicate. fold size. lia. }
    rewrite Hnc by done.
    rewrite reshape_wf; [done| |].
    + repeat constructor; lia.
    + simpl. rewrite Hlen. lia.
Qed.

Lemma chunk_metadata_plain shp size padding n cs :
  json_plain (chunk_metadata shp size padding n cs) = true.
Proof. unfold chunk_metadata. cbn [json_plain forallb]. by rewrite json_of_shape_plain. Qed.

(** [unchunk_pixels] undoes [chunk_pixels] on an image of bytes. *)
Lemma unchunk_chunk (self : PixelProcessor) (x : ndarray) :
  wf_uint8 x ->
  image_shape (shape x) ->
  (0 < chunk_size self)%Z ->
  let size := Z.of_nat (length (data x)) in
  let cs := chunk_size self in
  unchunk_pixels
    (NDArray [num_chunks_of cs size; cs] (dtype_of x)
       (data x ++ replicate (Z.to_nat (padding_of cs size)) 0%Z))
    (chunk_metadata (shape x) size (padding_of cs size) (num_chunks_of cs size) cs)
  = Ok x.
Proof.
  intros [Hdims Hsize Hdt Hbytes] Himage Hcs size cs.
  destruct (padding_of_spec cs size Hcs ltac:(lia)) as (Hpad & Hmul & Hnum).
  unfold unchunk_pixels, chunk_metadata, flatten.
  cbn [dict_get assoc_last String.eqb Ascii.eqb Bool.eqb bind as_int as_index data dtype_of].
  assert (Hflat : (if (0 <? padding_of cs size)%Z
                   then Ok (slice_to (data x ++ replicate (Z.to_nat (padding_of cs size)) 0%Z) size)
                   else Ok (data x ++ replicate (Z.to_nat (padding_of cs size)) 0%Z))
                  = Ok (data x)).
  { destruct (Z.ltb_spec 0 (padding_of cs size)) as [Hp|Hp].
    - unfold slice_to. rewrite (proj2 (Z.ltb_ge _ 0)) by lia.
      f_equal. apply take_app_length'. lia.
    - replace (padding_of cs size) with 0%Z by lia. simpl. by rewrite app_nil_r. }
  rewrite Hflat. cbn [bind].
  rewrite as_shape_json_of_shape. cbn [bind reshape_to].
  rewrite reshape_wf by done. cbn [bind].
  unfold array_to_image. cbn [shape data].
  rewrite astype_uint8_bytes by done.
  rewrite fromarray_image by done.
  destruct x as [shp dt d]. simpl in *. by subst dt.
Qed.

End PixelProcessor.

Example sha256_abc :
  SHA256.sha256 (encode "abc") =
  [186; 120; 22; 191; 143; 1; 207; 234; 65; 65; 64; 222; 93; 174; 34; 35;
   176; 3; 97; 163; 150; 23; 122; 156; 180; 16; 255; 97; 242; 0; 21; 173]%Z.
Proof. vm_compute. reflexivity. Qed.

Example sha256_two_blocks :
  SHA256.sha256 (replicate 70 97%Z) =
  [107; 213; 229; 3; 72; 85; 161; 18; 65; 240; 222; 232; 252; 114; 133; 15;
   253; 153; 85; 178; 131; 71; 168; 100; 40; 181; 250; 25; 17; 159; 106; 208]%Z.
Proof. vm_compute. reflexivity. Qed.

(** ** bytes, struct and array buffers *)

(** [b.find(sub)]: the first index at which [sub] occurs, or -1. *)
Fixpoint find_from (sub b : list Z) (i : nat) : option nat :=
  if decide (take (length sub) b = sub) then Some i
  else match b with
       | [] => None
       | _ :: rest => find_from sub rest (S i)
       end.

Definition bytes_find (b sub : list Z) : Z :=
  match find_from sub b 0 with
  | Some i => Z.of_nat i
  | None => (-1)%Z
  end.

(** [b[i:j]]: negative bounds count from the end, bounds out of range are
    clipped. *)
Definition clip_index (n : nat) (i : Z) : nat :=
  Z.to_nat (Z.min (Z.of_nat n) (if (i <? 0)%Z then Z.max 0 (i + Z.of_nat n) else i)).

Definition slice {A : Type} (l : list A) (i j : Z) : list A :=
  let a := clip_index (length l) i in
  let b := clip_index (length l) j in
  take (b - a) (drop a l).

(** [b.decode('utf-8')]: the bytes must be well-formed UTF-8. *)
Definition is_cont (c : Z) : bool := ((0x80 <=? c) && (c <=? 0xBF))%Z.

Fixpoint utf8_valid (b : list Z) : bool :=
  match b with
  | [] => true
  | x :: r =>
      if (x <? 0x80)%Z then utf8_valid r
      else if ((0xC2 <=? x) && (x <=? 0xDF))%Z then
        match r with
        | c1 :: r' => is_cont c1 && utf8_valid r'
        | _ => false
        end
      else if ((0xE0 <=? x) && (x <=? 0xEF))%Z then
        match r with
        | c1 :: c2 :: r' =>
            is_cont c1 && is_cont c2 &&
            (negb (x =? 0xE0)%Z || (0xA0 <=? c1)%Z) &&
            (negb (x =? 0xED)%Z || (c1 <=? 0x9F)%Z) && utf8_valid r'
        | _ => false
        end
      else if ((0xF0 <=? x) && (x <=? 0xF4))%Z then
        match r with
        | c1 :: c2 :: c3 :: r' =>
            is_cont c1 && is_cont c2 && is_cont c3 &&
            (negb (x =? 0xF0)%Z || (0x90 <=? c1)%Z) &&
            (negb (x =? 0xF4)%Z || (c1 <=? 0x8F)%Z) && utf8_valid r'
        | _ => false
        end
      else false
  end.

Definition decode (b : list Z) : result string :=
  if utf8_valid b
  then Ok (String.string_of_list_ascii ((fun x => Ascii.ascii_of_N (Z.to_N x)) <$> b))
  else Raise UnicodeDecodeError.

(** [struct.pack] and [struct.unpack] for the formats ['B'] and ['>I']. *)
Definition pack_B (v : Z) : result (list Z) :=
  if ((0 <=? v) && (v <? 256))%Z then Ok [v] else Raise StructError.

Definition pack_I_be (v : Z) : result (list Z) :=
  if ((0 <=? v) && (v <? 2 ^ 32))%Z then Ok (SHA256.be_bytes 4 v) else Raise StructError.

Definition unpack_B (b : list Z) : result Z :=
  match b with
  | [x] => Ok x
  | _ => Raise StructError
  end.

Definition unpack_I_be (b : list Z) : result Z :=
  if decide (length b = 4) then Ok (int_from_bytes_big b) else Raise StructError.

(** Element types: their size in bytes, their name and their values. *)
Definition itemsize (dt : dtype) : nat :=
  match dt with UInt8 => 1 | Int32 => 4 | Int64 => 8 end.

Definition dtype_name (dt : dtype) : string :=
  match dt with UInt8 => "uint8" | Int32 => "int32" | Int64 => "int64" end.

(** [np.dtype(name)]; element types other than these three are outside
    the model and read as not understood. *)
Definition np_dtype (name : string) : result dtype :=
  if String.eqb name "uint8" then Ok UInt8
  else if String.eqb name "int32" then Ok Int32
  else if String.eqb name "int64" then Ok Int64
  else Raise TypeError.

Definition in_dtype (dt : dtype) (x : Z) : Prop :=
  match dt with
  | UInt8 => (0 <= x < 2 ^ 8)%Z
  | Int32 => (- 2 ^ 31 <= x < 2 ^ 31)%Z
  | Int64 => (- 2 ^ 63 <= x < 2 ^ 63)%Z
  end.

(** An array whose size matches its shape and whose elements fit its
    element type. *)
Record wf_array (a : ndarray) : Prop := {
  wfa_dims : Forall (fun d => (0 <= d)%Z) (shape a);
  wfa_size : Z.of_nat (length (data a)) = prod_list (shape a);
  wfa_range : Forall (in_dtype (dtype_of a)) (data a)
}.

(** The bytes of one element, least significant first (the byte order of
    the machines the service runs on), in two's complement. *)
Definition le_bytes (n : nat) (x : Z) : list Z :=
  (fun k => (Z.shiftr x (8 * Z.of_nat k) mod 256)%Z) <$> seq 0 n.

Definition le_int (b : list Z) : Z := foldr (fun x acc => x + 256 * acc)%Z 0%Z b.

Definition signed (bits : Z) (v : Z) : Z :=
  if (v <? 2 ^ (bits - 1))%Z then v else (v - 2 ^ bits)%Z.

Definition item_of_bytes (dt : dtype) (b : list Z) : Z :=
  match dt with
  | UInt8 => le_int b
  | Int32 => signed 32 (le_int b)
  | Int64 => signed 64 (le_int b)
  end.

(** [a.tobytes()]. *)
Definition tobytes (a : ndarray) : list Z :=
  data a ≫= le_bytes (itemsize (dtype_of a)).

(** [x.astype(np.int32)] on integers: the low 32 bits, signed. *)
Definition astype_int32 (l : list Z) : list Z :=
  (fun x => signed 32 (x mod 2 ^ 32)%Z) <$> l.

Fixpoint groups (n k : nat) (l : list Z) : list (list Z) :=
  match n with
  | O => []
  | S n' => take k l :: groups n' k (drop k l)
  end.

(** [np.frombuffer(raw, dtype)], as the list of its elements. *)
Definition frombuffer (raw : list Z) (dt : dtype) : result (list Z) :=
  if (length raw mod itemsize dt =? 0)%nat
  then Ok (item_of_bytes dt <$> groups (length raw / itemsize dt) (itemsize dt) raw)
  else Raise (ValueError "buffer size must be a multiple of element size").

(** *** Elements and their bytes *)

Lemma le_bytes_S n x :
  le_bytes (S n) x = (x mod 256)%Z :: le_bytes n (x / 256)%Z.
Proof.
  unfold le_bytes. rewrite <- cons_seq, fmap_cons, <- fmap_S_seq, <- list_fmap_compose.
  f_equal.
  apply list_fmap_ext. intros _ k _. simpl.
  rewrite !Z.shiftr_div_pow2 by lia.
  replace (8 * Z.of_nat (S k))%Z with (8 + 8 * Z.of_nat k)%Z by lia.
  rewrite Z.pow_add_r by lia. rewrite Z.div_div by lia. done.
Qed.

Lemma length_le_bytes n x : length (le_bytes n x) = n.
Proof. unfold le_bytes. by rewrite length_fmap, length_seq. Qed.

Lemma le_int_le_bytes n x : le_int (le_bytes n x) = (x mod 256 ^ Z.of_nat n)%Z.
Proof.
  revert x. induction n as [|n IH]; intros x.
  - simpl. by rewrite Z.mod_1_r.
  - rewrite le_bytes_S. cbn [le_int foldr]. fold (le_int (le_bytes n (x / 256))).
    rewrite IH, Nat2Z.inj_succ, Z.pow_succ_r by lia.
    rewrite Z.rem_mul_r by lia. done.
Qed.

Lemma be_bytes_is_le n x : SHA256.be_bytes n x = rev (le_bytes n x).
Proof.
  induction n as [|n IH]; [done|].
  cbn [SHA256.be_bytes]. unfold le_bytes in *. rewrite seq_S, fmap_app, rev_app_distr.
  simpl. by rewrite IH.
Qed.

Lemma big_endian_uint_rev b : big_endian_uint (rev b) = le_int b.
Proof.
  induction b as [|x b IH]; [done|]. simpl.
  assert (Happ : forall l y, big_endian_uint (l ++ [y]) = (big_endian_uint l * 256 + y)%Z).
  { clear. induction l as [|z l IH]; intros y; cbn [app big_endian_uint length].
    - simpl. lia.
    - rewrite IH, length_app. simpl length.
      rewrite Nat2Z.inj_add, Z.pow_add_r by lia. simpl (256 ^ Z.of_nat 1)%Z. lia. }
  rewrite Happ, IH. unfold le_int. lia.
Qed.

Lemma int_from_bytes_big_be_bytes n x :
  int_from_bytes_big (SHA256.be_bytes n x) = (x mod 256 ^ Z.of_nat n)%Z.
Proof.
  by rewrite int_from_bytes_big_spec, be_bytes_is_le, big_endian_uint_rev, le_int_le_bytes.
Qed.

Lemma unpack_pack_I_be v len_bytes :
  pack_I_be v = Ok len_bytes -> unpack_I_be len_bytes = Ok v.
Proof.
  unfold pack_I_be, unpack_I_be.
  destruct (_ && _)%bool eqn:Hv; [|done]. intros Heq.
  assert (len_bytes = SHA256.be_bytes 4 v) as -> by congruence. clear Heq.
  rewrite length_be_bytes. rewrite decide_True by done.
  rewrite int_from_bytes_big_be_bytes. f_equal. apply Z.mod_small.
  apply andb_true_iff in Hv as [?%Z.leb_le ?%Z.ltb_lt]. simpl. lia.
Qed.

Lemma signed_mod bits x :
  (0 < bits)%Z ->
  (- 2 ^ (bits - 1) <= x < 2 ^ (bits - 1))%Z ->
  signed bits (x mod 2 ^ bits) = x.
Proof.
  intros Hbits Hx. unfold signed.
  assert (Hpow : (2 ^ bits = 2 * 2 ^ (bits - 1))%Z).
  { rewrite <- Z.pow_succ_r by lia. f_equal. lia. }
  assert (Hp : (0 < 2 ^ (bits - 1))%Z) by (apply Z.pow_pos_nonneg; lia).
  destruct (decide (0 <= x)%Z) as [Hpos|Hneg].
  - rewrite Z.mod_small by lia. by rewrite (proj2 (Z.ltb_lt _ _)) by lia.
  - rewrite <- (Z.mod_add x 1) by lia. rewrite Z.mod_small by lia.
    rewrite (proj2 (Z.ltb_ge _ _)) by lia. lia.
Qed.

Lemma item_of_le_bytes dt x :
  in_dtype dt x -> item_of_bytes dt (le_bytes (itemsize dt) x) = x.
Proof.
  intros Hx. unfold item_of_bytes.
  destruct dt; rewrite le_int_le_bytes; simpl itemsize; simpl in Hx.
  - apply Z.mod_small. simpl. lia.
  - change (256 ^ Z.of_nat 4)%Z with (2 ^ 32)%Z. apply signed_mod; simpl; lia.
  - change (256 ^ Z.of_nat 8)%Z with (2 ^ 64)%Z. apply signed_mod; simpl; lia.
Qed.

Lemma groups_bind k (f : Z -> list Z) l :
  (forall x, length (f x) = k) ->
  groups (length l) k (l ≫= f) = f <$> l.
Proof.
  intros Hf. induction l as [|x l IH]; [done|].
  rewrite bind_cons, fmap_cons. cbn [length groups].
  rewrite take_app_length', drop_app_length' by done. by rewrite IH.
Qed.

Lemma length_bind_const k (f : Z -> list Z) l :
  (forall x, length (f x) = k) -> length (l ≫= f) = length l * k.
Proof.
  intros Hf. induction l as [|x l IH]; [done|].
  rewrite bind_cons, length_app, Hf, IH. simpl. lia.
Qed.

Lemma length_tobytes a :
  length (tobytes a) = length (data a) * itemsize (dtype_of a).
Proof. unfold tobytes. apply length_bind_const. intros x. apply length_le_bytes. Qed.

(** Reading back the bytes of an array gives its elements. *)
Lemma frombuffer_tobytes a :
  Forall (in_dtype (dtype_of a)) (data a) ->
  frombuffer (tobytes a) (dtype_of a) = Ok (data a).
Proof.
  intros Hrange. unfold frombuffer. rewrite length_tobytes.
  assert (Hk : itemsize (dtype_of a) <> 0) by (by destruct (dtype_of a)).
  rewrite Nat.Div0.mod_mul. simpl.
  rewrite Nat.div_mul by done.
  unfold tobytes. rewrite groups_bind by (intros; apply length_le_bytes).
  rewrite <- list_fmap_compose. f_equal.
  rewrite <- (list_fmap_id (data a)) at 2.
  apply Forall_fmap_ext_1. eapply Forall_impl; [exact Hrange|].
  intros x Hx. simpl. by apply item_of_le_bytes.
Qed.

Lemma astype_int32_in_range l : Forall (in_dtype Int32) l -> astype_int32 l = l.
Proof.
  intros Hl. unfold astype_int32. rewrite <- (list_fmap_id l) at 2.
  apply Forall_fmap_ext_1. eapply Forall_impl; [exact Hl|].
  intros x Hx. simpl in *. apply signed_mod; simpl; lia.
Qed.

(** *** Slices and searches *)

Lemma slice_middle {A : Type} (a m c : list A) (i j : Z) :
  i = Z.of_nat (length a) ->
  j = (i + Z.of_nat (length m))%Z ->
  slice (a ++ m ++ c) i j = m.
Proof.
  intros -> ->. unfold slice, clip_index.
  rewrite !length_app.
  rewrite (proj2 (Z.ltb_ge _ 0)) by lia. rewrite (proj2 (Z.ltb_ge _ 0)) by lia.
  rewrite !Z.min_r by lia.
  rewrite Nat2Z.id, drop_app_length.
  rewrite take_app_length'; [done|lia].
Qed.

Lemma find_from_short sub b i :
  length b < length sub -> find_from sub b i = None.
Proof.
  revert i. induction b as [|x b IH]; intros i Hlen; simpl.
  - rewrite decide_False; [done|]. intros Heq. rewrite take_nil in Heq.
    subst sub. simpl in Hlen. lia.
  - rewrite decide_False.
    + apply IH. simpl in Hlen. lia.
    + intros Heq. apply (f_equal length) in Heq. rewrite length_take in Heq.
      simpl in *. lia.
Qed.

Lemma find_from_cons sub x b i :
  find_from sub (x :: b) i =
  if decide (take (length sub) (x :: b) = sub) then Some i else find_from sub b (S i).
Proof. done. Qed.

Lemma find_from_app sub b rest i k :
  find_from sub b i = Some k -> find_from sub (b ++ rest) i = Some k.
Proof.
  revert i. induction b as [|x b IH]; intros i.
  - simpl. destruct (decide (take (length sub) [] = sub)) as [Heq|]; [|done].
    intros [= <-]. rewrite take_nil in Heq. subst sub.
    destruct rest; simpl; by rewrite ?decide_True.
  - rewrite find_from_cons. simpl app. rewrite find_from_cons.
    destruct (decide (take (length sub) (x :: b) = sub)) as [Heq|Hne].
    + intros [= <-].
      assert (Hlen : length sub <= length (x :: b)).
      { apply (f_equal length) in Heq. rewrite length_take in Heq. lia. }
      rewrite decide_True; [done|].
      change (x :: b ++ rest) with ((x :: b) ++ rest). by rewrite take_app_le.
    + intros Hfind.
      assert (Hlen : length sub <= length b).
      { destruct (decide (length sub <= length b)) as [|Hshort]; [done|].
        rewrite find_from_short in Hfind by lia. done. }
      rewrite decide_False; [by apply IH|].
      intros Heq. apply Hne.
      change (x :: b ++ rest) with ((x :: b) ++ rest) in Heq.
      by rewrite take_app_le in Heq by (simpl; lia).
Qed.

Lemma find_from_shift sub b i : forall k,
  find_from sub b i = Some k -> i <= k /\ find_from sub b 0 = Some (k - i).
Proof.
  revert i. induction b as [|x b IH]; intros i k; simpl.
  - destruct (decide _); [|done]. intros [= <-]. split; [lia|]. f_equal. lia.
  - destruct (decide _); [intros [= <-]; split; [lia|f_equal; lia]|].
    intros Hk. destruct (IH _ _ Hk) as [Hle H0].
    split; [lia|].
    destruct (find_from sub b 1) as [k1|] eqn:H1.
    + destruct (IH _ _ H1) as [Hle1 H01]. rewrite H0 in H01.
      injection H01 as H01. f_equal. lia.
    + destruct (find_from sub b 0) as [k0|] eqn:H00; [|done].
      clear -H1 H00 IH. exfalso.
      assert (Hsome : forall j, find_from sub b j <> None).
      { intros j Hj. clear IH H1. revert j Hj H00. generalize 0.
        induction b as [|y b IHb]; intros i0 j; simpl.
        - destruct (decide _); done.
        - destruct (decide _); [done|]. intros Hj H00. by eapply IHb. }
      by apply (Hsome 1).
Qed.

(** [bytes_find] returns the first index at which the pattern occurs. *)
Lemma bytes_find_first b sub (p : nat) :
  bytes_find b sub = Z.of_nat p ->
  take (length sub) (drop p b) = sub /\
  forall i, i < p -> take (length sub) (drop i b) <> sub.
Proof.
  unfold bytes_find. destruct (find_from sub b 0) as [k|] eqn:Hk; [|lia].
  intros Hp. apply Nat2Z.inj in Hp. subst k.
  revert p Hk. induction b as [|x b IH]; intros p; simpl.
  - destruct (decide _) as [Heq|]; [|done]. intros [= <-].
    split; [done|lia].
  - destruct (decide _) as [Heq|Hne].
    + intros [= <-]. split; [done|lia].
    + intros H1. destruct (find_from_shift _ _ _ _ H1) as [Hle H0].
      destruct (IH _ H0) as [Hocc Hfirst].
      destruct p as [|p]; [lia|]. replace (S p - 1) with p in * by lia.
      split; [done|]. intros i Hi. destruct i as [|i]; [done|].
      simpl. apply Hfirst. lia.
Qed.

Lemma find_from_None sub b i :
  find_from sub b i = None <-> forall j, take (length sub) (drop j b) <> sub.
Proof.
  revert i. induction b as [|x b IH]; intros i.
  - simpl. destruct (decide _) as [Heq|Hne]; split; try done.
    + intros Hno. by specialize (Hno 0).
    + intros _ j. by rewrite drop_nil.
  - rewrite find_from_cons. destruct (decide _) as [Heq|Hne].
    + split; [done|]. intros Hno. by specialize (Hno 0).
    + rewrite IH. split.
      * intros Hno [|j]; [done|]. apply Hno.
      * intros Hno j. apply (Hno (S j)).
Qed.

Lemma bytes_find_none b sub :
  bytes_find b sub = (-1)%Z <-> forall i, take (length sub) (drop i b) <> sub.
Proof.
  rewrite <- (find_from_None sub b 0). unfold bytes_find.
  destruct (find_from sub b 0); split; (done || lia).
Qed.

Lemma bytes_find_app b sub rest (p : nat) :
  bytes_find b sub = Z.of_nat p -> bytes_find (b ++ rest) sub = Z.of_nat p.
Proof.
  unfold bytes_find. destruct (find_from sub b 0) as [k|] eqn:Hk; [|lia].
  intros Hp. by rewrite (find_from_app _ _ rest _ _ Hk).
Qed.

(** [p] is the first index at which [sub] occurs in [b]. *)
Definition first_occurrence (sub b : list Z) (p : nat) : Prop :=
  take (length sub) (drop p b) = sub /\
  forall i, i < p -> take (length sub) (drop i b) <> sub.

Lemma bytes_find_first_occurrence b sub (p : nat) :
  bytes_find b sub = Z.of_nat p <-> first_occurrence sub b p.
Proof.
  split; [apply bytes_find_first|].
  intros [Hocc Hfirst].
  destruct (decide (bytes_find b sub = (-1)%Z)) as [Hnone|Hsome].
  { rewrite bytes_find_none in Hnone. by destruct (Hnone p). }
  assert (Hk : exists k : nat, bytes_find b sub = Z.of_nat k).
  { unfold bytes_find in *. destruct (find_from sub b 0) as [k|]; [by exists k|done]. }
  destruct Hk as [k Hk]. rewrite Hk. f_equal.
  destruct (bytes_find_first _ _ _ Hk) as [Hocck Hfirstk].
  destruct (Nat.lt_trichotomy k p) as [Hlt|[->|Hgt]]; [|done|].
  - by destruct (Hfirst k Hlt).
  - by destruct (Hfirstk p Hgt).
Qed.

Lemma slice_beyond {A : Type} (l : list A) (i j : Z) :
  (Z.of_nat (length l) <= i)%Z -> slice l i j = [].
Proof.
  intros Hi. unfold slice, clip_index.
  rewrite (proj2 (Z.ltb_ge i 0)) by lia. cbv iota.
  rewrite (Z.min_l _ i) by lia.
  rewrite Nat2Z.id, drop_all. apply take_nil.
Qed.

(** *** Text *)

Lemma utf8_valid_ascii b : Forall (fun x => (0 <= x < 128)%Z) b -> utf8_valid b = true.
Proof.
  induction 1 as [|x b Hx _ IH]; [done|].
  cbn [utf8_valid]. by rewrite (proj2 (Z.ltb_lt x 128)) by lia.
Qed.

Lemma decode_encode s :
  Forall (fun x => (0 <= x < 128)%Z) (encode s) -> decode (encode s) = Ok s.
Proof.
  intros Hs. unfold decode. rewrite utf8_valid_ascii by done.
  f_equal. unfold encode. rewrite <- list_fmap_compose.
  rewrite <- (String.string_of_list_ascii_of_string s) at 2. f_equal.
  rewrite <- (list_fmap_id (String.list_ascii_of_string s)) at 2.
  apply list_fmap_ext. intros _ c _. simpl.
  by rewrite N2Z.id, Ascii.ascii_N_embedding.
Qed.

(** ** dckp_es.py: the package *)

Module Package.

(** [b'AARTHA']. *)
Definition MAGIC : list Z := encode "AARTHA".

(** The two errors [extract_encryption_package] raises itself. *)
Definition InvalidFormat : exn :=
  ValueError "Invalid file format: Magic bytes 'AARTHA' not found".
Definition UnsupportedVersion (version : Z) : exn :=
  ValueError ("Unsupported package version: " +:+
              DecimalString.NilZero.string_of_int (Z.to_int version)).

(** One turn of the loop of [create_encryption_package]: the entry added
    to [pages_meta] and the bytes added to [binary_data]. *)
Definition page_meta (img_data : ndarray) (metadata : json) (shuffle_idx : list Z)
  : json :=
  let img_bytes := tobytes img_data in
  let shuffle_bytes :=
    tobytes (NDArray [Z.of_nat (length shuffle_idx)] Int32 (astype_int32 shuffle_idx)) in
  JDict [("img_shape", json_of_shape (shape img_data));
         ("img_dtype", JStr (dtype_name (dtype_of img_data)));
         ("img_size", JInt (Z.of_nat (length img_bytes)));
         ("shuffle_size", JInt (Z.of_nat (length shuffle_bytes)));
         ("metadata", metadata)].

Definition page_bytes (img_data : ndarray) (shuffle_idx : list Z) : list Z :=
  tobytes img_data ++
  tobytes (NDArray [Z.of_nat (length shuffle_idx)] Int32 (astype_int32 shuffle_idx)).

Definition add_page (st : list json * list Z) (page : ndarray * (json * list Z))
  : list json * list Z :=
  let '(img_data, (metadata, shuffle_idx)) := page in
  (fst st ++ [page_meta img_data metadata shuffle_idx],
   snd st ++ page_bytes img_data shuffle_idx).

(** [create_encryption_package(encrypted_images, metadata_list,
    shuffle_indices_list, prefix_bytes)]. *)
Definition create_encryption_package (encrypted_images : list ndarray)
    (metadata_list : list json) (shuffle_indices_list : list (list Z))
    (prefix_bytes : list Z) : result (list Z) :=
  let st := foldl add_page ([], [])
              (zip encrypted_images (zip metadata_list shuffle_indices_list)) in
  let pages_meta := fst st in
  let binary_data := snd st in
  let package_meta :=
    JDict [("version", JStr "1.0");
           ("num_pages", JInt (Z.of_nat (length encrypted_images)));
           ("pages", JList pages_meta)] in
  let meta_json := encode (Json.dumps package_meta) in
  let meta_len := Z.of_nat (length meta_json) in
  version <- pack_B 1 ;;
  len_bytes <- pack_I_be meta_len ;;
  let header := MAGIC ++ version ++ len_bytes in
  Ok (prefix_bytes ++ header ++ meta_json ++ binary_data).

(** A page of an extracted package: its dictionary of the metadata record,
    and the two arrays [extract_encryption_package] adds to it. *)
Record Page : Type := MakePage {
  page_fields : json;
  image_data : ndarray;
  shuffle_indices : list Z
}.

(** An extracted package: the metadata record and its pages. *)
Record Package : Type := MakePackage {
  package_fields : json;
  pages : list Page
}.

(** [for page in package['pages']] visits the items of a list; an empty
    dictionary or string has nothing to visit, and anything else has no
    page dictionaries in it. *)
Definition iter_pages (v : json) : result (list json) :=
  match v with
  | JList l => Ok l
  | JDict [] => Ok []
  | JStr EmptyString => Ok []
  | _ => Raise TypeError
  end.

(** One turn of the loop of [extract_encryption_package]. *)
Definition extract_page (binary_part : list Z) (st : Z * list Page) (page : json)
  : result (Z * list Page) :=
  let binary_offset := fst st in
  img_size <- dict_get page "img_size" ;;
  img_size <- as_int img_size ;;
  let img_data_raw := slice binary_part binary_offset (binary_offset + img_size) in
  let binary_offset := (binary_offset + img_size)%Z in
  img_dtype <- dict_get page "img_dtype" ;;
  img_dtype <- as_str img_dtype ;;
  img_dtype <- np_dtype img_dtype ;;
  flat <- frombuffer img_data_raw img_dtype ;;
  img_shape <- dict_get page "img_shape" ;;
  img_shape <- as_shape img_shape ;;
  image_data <- reshape_to img_dtype flat img_shape ;;
  shuffle_size <- dict_get page "shuffle_size" ;;
  shuffle_size <- as_int shuffle_size ;;
  let shuffle_data_raw := slice binary_part binary_offset (binary_offset + shuffle_size) in
  let binary_offset := (binary_offset + shuffle_size)%Z in
  shuffle_indices <- frombuffer shuffle_data_raw Int32 ;;
  Ok (binary_offset, snd st ++ [MakePage page image_data shuffle_indices]).

Fixpoint extract_pages (binary_part : list Z) (st : Z * list Page) (pages : list json)
  : result (Z * list Page) :=
  match pages with
  | [] => Ok st
  | page :: rest =>
      st' <- extract_page binary_part st page ;;
      extract_pages binary_part st' rest
  end.

(** [extract_encryption_package(package_bytes)]. *)
Definition extract_encryption_package (package_bytes : list Z) : result Package :=
  let magic_pos := bytes_find package_bytes MAGIC in
  if (magic_pos =? -1)%Z then Raise InvalidFormat else
  let offset := (magic_pos + 6)%Z in
  version <- unpack_B (slice package_bytes offset (offset + 1)) ;;
  let offset := (offset + 1)%Z in
  if negb (version =? 1)%Z then Raise (UnsupportedVersion version) else
  meta_len <- unpack_I_be (slice package_bytes offset (offset + 4)) ;;
  let offset := (offset + 4)%Z in
  meta_json <- decode (slice package_bytes offset (offset + meta_len)) ;;
  let offset := (offset + meta_len)%Z in
  package <- match Json.loads meta_json with
             | Some v => Ok v
             | None => Raise JSONDecodeError
             end ;;
  let binary_part := drop (Z.to_nat offset) package_bytes in
  pages_field <- dict_get package "pages" ;;
  page_list <- iter_pages pages_field ;;
  st <- extract_pages binary_part (0%Z, []) page_list ;;
  Ok (MakePackage package (snd st)).

(** *** The errors of extraction *)

(** An exception other than the two [extract_encryption_package] raises
    itself. *)
Definition foreign (e : exn) : Prop :=
  e <> InvalidFormat /\ forall v, e <> UnsupportedVersion v.

Lemma bind_Raise {A B : Type} (c : result A) (k : A -> result B) e :
  (x <- c ;; k x) = Raise e ->
  c = Raise e \/ exists a, c = Ok a /\ k a = Raise e.
Proof.
  destruct c as [a|e']; simpl; intros He.
  - right. by exists a.
  - left. by injection He as ->.
Qed.

Ltac foreign_exn :=
  match goal with
  | H : Raise _ = Raise _ |- _ => injection H as <-
  end;
  split; [|intros ?]; unfold InvalidFormat, UnsupportedVersion; discriminate.

Lemma dict_get_foreign d k e : dict_get d k = Raise e -> foreign e.
Proof.
  unfold dict_get. intros He.
  destruct d; try foreign_exn. destruct (assoc_last k kvs); [done|foreign_exn].
Qed.

Lemma as_int_foreign v e : as_int v = Raise e -> foreign e.
Proof. unfold as_int. intros He. destruct v; try done; foreign_exn. Qed.

Lemma as_str_foreign v e : as_str v = Raise e -> foreign e.
Proof. unfold as_str. intros He. destruct v; try done; foreign_exn. Qed.

Lemma as_dim_foreign v e : as_dim v = Raise e -> foreign e.
Proof. unfold as_dim. intros He. destruct v; try done; foreign_exn. Qed.

Lemma as_shape_foreign v e : as_shape v = Raise e -> foreign e.
Proof.
  unfold as_shape. intros He.
  assert (Hl : forall l, map_result as_dim l = Raise e -> foreign e).
  { induction l as [|x l IH]; simpl; [done|]. intros Hx.
    apply bind_Raise in Hx as [Hx|(a & _ & Hx)]; [by eapply as_dim_foreign|].
    apply bind_Raise in Hx as [Hx|(a' & _ & Hx)]; [by apply IH|done]. }
  destruct v; try done;
    apply bind_Raise in He as [He|(a & _ & He)];
    try done; try (by eapply as_dim_foreign).
  exact (Hl _ He).
Qed.

Lemma np_dtype_foreign name e : np_dtype name = Raise e -> foreign e.
Proof.
  unfold np_dtype. intros He.
  repeat (destruct (String.eqb _ _); [done|]). foreign_exn.
Qed.

Lemma frombuffer_foreign raw dt e : frombuffer raw dt = Raise e -> foreign e.
Proof.
  unfold frombuffer. intros He. destruct (_ =? _)%nat; [done|foreign_exn].
Qed.

Lemma reshape_foreign dt flat shp e : reshape_to dt flat shp = Raise e -> foreign e.
Proof.
  destruct shp as [shp|]; [|done]. unfold reshape_to, reshape. intros He.
  destruct (filter _ shp) as [|d [|d' neg]].
  - destruct (_ =? _)%Z; [done|foreign_exn].
  - destruct (d =? -1)%Z; [|foreign_exn].
    destruct (_ =? 0)%Z; [foreign_exn|].
    destruct (_ =? 0)%Z; [done|foreign_exn].
  - foreign_exn.
Qed.

Lemma extract_page_foreign binary st page e :
  extract_page binary st page = Raise e -> foreign e.
Proof.
  unfold extract_page. intros He.
  repeat match type of He with
  | bind _ _ = Raise _ => apply bind_Raise in He as [He|(? & _ & He)]
  end;
  eauto using dict_get_foreign, as_int_foreign, as_str_foreign, as_shape_foreign,
    np_dtype_foreign, frombuffer_foreign, reshape_foreign; done.
Qed.

Lemma extract_pages_foreign binary pages : forall st e,
  extract_pages binary st pages = Raise e -> foreign e.
Proof.
  induction pages as [|page pages IH]; intros st e; simpl; [done|].
  intros He. apply bind_Raise in He as [He|(st' & _ & He)].
  - by eapply extract_page_foreign.
  - by eapply IH.
Qed.

(** What [extract_encryption_package] does once the magic is found at
    [p] and the byte after it is [version]. *)
Lemma extract_at_magic b (p : nat) version :
  bytes_find b MAGIC = Z.of_nat p ->
  b !! (p + 6) = Some version ->
  (version <> 1%Z -> extract_encryption_package b = Raise (UnsupportedVersion version)) /\
  (version = 1%Z -> forall e, extract_encryption_package b = Raise e -> foreign e).
Proof.
  intros Hfind Hv. unfold extract_encryption_package. rewrite Hfind.
  rewrite (proj2 (Z.eqb_neq _ _)) by lia.
  assert (Hslice : slice b (Z.of_nat p + 6) (Z.of_nat p + 6 + 1) = [version]).
  { rewrite <- (take_drop (p + 6) b) at 1.
    rewrite (drop_S b version (p + 6)) by done.
    apply (slice_middle (take (p + 6) b) [version]).
    - apply lookup_lt_Some in Hv. rewrite length_take. lia.
    - simpl. lia. }
  rewrite Hslice. cbn [unpack_B bind].
  split.
  - intros Hne. by rewrite (proj2 (Z.eqb_neq _ _)) by done.
  - intros -> e He. simpl negb in He. cbv iota in He.
    repeat match type of He with
    | bind _ _ = Raise _ => apply bind_Raise in He as [He|(? & _ & He)]
    end.
    + unfold unpack_I_be in He. destruct (decide _); [done|foreign_exn].
    + unfold decode in He. destruct (utf8_valid _); [done|foreign_exn].
    + destruct (Json.loads _); [done|foreign_exn].
    + by eapply dict_get_foreign.
    + unfold iter_pages in He.
      destruct x2 as [| | | [|]|l|[|]]; try done; foreign_exn.
    + by eapply extract_pages_foreign.
    + done.
Qed.

(** *** Extraction of a created package *)

(** The page [extract_encryption_package] rebuilds from one page of the
    lists given to [create_encryption_package]. *)
Definition created_page (page : ndarray * (json * list Z)) : Page :=
  let '(img_data, (metadata, shuffle_idx)) := page in
  MakePage (page_meta img_data metadata shuffle_idx) img_data shuffle_idx.

Definition created_meta (page : ndarray * (json * list Z)) : json :=
  let '(img_data, (metadata, shuffle_idx)) := page in
  page_meta img_data metadata shuffle_idx.

Definition created_bytes (page : ndarray * (json * list Z)) : list Z :=
  let '(img_data, (metadata, shuffle_idx)) := page in
  page_bytes img_data shuffle_idx.

(** The metadata record of a list of pages. *)
Definition package_meta (num_pages : nat) (pages : list (ndarray * (json * list Z)))
  : json :=
  JDict [("version", JStr "1.0");
         ("num_pages", JInt (Z.of_nat num_pages));
         ("pages", JList (created_meta <$> pages))].

(** What a page must be for its bytes to hold it: an array that matches
    its shape and element type, permutation entries that fit 32 bits, and
    plain metadata. *)
Definition wf_page (page : ndarray * (json * list Z)) : Prop :=
  let '(img_data, (metadata, shuffle_idx)) := page in
  wf_array img_data /\ json_plain metadata = true /\ Forall (in_dtype Int32) shuffle_idx.

Lemma foldl_add_page pages metas bytes :
  foldl add_page (metas, bytes) pages =
  (metas ++ (created_meta <$> pages), bytes ++ concat (created_bytes <$> pages)).
Proof.
  revert metas bytes. induction pages as [|[img [md idx]] pages IH]; intros metas bytes.
  - simpl. by rewrite !app_nil_r.
  - cbn [foldl]. unfold add_page at 2. cbn [fst snd]. rewrite IH.
    rewrite !fmap_cons. cbn [concat created_meta created_bytes].
    by rewrite <- !app_assoc.
Qed.

(** [create_encryption_package] lays the package out as the prefix, the
    magic, the version, the length of the metadata, the metadata and the
    pages; it raises only when the metadata is 4 GiB or more. *)
Lemma create_encryption_package_layout imgs mds idxs prefix_bytes :
  let pages := zip imgs (zip mds idxs) in
  let meta_json := encode (Json.dumps (package_meta (length imgs) pages)) in
  (Z.of_nat (length meta_json) < 2 ^ 32)%Z ->
  create_encryption_package imgs mds idxs prefix_bytes =
  Ok (prefix_bytes ++ (MAGIC ++ [1%Z] ++ SHA256.be_bytes 4 (Z.of_nat (length meta_json)))
        ++ meta_json ++ concat (created_bytes <$> pages)).
Proof.
  intros pages meta_json Hlen. unfold create_encryption_package.
  rewrite foldl_add_page. cbn [fst snd app]. fold pages.
  change (JDict _) with (package_meta (length imgs) pages). fold meta_json.
  unfold pack_I_be. rewrite (proj2 (Z.leb_le 0 _)) by lia.
  rewrite (proj2 (Z.ltb_lt _ _)) by done. done.
Qed.

Lemma create_encryption_package_Ok_inv imgs mds idxs prefix_bytes package_bytes :
  create_encryption_package imgs mds idxs prefix_bytes = Ok package_bytes ->
  (Z.of_nat (length (encode (Json.dumps
     (package_meta (length imgs) (zip imgs (zip mds idxs)))))) < 2 ^ 32)%Z.
Proof.
  unfold create_encryption_package. rewrite foldl_add_page. cbn [fst snd app bind pack_B].
  change (JDict _) with (package_meta (length imgs) (zip imgs (zip mds idxs))).
  simpl andb. cbv iota. cbn [bind].
  unfold pack_I_be.
  destruct (Z.ltb_spec (Z.of_nat (length (encode (Json.dumps
     (package_meta (length imgs) (zip imgs (zip mds idxs))))))) (2 ^ 32)) as [Hlt|Hge];
    [done|].
  by rewrite andb_false_r.
Qed.

Lemma np_dtype_name dt : np_dtype (dtype_name dt) = Ok dt.
Proof. by destruct dt. Qed.

Lemma page_meta_metadata img_data metadata shuffle_idx :
  dict_get (page_meta img_data metadata shuffle_idx) "metadata" = Ok metadata.
Proof. reflexivity. Qed.

Lemma page_meta_plain img md idx :
  json_plain md = true -> json_plain (page_meta img md idx) = true.
Proof.
  intros Hmd. unfold page_meta. cbn [json_plain forallb].
  rewrite json_of_shape_plain, Hmd. by destruct (dtype_of img).
Qed.

Lemma package_meta_plain n pages :
  Forall wf_page pages -> json_plain (package_meta n pages) = true.
Proof.
  intros Hpages. unfold package_meta. cbn [json_plain forallb].
  assert (Hall : forallb json_plain (created_meta <$> pages) = true).
  { induction Hpages as [|[img [md idx]] pages (_ & Hmd & _) _ IH]; [done|].
    rewrite fmap_cons. cbn [forallb created_meta]. by rewrite page_meta_plain, IH. }
  by rewrite Hall.
Qed.

(** One turn of the extraction loop reads back one created page. *)
Lemma extract_page_created pre post acc page :
  wf_page page ->
  extract_page (pre ++ created_bytes page ++ post) (Z.of_nat (length pre), acc)
    (created_meta page) =
  Ok (Z.of_nat (length (pre ++ created_bytes page)), acc ++ [created_page page]).
Proof.
  destruct page as [img [md idx]]. intros ([Hdims Hsize Hrange] & _ & Hidx).
  unfold created_bytes, created_meta, created_page, page_bytes, extract_page, page_meta.
  set (img_bytes := tobytes img).
  set (idx_bytes := tobytes (NDArray [Z.of_nat (length idx)] Int32 (astype_int32 idx))).
  cbn [fst snd dict_get assoc_last String.eqb Ascii.eqb Bool.eqb bind as_int as_str].
  rewrite <- app_assoc.
  rewrite (slice_middle pre img_bytes (idx_bytes ++ post)) by done.
  rewrite np_dtype_name. cbn [bind].
  subst img_bytes. rewrite frombuffer_tobytes by done. cbn [bind].
  rewrite as_shape_json_of_shape. cbn [bind reshape_to].
  rewrite reshape_wf by done. cbn [bind].
  rewrite (app_assoc pre).
  rewrite (slice_middle (pre ++ tobytes img) idx_bytes post).
  2:{ rewrite length_app. lia. }
  2:{ done. }
  subst idx_bytes.
  rewrite (frombuffer_tobytes (NDArray _ Int32 _)).
  2:{ simpl. by rewrite astype_int32_in_range. }
  cbn [bind data]. rewrite astype_int32_in_range by done.
  f_equal. f_equal.
  - rewrite !length_app. lia.
  - destruct img. done.
Qed.

Lemma extract_pages_created pages : forall pre acc,
  Forall wf_page pages ->
  extract_pages (pre ++ concat (created_bytes <$> pages)) (Z.of_nat (length pre), acc)
    (created_meta <$> pages) =
  Ok (Z.of_nat (length (pre ++ concat (created_bytes <$> pages))),
      acc ++ (created_page <$> pages)).
Proof.
  induction pages as [|page pages IH]; intros pre acc Hpages.
  - simpl. by rewrite !app_nil_r.
  - apply Forall_cons in Hpages as [Hpage Hpages].
    rewrite !fmap_cons. cbn [concat extract_pages].
    rewrite extract_page_created by done. cbn [bind].
    rewrite (app_assoc pre). rewrite IH by done.
    by rewrite <- !app_assoc.
Qed.

(** A prefix is tolerated when the first [AARTHA] of the prefix followed by
    the magic is the magic itself. *)
Definition prefix_ok (prefix_bytes : list Z) : Prop :=
  bytes_find (prefix_bytes ++ MAGIC) MAGIC = Z.of_nat (length prefix_bytes).

(** A prefix is tolerated when it holds no occurrence of the magic and
    does not end with its first five bytes. *)
Lemma prefix_ok_iff prefix_bytes :
  prefix_ok prefix_bytes <->
  (forall i, take 6 (drop i prefix_bytes) <> MAGIC) /\
  ~ encode "AARTH" `suffix_of` prefix_bytes.
Proof.
  unfold prefix_ok. rewrite bytes_find_first_occurrence. unfold first_occurrence.
  change (length MAGIC) with 6.
  split.
  - intros [_ Hfirst]. split.
    + intros i Hocc.
      assert (Hi : i + 6 <= length prefix_bytes).
      { apply (f_equal length) in Hocc. rewrite length_take, length_drop in Hocc.
        change (length MAGIC) with 6 in Hocc. lia. }
      apply (Hfirst i); [lia|].
      rewrite drop_app_le by lia. rewrite take_app_le; [done|].
      rewrite length_drop. lia.
    + intros [front Hsuf].
      apply (Hfirst (length front)).
      * rewrite Hsuf, length_app. simpl. lia.
      * rewrite Hsuf, <- app_assoc, drop_app_length. done.
  - intros [Hno Hsuf]. split.
    + by rewrite drop_app_length.
    + intros i Hi Hocc. rewrite drop_app_le in Hocc by lia.
      assert (Hlen : length (drop i prefix_bytes) <> 0) by (rewrite length_drop; lia).
      destruct (drop i prefix_bytes) as [|a [|b [|c [|d [|e [|f tl]]]]]] eqn:Hdrop;
        [done|try (by vm_compute in Hocc)..|].
      * apply Hsuf. exists (take i prefix_bytes).
        rewrite <- (take_drop i prefix_bytes) at 1. rewrite Hdrop. f_equal.
        injection Hocc as -> -> -> -> ->. done.
      * apply (Hno i). rewrite Hdrop. exact Hocc.
Qed.

(** Extraction of a created package gives the pages back, whatever the
    tolerated prefix. *)
Lemma extract_create imgs mds idxs prefix_bytes :
  let pages := zip imgs (zip mds idxs) in
  let meta := package_meta (length imgs) pages in
  (Z.of_nat (length (encode (Json.dumps meta))) < 2 ^ 32)%Z ->
  Forall wf_page pages ->
  prefix_ok prefix_bytes ->
  exists package_bytes,
    create_encryption_package imgs mds idxs prefix_bytes = Ok package_bytes /\
    extract_encryption_package package_bytes =
      Ok (MakePackage meta (created_page <$> pages)).
Proof.
  intros pages meta Hlen Hpages Hprefix.
  rewrite create_encryption_package_layout by done. fold pages. fold meta.
  set (meta_json := encode (Json.dumps meta)) in *.
  set (binary := concat (created_bytes <$> pages)).
  set (len_bytes := SHA256.be_bytes 4 (Z.of_nat (length meta_json))).
  eexists. split; [done|].
  unfold extract_encryption_package.
  assert (Hfind : bytes_find (prefix_bytes ++ (MAGIC ++ [1%Z] ++ len_bytes)
                                ++ meta_json ++ binary) MAGIC
                  = Z.of_nat (length prefix_bytes)).
  { replace (prefix_bytes ++ (MAGIC ++ [1%Z] ++ len_bytes) ++ meta_json ++ binary)
      with ((prefix_bytes ++ MAGIC) ++ ([1%Z] ++ len_bytes ++ meta_json ++ binary))
      by (by rewrite <- !app_assoc).
    by apply bytes_find_app. }
  rewrite Hfind.
  rewrite (proj2 (Z.eqb_neq _ _)) by lia.
  assert (Hmagic : length MAGIC = 6) by done.
  (* the version byte *)
  replace (prefix_bytes ++ (MAGIC ++ [1%Z] ++ len_bytes) ++ meta_json ++ binary)
    with ((prefix_bytes ++ MAGIC) ++ [1%Z] ++ (len_bytes ++ meta_json ++ binary))
    by (by rewrite <- !app_assoc).
  rewrite (slice_middle (prefix_bytes ++ MAGIC) [1%Z]).
  2:{ rewrite length_app, Hmagic. lia. }
  2:{ simpl. lia. }
  cbn [unpack_B bind]. simpl negb. cbv iota.
  (* the length of the metadata *)
  replace ((prefix_bytes ++ MAGIC) ++ [1%Z] ++ len_bytes ++ meta_json ++ binary)
    with ((prefix_bytes ++ MAGIC ++ [1%Z]) ++ len_bytes ++ (meta_json ++ binary))
    by (by rewrite <- !app_assoc).
  assert (Hlb : length len_bytes = 4) by apply length_be_bytes.
  rewrite (slice_middle (prefix_bytes ++ MAGIC ++ [1%Z]) len_bytes).
  2:{ rewrite !length_app, Hmagic. simpl. lia. }
  2:{ rewrite Hlb. lia. }
  rewrite (unpack_pack_I_be (Z.of_nat (length meta_json))).
  2:{ unfold pack_I_be. rewrite (proj2 (Z.leb_le 0 _)) by lia.
      by rewrite (proj2 (Z.ltb_lt _ _)) by done. }
  cbn [bind].
  (* the metadata *)
  replace ((prefix_bytes ++ MAGIC ++ [1%Z]) ++ len_bytes ++ meta_json ++ binary)
    with ((prefix_bytes ++ MAGIC ++ [1%Z] ++ len_bytes) ++ meta_json ++ binary)
    by (by rewrite <- !app_assoc).
  rewrite (slice_middle (prefix_bytes ++ MAGIC ++ [1%Z] ++ len_bytes) meta_json).
  2:{ rewrite !length_app, Hmagic, Hlb. simpl. lia. }
  2:{ done. }
  assert (Hplain : json_plain meta = true) by (by apply package_meta_plain).
  subst meta_json. rewrite decode_encode by (by apply dumps_ascii). cbn [bind].
  rewrite loads_dumps by done. cbn [bind].
  (* the pages *)
  replace (Z.to_nat (Z.of_nat (length prefix_bytes) + 6 + 1 + 4
                     + Z.of_nat (length (encode (Json.dumps meta)))))
    with (length ((prefix_bytes ++ MAGIC ++ [1%Z] ++ len_bytes) ++ encode (Json.dumps meta))).
  2:{ rewrite !length_app, Hmagic, Hlb. simpl. lia. }
  rewrite (app_assoc (prefix_bytes ++ MAGIC ++ [1%Z] ++ len_bytes) _ binary).
  rewrite drop_app_length.
  change (dict_get meta "pages") with (Ok (A:=json) (JList (created_meta <$> pages))).
  cbn [bind iter_pages].
  pose proof (extract_pages_created pages [] [] Hpages) as Hpg.
  cbn [app length] in Hpg. fold binary in Hpg.
  change (Z.of_nat 0) with 0%Z in Hpg. rewrite Hpg. done.
Qed.

End Package.

(** ** pdf_processor.py *)

Module PDFProcessor.

(** [images_to_pdf(images)]: an empty list is refused; the conversion of
    the pages to RGB and the PDF writer of the imaging library are the
    parameter [save_pdf]. *)
Definition images_to_pdf (save_pdf : list ndarray -> result (list Z))
    (images : list ndarray) : result (list Z) :=
  match images with
  | [] => Raise (ValueError "No images provided")
  | _ :: _ => save_pdf images
  end.

End PDFProcessor.

(** ** encryption_orchestrator.py

    The page loops of [encrypt_pdf] and [decrypt_pdf]. The renderer, the PNG
    encoder of the wrapper image, the clock, the parser of timestamps and
    the assembly of the PDF are collaborators outside the pipeline and are
    parameters here; the previews, the file, the transfer record and the
    mail take no part in the bytes of the package. *)

Module Orchestrator.

(** [s.split('|')]. *)
Fixpoint split_bar (s : string) : list string :=
  match s with
  | EmptyString => [EmptyString]
  | String c rest =>
      if Ascii.eqb c (Ascii.ascii_of_nat 124) then EmptyString :: split_bar rest
      else match split_bar rest with
           | part :: parts => String c part :: parts
           | [] => [String c EmptyString]
           end
  end.

Section Orchestrator.
Context `{RandomState}.

(** [datetime.fromisoformat(s).isoformat()], [None] when the string is no
    timestamp. *)
Variable fromisoformat : string -> option string.
(** [preview_img.save(buffered, format="PNG")], [None] when it raises. *)
Variable save_png : ndarray -> option (list Z).
(** [self.pdf_processor.images_to_pdf(images)]. *)
Variable images_to_pdf : list ndarray -> result (list Z).
(** [self.pixel_processor]. *)
Variable pixel_processor : PixelProcessor.PixelProcessor.

(** The lists [encrypt_pdf] collects, page by page. *)
Record Collected : Type := MakeCollected {
  encrypted_images : list ndarray;
  metadata_list : list json;
  shuffle_indices_list : list (list Z)
}.

(** One turn of the loop over [enumerate(images)]. *)
Definition encrypt_page (encryptor : DCKPES.DCKPESEncryptor) (shuffle_seed : Z)
    (st : Collected) (page_num : nat) (image : ndarray) : result Collected :=
  chunked <- PixelProcessor.chunk_pixels pixel_processor image ;;
  let chunks := fst chunked in
  let metadata := snd chunked in
  shuffled <- PixelProcessor.shuffle_chunks chunks (shuffle_seed + Z.of_nat page_num) ;;
  let shuffled_chunks := fst shuffled in
  let shuffle_indices := snd shuffled in
  encrypted_chunks <- DCKPES.encrypt_pixels encryptor shuffled_chunks ;;
  Ok (MakeCollected (encrypted_images st ++ [encrypted_chunks])
        (metadata_list st ++ [metadata])
        (shuffle_indices_list st ++ [shuffle_indices])).

Fixpoint encrypt_pages (encryptor : DCKPES.DCKPESEncryptor) (shuffle_seed : Z)
    (st : Collected) (page_num : nat) (images : list ndarray) : result Collected :=
  match images with
  | [] => Ok st
  | image :: rest =>
      st' <- encrypt_page encryptor shuffle_seed st page_num image ;;
      encrypt_pages encryptor shuffle_seed st' (S page_num) rest
  end.

(** The wrapper image: the first page's ciphertext as a PNG, or no bytes
    when anything in making it raises. *)
Definition wrapper_prefix (st : Collected) : list Z :=
  match encrypted_images st, metadata_list st with
  | image :: _, metadata :: _ =>
      match PixelProcessor.unchunk_pixels image metadata with
      | Ok preview_img =>
          match save_png preview_img with
          | Some png => png
          | None => []
          end
      | Raise _ => []
      end
  | _, _ => []
  end.

(** [encrypt_pdf], from the rendered pages and the time of the call to the
    bytes of the package and the decryption key. *)
Definition encrypt_pdf (images : list ndarray) (original_filename timestamp : string)
  : result (list Z * string) :=
  let encryptor := DCKPES.__init__ original_filename timestamp in
  let shuffle_seed := DCKPES._get_shuffle_seed encryptor in
  st <- encrypt_pages encryptor shuffle_seed (MakeCollected [] [] []) 0 images ;;
  let prefix_bytes := wrapper_prefix st in
  let decryption_key := original_filename +:+ "|" +:+ timestamp in
  package_bytes <- Package.create_encryption_package (encrypted_images st)
                     (metadata_list st) (shuffle_indices_list st) prefix_bytes ;;
  Ok (package_bytes, decryption_key).

(** One turn of the loop over [package['pages']] in [decrypt_pdf]. *)
Definition decrypt_page (encryptor : DCKPES.DCKPESEncryptor) (page_data : Package.Page)
  : result ndarray :=
  let encrypted_chunks := Package.image_data page_data in
  metadata <- dict_get (Package.page_fields page_data) "metadata" ;;
  let shuffle_indices := Package.shuffle_indices page_data in
  decrypted_chunks <- DCKPES.decrypt_pixels encryptor encrypted_chunks ;;
  unshuffled_chunks <- PixelProcessor.unshuffle_chunks decrypted_chunks shuffle_indices ;;
  PixelProcessor.unchunk_pixels unshuffled_chunks metadata.

(** *** What the page loop of [encrypt_pdf] collects *)

(** The page the loop collects for one image: a well-formed page whose
    permutation is the one generated for the seed of that page, and which
    [decrypt_page] turns back into the image when the image is an array of
    bytes of the shape of an image. *)
Definition collected_for (encryptor : DCKPES.DCKPESEncryptor) (shuffle_seed : Z)
    (page_num : nat) (image : ndarray) (page : ndarray * (json * list Z)) : Prop :=
  Package.wf_page page /\
  (exists num_chunks,
     len (fst page) = Ok num_chunks /\
     PixelProcessor.generate_shuffle_indices num_chunks
       (shuffle_seed + Z.of_nat page_num) = Ok (snd (snd page))) /\
  (wf_uint8 image -> image_shape (shape image) ->
   decrypt_page encryptor (Package.created_page page) = Ok image).

Lemma encrypt_page_inv encryptor shuffle_seed st page_num image st' :
  (0 < PixelProcessor.chunk_size pixel_processor)%Z ->
  (Z.of_nat (length (data image)) < 2 ^ 31)%Z ->
  encrypt_page encryptor shuffle_seed st page_num image = Ok st' ->
  exists page,
    st' = MakeCollected (encrypted_images st ++ [fst page])
            (metadata_list st ++ [fst (snd page)])
            (shuffle_indices_list st ++ [snd (snd page)]) /\
    collected_for encryptor shuffle_seed page_num image page.
Proof.
  intros Hcs Hsize. unfold encrypt_page.
  rewrite PixelProcessor.chunk_pixels_Ok by done. cbn [bind fst snd].
  set (cs := PixelProcessor.chunk_size pixel_processor) in *.
  set (size := Z.of_nat (length (data image))) in *.
  destruct (PixelProcessor.padding_of_spec cs size Hcs ltac:(lia)) as (Hpad & Hmul & Hnum).
  set (n := PixelProcessor.num_chunks_of cs size) in *.
  set (chunks := NDArray [n; cs] (dtype_of image) _).
  assert (Hcdims : Forall (fun d => (0 <= d)%Z) (shape chunks)).
  { repeat constructor; simpl; lia. }
  assert (Hcsize : Z.of_nat (length (data chunks)) = prod_list (shape chunks)).
  { subst chunks. simpl. rewrite length_app, length_replicate. fold size. lia. }
  intros Hst. apply bind_Ok in Hst as ([shuffled perm] & Hshuffle & Hst).
  apply bind_Ok in Hst as (enc & Henc & Hst). injection Hst as <-.
  cbn [fst snd] in *.
  unfold PixelProcessor.shuffle_chunks in Hshuffle. cbn [len shape chunks bind] in Hshuffle.
  apply bind_Ok in Hshuffle as (perm' & Hgen & Hshuffle).
  apply bind_Ok in Hshuffle as (shuffled' & Htake & Hshuffle).
  injection Hshuffle as -> ->.
  assert (Hperm : perm ≡ₚ arange n).
  { unfold PixelProcessor.generate_shuffle_indices in Hgen.
    by apply rng_shuffle_perm in Hgen. }
  destruct (take_rows_argsort chunks n [cs] perm eq_refl Hcdims Hcsize Hperm)
    as (s & Htake' & Hshape & Hdt & Hlen & Hkeep & _ & Hback).
  rewrite Htake in Htake'. injection Htake' as <-.
  destruct (DCKPES.encrypt_pixels_inv encryptor shuffled enc)
    as (S & HS & -> & Hlenc & Hbytes); [by rewrite Hshape|congruence|done|].
  exists (NDArray (shape shuffled) UInt8
            (DCKPES.diffuse (bitwise_xor (astype_uint8 (data shuffled)) S)),
          (PixelProcessor.chunk_metadata (shape image) size
             (PixelProcessor.padding_of cs size) n cs, perm)).
  split; [done|]. split; [|split].
  - split; [|split].
    + split; cbn [shape data dtype_of] in *.
      * by rewrite Hshape.
      * rewrite Hlenc, Hlen, Hshape. exact Hcsize.
      * exact Hbytes.
    + apply PixelProcessor.chunk_metadata_plain.
    + apply Forall_forall. intros i Hi. rewrite Hperm in Hi.
      apply arange_in_range in Hi. simpl. lia.
  - exists n. cbn [fst snd]. split; [|done].
    unfold len. cbn [shape]. by rewrite Hshape.
  - intros [Hdims Hisize Hdt8 Hibytes] Himage. unfold decrypt_page.
    cbn [Package.created_page Package.page_fields Package.image_data
         Package.shuffle_indices].
    rewrite Package.page_meta_metadata. cbn [bind].
    rewrite (DCKPES.decrypt_encrypt encryptor shuffled S); [|split|exact HS].
    + cbn [bind]. unfold PixelProcessor.unshuffle_chunks. rewrite Hback. cbn [bind].
      by apply PixelProcessor.unchunk_chunk.
    + by rewrite Hshape.
    + by rewrite Hlen, Hshape.
    + by rewrite Hdt.
    + apply Hkeep. subst chunks. cbn [data]. apply Forall_app. split; [done|].
      by apply Forall_replicate.
Qed.

Lemma encrypt_pages_inv encryptor shuffle_seed images : forall st page_num st',
  (0 < PixelProcessor.chunk_size pixel_processor)%Z ->
  Forall (fun image => (Z.of_nat (length (data image)) < 2 ^ 31)%Z) images ->
  encrypt_pages encryptor shuffle_seed st page_num images = Ok st' ->
  exists pages,
    length pages = length images /\
    encrypted_images st' = encrypted_images st ++ pages.*1 /\
    metadata_list st' = metadata_list st ++ pages.*2.*1 /\
    shuffle_indices_list st' = shuffle_indices_list st ++ pages.*2.*2 /\
    forall i page, pages !! i = Some page ->
      exists image,
        images !! i = Some image /\
        collected_for encryptor shuffle_seed (page_num + i) image page.
Proof.
  induction images as [|image images IH]; intros st page_num st' Hcs Hsizes.
  - simpl. intros [= <-]. exists []. by rewrite !app_nil_r.
  - apply Forall_cons in Hsizes as [Hsize Hsizes]. cbn [encrypt_pages].
    intros Hst. apply bind_Ok in Hst as (st1 & Hpage & Hrest).
    apply encrypt_page_inv in Hpage as (page & -> & Hcol); [|done..].
    apply IH in Hrest as (pages & Hlen & Himgs & Hmds & Hidx & Hall); [|done..].
    cbn [encrypted_images metadata_list shuffle_indices_list] in *.
    exists (page :: pages). rewrite !fmap_cons.
    split; [simpl; by rewrite Hlen|].
    split; [by rewrite Himgs, <- app_assoc|].
    split; [by rewrite Hmds, <- app_assoc|].
    split; [by rewrite Hidx, <- app_assoc|].
    intros [|i] pg; simpl.
    + intros [= <-]. exists image. by rewrite Nat.add_0_r.
    + intros Hi. replace (page_num + S i) with (S page_num + i) by lia. by apply Hall.
Qed.

(** The wrapper image is a tolerated prefix when the PNG encoder's output
    is. *)
Lemma wrapper_prefix_ok st :
  (forall image png, save_png image = Some png -> Package.prefix_ok png) ->
  Package.prefix_ok (wrapper_prefix st).
Proof.
  intros Hpng. unfold wrapper_prefix.
  assert (Hnil : Package.prefix_ok []) by (by vm_compute).
  destruct (encrypted_images st) as [|image ?]; [done|].
  destruct (metadata_list st) as [|metadata ?]; [done|].
  destruct (PixelProcessor.unchunk_pixels image metadata) as [preview|]; [|done].
  destruct (save_png preview) as [png|] eqn:Hsave; [by eapply Hpng|done].
Qed.

(** The package [encrypt_pdf] writes holds, for each page, the permutation
    generated for the seed [shuffle_seed + page_num]. *)
Lemma encrypt_pdf_package images original_filename timestamp package_bytes key :
  (0 < PixelProcessor.chunk_size pixel_processor)%Z ->
  Forall (fun image => (Z.of_nat (length (data image)) < 2 ^ 31)%Z) images ->
  (forall image png, save_png image = Some png -> Package.prefix_ok png) ->
  encrypt_pdf images original_filename timestamp = Ok (package_bytes, key) ->
  key = original_filename +:+ "|" +:+ timestamp /\
  exists pages,
    length pages = length images /\
    Package.extract_encryption_package package_bytes =
      Ok (Package.MakePackage (Package.package_meta (length pages) pages)
            (Package.created_page <$> pages)) /\
    forall i page, pages !! i = Some page ->
      exists image,
        images !! i = Some image /\
        collected_for (DCKPES.__init__ original_filename timestamp)
          (DCKPES._get_shuffle_seed (DCKPES.__init__ original_filename timestamp))
          i image page.
Proof.
  intros Hcs Hsizes Hpng. unfold encrypt_pdf. intros Henc.
  apply bind_Ok in Henc as (st & Hpages & Henc).
  apply bind_Ok in Henc as (bytes & Hcreate & Henc). injection Henc as -> <-.
  split; [done|].
  apply encrypt_pages_inv in Hpages as (pages & Hlen & Himgs & Hmds & Hidx & Hall);
    [|done..].
  cbn [encrypted_images metadata_list shuffle_indices_list app] in *.
  exists pages. split; [done|]. split; [|exact Hall].
  assert (Hzip : zip (encrypted_images st)
                   (zip (metadata_list st) (shuffle_indices_list st)) = pages).
  { rewrite Himgs, Hmds, Hidx. by rewrite zip_fst_snd, zip_fst_snd. }
  assert (Hwf : Forall Package.wf_page pages).
  { apply Forall_lookup. intros i page Hi.
    by destruct (Hall i page Hi) as (image & _ & Hwf & _). }
  assert (Hil : length (encrypted_images st) = length pages).
  { by rewrite Himgs, length_fmap. }
  pose proof (Package.create_encryption_package_Ok_inv _ _ _ _ _ Hcreate) as Hmeta.
  destruct (Package.extract_create (encrypted_images st) (metadata_list st)
              (shuffle_indices_list st) (wrapper_prefix st))
    as (bytes' & Hcreate' & Hextract).
  - exact Hmeta.
  - by rewrite Hzip.
  - by apply wrapper_prefix_ok.
  - rewrite Hcreate in Hcreate'. injection Hcreate' as <-.
    by rewrite Hextract, Hzip, Hil.
Qed.

(** [decrypt_pdf], up to the list of decrypted images. *)
Definition decrypt_images (encrypted_bytes : list Z) (decryption_key : string)
  : result (list ndarray * string) :=
  match split_bar decryption_key with
  | [filename; timestamp_str] =>
      package <- Package.extract_encryption_package encrypted_bytes ;;
      match fromisoformat timestamp_str with
      | Some timestamp =>
          let encryptor := DCKPES.__init__ filename timestamp in
          decrypted_images <- map_result (decrypt_page encryptor) (Package.pages package) ;;
          Ok (decrypted_images, filename)
      | None => Raise (ValueError "Failed to initialize decryptor from key")
      end
  | _ => Raise (ValueError "Invalid decryption key format: Invalid key format")
  end.

(** [decrypt_pdf(encrypted_bytes, decryption_key)]: the bytes of the PDF,
    the number of pages and the file name. *)
Definition decrypt_pdf (encrypted_bytes : list Z) (decryption_key : string)
  : result (list Z * (nat * string)) :=
  decrypted <- decrypt_images encrypted_bytes decryption_key ;;
  pdf_bytes <- images_to_pdf (fst decrypted) ;;
  Ok (pdf_bytes, (length (fst decrypted), snd decrypted)).

End Orchestrator.
End Orchestrator.

(** ** Example inputs *)

(** The encryptor of [doc.pdf] at midnight, 1 January 2024. *)
Definition doc_encryptor : DCKPES.DCKPESEncryptor :=
  DCKPES.__init__ "doc.pdf" "2024-01-01T00:00:00".

(** A 2 x 3 array of bytes and the keystream of its six cells. *)
Definition six_pixels : ndarray := NDArray [2; 3]%Z UInt8 [10; 20; 30; 40; 50; 255]%Z.
Definition six_keystream : list Z := [239; 58; 180; 209; 148; 247]%Z.

Lemma six_pixels_wf : wf_uint8 six_pixels.
Proof.
  split; simpl; [repeat constructor; lia|done|done|].
  repeat constructor; unfold is_byte; lia.
Qed.

Example doc_encryptor_encrypts :
  DCKPES.encrypt_pixels doc_encryptor six_pixels =
  Ok (NDArray [2; 3]%Z UInt8 [229; 203; 97; 152; 62; 54]%Z).
Proof. vm_compute. reflexivity. Qed.

(** A stand-in for numpy's generator in the examples: it rejects a seed
    outside [0, 2^32) and otherwise rotates the array by the seed. *)
Definition rotation_shuffle (seed : Z) (x : list Z) : result (list Z) :=
  if ((0 <=? seed) && (seed <? 2 ^ 32))%Z
  then Ok (rotate (Z.to_nat (seed mod Z.of_nat (length x))) x)
  else Raise (ValueError "Seed must be between 0 and 2**32 - 1").

Lemma rotation_shuffle_perm seed x y : rotation_shuffle seed x = Ok y -> y ≡ₚ x.
Proof.
  unfold rotation_shuffle. destruct (_ && _)%bool; [|done]. intros [= <-].
  unfold rotate. rewrite Permutation_app_comm. by rewrite take_drop.
Qed.

Definition rotation_generator : RandomState :=
  Build_RandomState rotation_shuffle rotation_shuffle_perm.

Lemma rotation_seed_range : SeedRange rotation_generator.
Proof.
  split; intros seed x Hseed; cbn [rng_shuffle rotation_generator];
    unfold rotation_shuffle.
  - rewrite (proj2 (Z.leb_le 0 seed)), (proj2 (Z.ltb_lt seed _)) by lia. by eexists.
  - destruct (Z.leb_spec 0 seed); [|done].
    by rewrite (proj2 (Z.ltb_ge seed _)) by lia.
Qed.

(** Three chunks of two bytes. *)
Definition three_chunks : ndarray := NDArray [3; 2]%Z UInt8 [1; 2; 3; 4; 5; 6]%Z.

Example rotation_shuffles :
  @PixelProcessor.shuffle_chunks rotation_generator three_chunks 1 =
  Ok (NDArray [3; 2]%Z UInt8 [3; 4; 5; 6; 1; 2]%Z, [1; 2; 0]%Z).
Proof. vm_compute. reflexivity. Qed.

(** The metadata of a one-chunk page and a package of one page. *)
Definition three_chunks_metadata : json :=
  PixelProcessor.chunk_metadata [1; 2; 3]%Z 6 26 1 32.

(** Two pages for the orchestrator, a processor with chunks of two bytes,
    and a stand-in for the PNG encoder. *)
Definition five_pixels : ndarray := NDArray [1; 5]%Z UInt8 [10; 20; 30; 40; 50]%Z.
Definition four_pixels : ndarray := NDArray [2; 2]%Z UInt8 [1; 2; 3; 4]%Z.
Definition two_byte_chunks : PixelProcessor.PixelProcessor :=
  PixelProcessor.__init__ None (Some 2%Z).
Definition stub_png (image : ndarray) : option (list Z) := Some (encode "PNG").

(** The package of the two pages, encrypted as [doc.pdf] at midnight. *)
Definition two_page_package : list Z :=
  Eval vm_compute in
  match @Orchestrator.encrypt_pdf rotation_generator stub_png two_byte_chunks
          [five_pixels; four_pixels] "doc.pdf" "2024-01-01T00:00:00" with
  | Ok (package_bytes, _) => package_bytes
  | Raise _ => []
  end.

(** The package of a document of no page. *)
Definition empty_package : list Z :=
  Eval vm_compute in
  match Package.create_encryption_package [] [] [] [] with
  | Ok package_bytes => package_bytes
  | Raise _ => []
  end.

(** Another encryptor, and a 2 x 2 array of 32-bit integers, which is the
    array of an image of mode I. *)
Definition other_encryptor : DCKPES.DCKPESEncryptor :=
  DCKPES.__init__ "other.pdf" "2025-06-30T12:00:00".
Definition four_ints : ndarray := NDArray [2; 2]%Z Int32 [256; -1; 1000; 7]%Z.

(** A 100 x 100 RGB image, all of one grey. *)
Definition rgb_100x100 : ndarray :=
  NDArray [100; 100; 3]%Z UInt8 (replicate (Z.to_nat 30000) 128%Z).

(** A package of the one page [three_chunks] with a given permutation
    stored for it. *)
Definition one_page_package (shuffle_idx : list Z) : list Z :=
  match Package.create_encryption_package [three_chunks] [three_chunks_metadata]
          [shuffle_idx] [] with
  | Ok package_bytes => package_bytes
  | Raise _ => []
  end.

Definition one_page (shuffle_idx : list Z) : Package.Page :=
  Package.created_page (three_chunks, (three_chunks_metadata, shuffle_idx)).

Example one_page_package_extracts shuffle_idx :
  shuffle_idx = [0; 1; 2]%Z \/ shuffle_idx = [1; 2; 0]%Z ->
  Package.extract_encryption_package (one_page_package shuffle_idx) =
  Ok (Package.MakePackage
        (Package.package_meta 1 [(three_chunks, (three_chunks_metadata, shuffle_idx))])
        [one_page shuffle_idx]).
Proof. intros [-> | ->]; vm_compute; reflexivity. Qed.

(** * The claims *)

Import DCKPES.

(** The two passes of [encrypt_pixels] for a keystream [S] that the
    generator returned. *)
Lemma encrypt_pixels_passes (self : DCKPESEncryptor) (X : ndarray) (S : list Z) :
  wf_uint8 X ->
  _generate_chaos_sequence self (length (flatten X)) = Ok S ->
  let flat := astype_uint8 (flatten X) in
  let intermediate := bitwise_xor flat S in
  length S = length flat /\
  length intermediate = length flat /\
  (forall i, i < length flat ->
     intermediate !!! i = Z.lxor (flat !!! i) (S !!! i)) /\
  exists out,
    encrypt_pixels self X = Ok out /\
    shape out = shape X /\
    length (data out) = length flat /\
    data out !!! 0 = intermediate !!! 0 /\
    (forall i, 1 <= i < length flat ->
       data out !!! i = Z.lxor (intermediate !!! i) (data out !!! (i - 1))).
Proof.
  intros [Hdims Hsize Hdt Hbytes] HS flat intermediate.
  assert (HlenS : length S = length flat).
  { apply generate_chaos_sequence_length in HS.
    subst flat. by rewrite length_astype_uint8. }
  assert (Hlen : length intermediate = length flat).
  { subst intermediate. unfold bitwise_xor. by rewrite length_zip_with_l_eq. }
  split; [done|]. split; [done|]. split.
  { intros i Hi. by apply bitwise_xor_lookup. }
  destruct (diffuse_spec intermediate) as (Hdl & Hd0 & Hdrec).
  exists (NDArray (shape X) UInt8 (diffuse intermediate)).
  unfold encrypt_pixels. rewrite length_astype_uint8, HS. simpl.
  rewrite reshape_wf; [|done|].
  2:{ fold flat. fold intermediate. rewrite Hdl, Hlen. subst flat.
      by rewrite length_astype_uint8. }
  simpl. split; [done|]. split; [done|]. split; [congruence|].
  split; [done|]. intros i Hi. apply Hdrec. lia.
Qed.

(** C7. [encrypt_pixels] is the two stated passes. For a byte buffer [X]
    and a seed between zero and one (every seed that key derivation
    produces is), the generator returns a keystream [S] as long as the
    flattened buffer; the elementwise XOR of the flattened bytes with [S]
    gives the intermediate buffer, and the output is its running XOR:
    [out[0] = intermediate[0]] and [out[i] = intermediate[i] XOR out[i-1]]
    for every [i >= 1]; the result keeps the shape of the input. *)
Theorem encrypt_pixels_two_passes (self : DCKPESEncryptor) (X : ndarray) :
  wf_uint8 X ->
  FloatBounds.unit_float (chaos_seed self) = true ->
  let flat := astype_uint8 (flatten X) in
  exists S,
    _generate_chaos_sequence self (length flat) = Ok S /\
    let intermediate := bitwise_xor flat S in
    length S = length flat /\
    length intermediate = length flat /\
    (forall i, i < length flat ->
       intermediate !!! i = Z.lxor (flat !!! i) (S !!! i)) /\
    exists out,
      encrypt_pixels self X = Ok out /\
      shape out = shape X /\
      length (data out) = length flat /\
      data out !!! 0 = intermediate !!! 0 /\
      (forall i, 1 <= i < length flat ->
         data out !!! i = Z.lxor (intermediate !!! i) (data out !!! (i - 1))).
Proof.
  intros Hwf Hseed flat.
  destruct (FloatBounds.generate_chaos_sequence_total self (length (flatten X))
              (FloatBounds.unit_float_in_unit _ Hseed)) as [S HS].
  exists S. split.
  - subst flat. by rewrite length_astype_uint8.
  - exact (encrypt_pixels_passes self X S Hwf HS).
Qed.

Lemma encrypt_pixels_two_passes_witness :
  let flat := astype_uint8 (flatten six_pixels) in
  exists S,
    _generate_chaos_sequence doc_encryptor (length flat) = Ok S /\
    let intermediate := bitwise_xor flat S in
    length S = length flat /\
    length intermediate = length flat /\
    (forall i, i < length flat ->
       intermediate !!! i = Z.lxor (flat !!! i) (S !!! i)) /\
    exists out,
      encrypt_pixels doc_encryptor six_pixels = Ok out /\
      shape out = shape six_pixels /\
      length (data out) = length flat /\
      data out !!! 0 = intermediate !!! 0 /\
      (forall i, 1 <= i < length flat ->
         data out !!! i = Z.lxor (intermediate !!! i) (data out !!! (i - 1))).
Proof.
  apply (encrypt_pixels_two_passes doc_encryptor six_pixels).
  - exact six_pixels_wf.
  - vm_compute. reflexivity.
Defined.

(** C1. For a byte buffer [X] of any shape and a seed between zero and
    one (every seed that key derivation produces is), [encrypt_pixels]
    returns, and [decrypt_pixels] of its result, with the keystream
    regenerated from the same seed, is [X]. *)
Theorem decrypt_encrypt_pixels (self : DCKPESEncryptor) (X : ndarray) :
  wf_uint8 X ->
  FloatBounds.unit_float (chaos_seed self) = true ->
  exists E,
    encrypt_pixels self X = Ok E /\
    decrypt_pixels self E = Ok X.
Proof.
  intros Hwf Hseed.
  destruct (FloatBounds.generate_chaos_sequence_total self (length (flatten X))
              (FloatBounds.unit_float_in_unit _ Hseed)) as [S HS].
  eexists. split.
  - apply (DCKPES.encrypt_pixels_Ok self X S); [apply Hwf..|exact HS].
  - by apply (DCKPES.decrypt_encrypt self X S).
Qed.

Lemma decrypt_encrypt_pixels_witness :
  exists E,
    encrypt_pixels doc_encryptor six_pixels = Ok E /\
    decrypt_pixels doc_encryptor E = Ok six_pixels.
Proof.
  apply (decrypt_encrypt_pixels doc_encryptor six_pixels).
  - exact six_pixels_wf.
  - vm_compute. reflexivity.
Defined.

(** The keystream as the specification words it, to compare the code
    with. Its logistic map [x_{n+1} = 3.99 * x_n * (1 - x_n)], on doubles: *)
Definition spec_logistic (x : float) : float :=
  (0x1.feb851eb851ecp+1 * x * (1 - x))%float.

(** for each of the [n] requested bytes, iterate once and emit
    [floor(x * 255) mod 256]; *)
Fixpoint spec_emit (x : float) (n : nat) : result (list Z) :=
  match n with
  | O => Ok []
  | S n =>
      let x := spec_logistic x in
      b <- float_floor (x * 255)%float ;;
      rest <- spec_emit x n ;;
      Ok ((b mod 256)%Z :: rest)
  end.

(** and the keystream of length [n] for the seed [x0]: discard 100
    burn-in iterations, then emit [n] bytes. *)
Definition spec_keystream (x0 : float) (n : nat) : result (list Z) :=
  spec_emit (Nat.iter 100 spec_logistic x0) n.

Lemma spec_logistic_iter x n : Nat.iter n spec_logistic x = logistic_orbit x n.
Proof. induction n as [|n IH]; [done|]. simpl. by rewrite IH. Qed.

Lemma spec_emit_closed n : forall x,
  FloatBounds.in_unit x ->
  spec_emit x n = map_result (fun i => chaos_byte (logistic_orbit x (S i))) (seq 0 n).
Proof.
  induction n as [|n IH]; intros x Hx; [done|].
  cbn [spec_emit]. rewrite <- cons_seq, <- fmap_S_seq.
  cbn [map_result]. rewrite map_result_fmap.
  change (spec_logistic x) with (logistic_orbit x 1).
  pose proof (FloatBounds.logistic_orbit_in_unit x 1 Hx) as Hx1.
  destruct (FloatBounds.chaos_byte_in_unit _ Hx1) as (v & -> & ->). cbn [bind].
  rewrite (IH _ Hx1).
  rewrite (map_result_ext (fun i => chaos_byte (logistic_orbit x (S (S i))))
             (fun i => chaos_byte (logistic_orbit (logistic_orbit x 1) (S i)))); [done|].
  intros i. f_equal. symmetry. exact (logistic_orbit_add x 1 (S i)).
Qed.

(** For a seed of the unit interval the code's generator is the
    specification's. *)
Lemma generate_chaos_sequence_spec (self : DCKPESEncryptor) (n : nat) :
  FloatBounds.in_unit (chaos_seed self) ->
  _generate_chaos_sequence self n = spec_keystream (chaos_seed self) n.
Proof.
  intros Hseed. rewrite generate_chaos_sequence_closed. unfold spec_keystream.
  rewrite spec_logistic_iter.
  rewrite spec_emit_closed by (by apply FloatBounds.logistic_orbit_in_unit).
  apply map_result_ext. intros i. by rewrite logistic_orbit_add.
Qed.

(** C6. The keystream generator follows the stated algorithm. For a seed
    between zero and one (every seed that key derivation produces is) and
    every length [n], [_generate_chaos_sequence] returns exactly the
    keystream of the specification: the logistic map
    [x_{n+1} = 3.99 * x_n * (1 - x_n)] iterated 100 times from the seed, and
    then for each byte one more iteration and [floor(x * 255) mod 256]. The
    result has [n] bytes, and it depends on the encryptor through its seed
    only, so that two calls with the same seed and length give the same
    bytes. *)
Theorem chaos_sequence_follows_spec (self : DCKPESEncryptor) (n : nat) :
  FloatBounds.unit_float (chaos_seed self) = true ->
  _generate_chaos_sequence self n = spec_keystream (chaos_seed self) n /\
  (exists s,
     _generate_chaos_sequence self n = Ok s /\ length s = n /\ Forall is_byte s) /\
  (forall self' : DCKPESEncryptor,
     chaos_seed self' = chaos_seed self ->
     _generate_chaos_sequence self' n = _generate_chaos_sequence self n).
Proof.
  intros Hseed%FloatBounds.unit_float_in_unit. split; [|split].
  - by apply generate_chaos_sequence_spec.
  - destruct (FloatBounds.generate_chaos_sequence_total self n Hseed) as [s Hs].
    exists s. split; [done|]. split.
    + by apply (generate_chaos_sequence_length self).
    + by apply (chaos_sequence_is_byte self n).
  - intros self' Heq. unfold _generate_chaos_sequence. by rewrite Heq.
Qed.

Lemma chaos_sequence_follows_spec_witness :
  _generate_chaos_sequence doc_encryptor 6 = spec_keystream (chaos_seed doc_encryptor) 6 /\
  (exists s,
     _generate_chaos_sequence doc_encryptor 6 = Ok s /\ length s = 6 /\
     Forall is_byte s) /\
  (forall self' : DCKPESEncryptor,
     chaos_seed self' = chaos_seed doc_encryptor ->
     _generate_chaos_sequence self' 6 = _generate_chaos_sequence doc_encryptor 6).
Proof.
  apply (chaos_sequence_follows_spec doc_encryptor 6).
  vm_compute. reflexivity.
Defined.




(** C2, as stated, fails: not every seed is one the generator takes. On
    the seed 2^32, as on every seed outside 0 .. 2^32 - 1, the generator
    raises [ValueError] and [shuffle_chunks] with it, so there is no
    shuffled array to unshuffle. *)
Lemma shuffle_rejects_seed_outside_range :
  (forall (R : RandomState), SeedRange R ->
     forall (C : ndarray) (seed n : Z) (rest : list Z),
       shape C = n :: rest ->
       ~ (0 <= seed < 2 ^ 32)%Z ->
       @PixelProcessor.shuffle_chunks R C seed
         = Raise (ValueError "Seed must be between 0 and 2**32 - 1")) /\
  @PixelProcessor.shuffle_chunks rotation_generator three_chunks (2 ^ 32)
    = Raise (ValueError "Seed must be between 0 and 2**32 - 1").
Proof.
  split; [|reflexivity].
  intros R HR C seed n rest Hshape Hseed.
  unfold PixelProcessor.shuffle_chunks, len. rewrite Hshape. cbn [bind].
  unfold PixelProcessor.generate_shuffle_indices.
  by rewrite rng_seed_rejected.
Qed.

(** C2, amended. For a chunk array [C] and a seed from 0 to 2^32 - 1,
    [shuffle_chunks] returns the seeded permutation [perm] of
    [arange num_chunks] and the array whose row [i] is row [perm[i]] of
    [C], and [unshuffle_chunks], which indexes by [argsort perm], gives
    [C] back; on any other seed [shuffle_chunks] raises [ValueError]. *)
Theorem unshuffle_shuffle_chunks `{R : RandomState} `{!SeedRange R}
    (C : ndarray) (seed n : Z) (rest : list Z) :
  shape C = n :: rest ->
  Forall (fun d => (0 <= d)%Z) (shape C) ->
  Z.of_nat (length (data C)) = prod_list (shape C) ->
  ((0 <= seed < 2 ^ 32)%Z ->
   exists perm shuffled,
     PixelProcessor.generate_shuffle_indices n seed = Ok perm /\
     perm ≡ₚ arange n /\
     PixelProcessor.shuffle_chunks C seed = Ok (shuffled, perm) /\
     shape shuffled = shape C /\
     (forall i, i < length perm ->
        row (Z.to_nat (prod_list rest)) (data shuffled) i =
        row (Z.to_nat (prod_list rest)) (data C) (Z.to_nat (perm !!! i))) /\
     PixelProcessor.unshuffle_chunks shuffled perm = Ok C) /\
  (~ (0 <= seed < 2 ^ 32)%Z ->
   PixelProcessor.shuffle_chunks C seed
     = Raise (ValueError "Seed must be between 0 and 2**32 - 1")).
Proof.
  intros Hshape Hdims Hsize. split.
  - intros Hseed.
    destruct (rng_seed_accepted seed (arange n) Hseed) as [perm Hgen].
    change (rng_shuffle seed (arange n))
      with (PixelProcessor.generate_shuffle_indices n seed) in Hgen.
    assert (Hperm : perm ≡ₚ arange n).
    { unfold PixelProcessor.generate_shuffle_indices in Hgen.
      by apply rng_shuffle_perm in Hgen. }
    destruct (take_rows_argsort C n rest perm Hshape Hdims Hsize Hperm)
      as (s & Htake & Hs & _ & _ & _ & Hrow & Hinv).
    exists perm, s. split; [done|]. split; [done|].
    unfold PixelProcessor.shuffle_chunks, len. rewrite Hshape. simpl.
    rewrite Hgen. simpl. rewrite Htake. simpl.
    split; [done|]. split; [congruence|]. split; [done|].
    exact Hinv.
  - intros Hseed.
    unfold PixelProcessor.shuffle_chunks, len. rewrite Hshape. cbn [bind].
    unfold PixelProcessor.generate_shuffle_indices.
    by rewrite rng_seed_rejected.
Qed.

Lemma unshuffle_shuffle_chunks_witness :
  exists perm shuffled,
    @PixelProcessor.generate_shuffle_indices rotation_generator 3 1 = Ok perm /\
    perm ≡ₚ arange 3 /\
    @PixelProcessor.shuffle_chunks rotation_generator three_chunks 1
      = Ok (shuffled, perm) /\
    shape shuffled = shape three_chunks /\
    (forall i, i < length perm ->
       row 2 (data shuffled) i =
       row 2 (data three_chunks) (Z.to_nat (perm !!! i))) /\
    PixelProcessor.unshuffle_chunks shuffled perm = Ok three_chunks.
Proof.
  apply (@unshuffle_shuffle_chunks rotation_generator rotation_seed_range
           three_chunks 1 3 [2%Z]).
  - reflexivity.
  - simpl. repeat constructor; lia.
  - reflexivity.
  - lia.
Defined.

(** C5. Key derivation is the stated function of the file name and the
    timestamp string: with [hash = SHA-256(filename + "|" + timestamp)], the
    key is [hash[0:16]], the chaos seed is
    [0.1 + 0.8 * ((bigEndianUint64(hash[16:24]) mod 1000000) / 1000000)] and
    the shuffle seed base is [bigEndianUint32(key[0:4])], a 32-bit value;
    a second derivation from the same inputs yields the same three. *)
Theorem key_derivation (filename timestamp : string) :
  let unique := filename +:+ "|" +:+ timestamp in
  let hash := SHA256.sha256 (encode unique) in
  let seedInt := big_endian_uint (take 8 (drop 16 hash)) in
  let self := DCKPES.__init__ filename timestamp in
  key self = take 16 hash /\
  length (key self) = 16 /\
  chaos_seed self =
    (0x1.999999999999ap-4 +
     0x1.999999999999ap-1 * (float_of_int (seedInt mod 1000000) / 1000000))%float /\
  _get_shuffle_seed self = big_endian_uint (take 4 (key self)) /\
  (0 <= _get_shuffle_seed self < 2 ^ 32)%Z /\
  (forall self', self' = DCKPES.__init__ filename timestamp ->
     key self' = key self /\
     chaos_seed self' = chaos_seed self /\
     _get_shuffle_seed self' = _get_shuffle_seed self).
Proof.
  intros unique hash seedInt self.
  assert (Hkey : key self = take 16 hash) by reflexivity.
  split; [done|].
  split. { rewrite Hkey, length_take. subst hash. rewrite length_sha256. lia. }
  split.
  { change (chaos_seed self) with (snd (_generate_keys filename timestamp)).
    rewrite generate_keys_seed. fold unique. fold hash.
    rewrite int_from_bytes_big_spec. fold seedInt.
    unfold chaos_seed_of. by rewrite float_mul_comm. }
  split. { unfold _get_shuffle_seed. apply int_from_bytes_big_spec. }
  split.
  { unfold _get_shuffle_seed. rewrite int_from_bytes_big_spec.
    assert (Hb : Forall is_byte (take 4 (key self))).
    { rewrite Hkey. apply Forall_take, Forall_take. apply sha256_is_byte. }
    pose proof (big_endian_uint_bound _ Hb) as Hbound.
    assert (Hlen : length (take 4 (key self)) = 4).
    { rewrite Hkey, !length_take. subst hash. rewrite length_sha256. lia. }
    rewrite Hlen in Hbound. exact Hbound. }
  by intros self' ->.
Qed.

(** C10, as stated, fails: for the file [doc.pdf] encrypted at
    2024-01-01T00:00:00.208738 the hash bytes 16..24 are a multiple of
    1000000, the chaos seed is the double 0.1 itself, and [0.1 < seed] is
    false. *)
Lemma chaos_seed_on_lower_bound :
  let self := DCKPES.__init__ "doc.pdf" "2024-01-01T00:00:00.208738" in
  chaos_seed self = 0x1.999999999999ap-4%float /\
  seed_in_open_range (chaos_seed self) = false.
Proof. vm_compute. split; reflexivity. Qed.

Lemma positive_residues_above_lower_bound :
  residues_ok (fun x => (0x1.999999999999ap-4 <? x)%float) (Z.to_nat 999999) 1 = true.
Proof. vm_compute. reflexivity. Qed.

(** C10, amended. For every file name and timestamp the chaos seed lies in
    the half-open interval [0.1, 0.9): [0.1 <= seed] and [seed < 0.9] as
    doubles. It is the double 0.1 when the hash bytes 16..24, read as an
    integer, are a multiple of 1000000, and greater than 0.1 when they are
    not. *)
Theorem chaos_seed_in_range (filename timestamp : string) :
  let seed := chaos_seed (DCKPES.__init__ filename timestamp) in
  let seed_int :=
    int_from_bytes_big
      (take 8 (drop 16 (SHA256.sha256 (encode (filename +:+ "|" +:+ timestamp))))) in
  seed_in_range seed = true /\
  ((seed_int mod 1000000 = 0)%Z -> seed = 0x1.999999999999ap-4%float) /\
  ((seed_int mod 1000000 <> 0)%Z -> (0x1.999999999999ap-4 <? seed)%float = true).
Proof.
  intros seed seed_int.
  assert (Hseed : seed = chaos_seed_of (seed_int mod 1000000)).
  { subst seed seed_int.
    change (chaos_seed (DCKPES.__init__ filename timestamp))
      with (snd (_generate_keys filename timestamp)).
    apply generate_keys_seed. }
  pose proof (Z.mod_pos_bound seed_int 1000000 ltac:(lia)) as Hres.
  rewrite Hseed. split; [by apply chaos_seed_of_in_range|]. split.
  - intros ->. vm_compute. reflexivity.
  - intros Hne.
    apply (residues_ok_spec (fun x => (0x1.999999999999ap-4 <? x)%float)
             (Z.to_nat 999999) 1%Z (seed_int mod 1000000)).
    + apply positive_residues_above_lower_bound.
    + lia.
Qed.

Lemma chaos_seed_in_range_witness :
  chaos_seed (DCKPES.__init__ "doc.pdf" "2024-01-01T00:00:00.208738")
    = 0x1.999999999999ap-4%float.
Proof.
  apply (chaos_seed_in_range "doc.pdf" "2024-01-01T00:00:00.208738").
  vm_compute. reflexivity.
Defined.

(** C8. [extract_encryption_package] raises [InvalidFormat] exactly when
    the buffer holds no occurrence of the six bytes of [AARTHA]; when the
    byte after the first occurrence is a version other than 1 it raises
    [UnsupportedVersion]; and when that byte is 1 it raises neither. *)
Theorem extract_package_errors (b : list Z) :
  (Package.extract_encryption_package b = Raise Package.InvalidFormat <->
   forall i, take 6 (drop i b) <> Package.MAGIC) /\
  (forall (p : nat) (version : Z),
     first_occurrence Package.MAGIC b p ->
     b !! (p + 6) = Some version ->
     version <> 1%Z ->
     Package.extract_encryption_package b
       = Raise (Package.UnsupportedVersion version)) /\
  (forall (p : nat),
     first_occurrence Package.MAGIC b p ->
     b !! (p + 6) = Some 1%Z ->
     Package.extract_encryption_package b <> Raise Package.InvalidFormat /\
     forall version,
       Package.extract_encryption_package b
         <> Raise (Package.UnsupportedVersion version)).
Proof.
  split; [|split].
  - change 6 with (length Package.MAGIC). rewrite <- bytes_find_none. split.
    + intros Hraise.
      destruct (decide (bytes_find b Package.MAGIC = (-1)%Z)) as [|Hsome]; [done|].
      exfalso.
      assert (Hp : exists p : nat, bytes_find b Package.MAGIC = Z.of_nat p).
      { unfold bytes_find in *.
        destruct (find_from Package.MAGIC b 0) as [p|]; [by exists p|done]. }
      destruct Hp as [p Hp].
      destruct (b !! (p + 6)) as [version|] eqn:Hv.
      * destruct (Package.extract_at_magic b p version Hp Hv) as [Hne Heq].
        destruct (decide (version = 1%Z)) as [H1|H1].
        -- destruct (Heq H1 _ Hraise) as [Hinv _]. by apply Hinv.
        -- rewrite (Hne H1) in Hraise. discriminate.
      * unfold Package.extract_encryption_package in Hraise. rewrite Hp in Hraise.
        rewrite (proj2 (Z.eqb_neq _ _)) in Hraise by lia.
        rewrite slice_beyond in Hraise.
        2:{ apply lookup_ge_None in Hv. lia. }
        simpl in Hraise. discriminate.
    + intros Hnone. unfold Package.extract_encryption_package. by rewrite Hnone.
  - intros p version Hp Hv Hne. apply bytes_find_first_occurrence in Hp.
    by apply (Package.extract_at_magic b p version Hp Hv).
  - intros p Hp Hv. apply bytes_find_first_occurrence in Hp.
    destruct (Package.extract_at_magic b p 1%Z Hp Hv) as [_ Hforeign].
    split.
    + intros Hraise. destruct (Hforeign eq_refl _ Hraise) as [Hinv _]. by apply Hinv.
    + intros version Hraise.
      destruct (Hforeign eq_refl _ Hraise) as [_ Hver]. by apply (Hver version).
Qed.

(** C4, as stated, fails: the prefix [AARTH] does not contain the magic
    token, yet with the header it reads [AARTHAARTHA]: the first
    occurrence of the token starts in the prefix, the byte after it is the
    [A] of the real header, and extraction raises [UnsupportedVersion]. *)
Lemma prefix_AARTH_not_tolerated :
  (forall i, take 6 (drop i (encode "AARTH")) <> Package.MAGIC) /\
  match Package.create_encryption_package [three_chunks] [three_chunks_metadata]
          [[1; 2; 0]%Z] (encode "AARTH") with
  | Ok package_bytes =>
      Package.extract_encryption_package package_bytes
        = Raise (Package.UnsupportedVersion 65)
  | Raise _ => False
  end.
Proof.
  split.
  - apply (bytes_find_none (encode "AARTH") Package.MAGIC). vm_compute. reflexivity.
  - vm_compute. reflexivity.
Qed.

(** C4, amended. For pages whose arrays match their shape and element
    type, whose permutation entries fit 32 bits and whose metadata is
    plain, with less than 4 GiB of metadata, and for a prefix that neither
    contains [AARTHA] nor ends with [AARTH], extraction of the created
    package recovers, page by page, the array, the permutation and the
    metadata that were encoded; the result is the same as with no prefix,
    so the prefix is no part of the payload. *)
Theorem extract_create_package (encrypted_images : list ndarray)
    (metadata_list : list json) (shuffle_indices_list : list (list Z))
    (prefix_bytes : list Z) :
  let pages := zip encrypted_images (zip metadata_list shuffle_indices_list) in
  let meta := Package.package_meta (length encrypted_images) pages in
  Forall Package.wf_page pages ->
  (Z.of_nat (length (encode (Json.dumps meta))) < 2 ^ 32)%Z ->
  (forall i, take 6 (drop i prefix_bytes) <> Package.MAGIC) ->
  ~ encode "AARTH" `suffix_of` prefix_bytes ->
  exists package_bytes package,
    Package.create_encryption_package encrypted_images metadata_list
      shuffle_indices_list prefix_bytes = Ok package_bytes /\
    Package.extract_encryption_package package_bytes = Ok package /\
    length (Package.pages package) = length pages /\
    (forall i img md idx,
       pages !! i = Some (img, (md, idx)) ->
       exists page,
         Package.pages package !! i = Some page /\
         Package.image_data page = img /\
         tobytes (Package.image_data page) = tobytes img /\
         Package.shuffle_indices page = idx /\
         dict_get (Package.page_fields page) "metadata" = Ok md) /\
    (exists bare_bytes,
       Package.create_encryption_package encrypted_images metadata_list
         shuffle_indices_list [] = Ok bare_bytes /\
       Package.extract_encryption_package bare_bytes = Ok package).
Proof.
  intros pages meta Hpages Hlen Hno Hsuf.
  destruct (Package.extract_create encrypted_images metadata_list shuffle_indices_list
              prefix_bytes Hlen Hpages) as (package_bytes & Hcreate & Hextract).
  { by apply Package.prefix_ok_iff. }
  destruct (Package.extract_create encrypted_images metadata_list shuffle_indices_list
              [] Hlen Hpages) as (bare_bytes & Hcreate0 & Hextract0).
  { by vm_compute. }
  exists package_bytes, (Package.MakePackage meta (Package.created_page <$> pages)).
  split; [done|]. split; [done|]. split; [simpl; by rewrite length_fmap|].
  split; [|by exists bare_bytes].
  intros i img md idx Hi. exists (Package.created_page (img, (md, idx))).
  split. { simpl. rewrite list_lookup_fmap. fold pages. by rewrite Hi. }
  by repeat split.
Qed.

Lemma extract_create_package_witness :
  exists package_bytes package,
    Package.create_encryption_package [three_chunks] [three_chunks_metadata]
      [[1; 2; 0]%Z] (encode "PNG") = Ok package_bytes /\
    Package.extract_encryption_package package_bytes = Ok package /\
    length (Package.pages package) = 1 /\
    (forall i img md idx,
       [(three_chunks, (three_chunks_metadata, [1; 2; 0]%Z))] !! i
         = Some (img, (md, idx)) ->
       exists page,
         Package.pages package !! i = Some page /\
         Package.image_data page = img /\
         tobytes (Package.image_data page) = tobytes img /\
         Package.shuffle_indices page = idx /\
         dict_get (Package.page_fields page) "metadata" = Ok md) /\
    (exists bare_bytes,
       Package.create_encryption_package [three_chunks] [three_chunks_metadata]
         [[1; 2; 0]%Z] [] = Ok bare_bytes /\
       Package.extract_encryption_package bare_bytes = Ok package).
Proof.
  apply (extract_create_package [three_chunks] [three_chunks_metadata]
           [[1; 2; 0]%Z] (encode "PNG")).
  - repeat constructor; simpl; lia.
  - vm_compute. reflexivity.
  - apply (bytes_find_none (encode "PNG") Package.MAGIC). vm_compute. reflexivity.
  - intros [front Hfront]. apply (f_equal length) in Hfront.
    rewrite length_app in Hfront. simpl in Hfront. lia.
Defined.

(** C9 as a property of a generator: whatever the package and the key,
    the inverse permutation [decrypt_pdf] applies to page [p] is the
    argsort of the permutation generated for the seed
    [shuffleSeedBase + p] of the key. *)
Definition decrypt_regenerates (R : RandomState) : Prop :=
  forall (fromisoformat : string -> option string) (encrypted_bytes : list Z)
         (decryption_key filename timestamp_str timestamp : string)
         (package : Package.Package) (p : nat) (page : Package.Page) (num_chunks : Z),
    Orchestrator.split_bar decryption_key = [filename; timestamp_str] ->
    fromisoformat timestamp_str = Some timestamp ->
    Package.extract_encryption_package encrypted_bytes = Ok package ->
    Package.pages package !! p = Some page ->
    len (Package.image_data page) = Ok num_chunks ->
    exists perm,
      @PixelProcessor.generate_shuffle_indices R num_chunks
        (_get_shuffle_seed (DCKPES.__init__ filename timestamp) + Z.of_nat p) = Ok perm /\
      argsort (Package.shuffle_indices page) = argsort perm.

(** C9, as stated, fails for every generator: two packages that differ
    only in the permutation stored for their page, [0, 1, 2] in one and
    [1, 2, 0] in the other, are unshuffled under one and the same key by
    different inverse permutations, so what [decrypt_pdf] applies is not
    what the key material would regenerate. *)
Lemma decrypt_does_not_regenerate : ~ exists R : RandomState, decrypt_regenerates R.
Proof.
  intros [R Hclaim].
  destruct (Hclaim Some (one_page_package [0; 1; 2]%Z) "doc.pdf|2024-01-01T00:00:00"
              "doc.pdf" "2024-01-01T00:00:00" "2024-01-01T00:00:00" _ 0
              (one_page [0; 1; 2]%Z) 3%Z eq_refl eq_refl
              (one_page_package_extracts _ (or_introl eq_refl)) eq_refl eq_refl)
    as (perm & Hgen & Hsort).
  destruct (Hclaim Some (one_page_package [1; 2; 0]%Z) "doc.pdf|2024-01-01T00:00:00"
              "doc.pdf" "2024-01-01T00:00:00" "2024-01-01T00:00:00" _ 0
              (one_page [1; 2; 0]%Z) 3%Z eq_refl eq_refl
              (one_page_package_extracts _ (or_intror eq_refl)) eq_refl eq_refl)
    as (perm' & Hgen' & Hsort').
  rewrite Hgen in Hgen'. injection Hgen' as <-.
  rewrite <- Hsort' in Hsort. vm_compute in Hsort. discriminate.
Qed.

Lemma NoDup_arange n : NoDup (arange n).
Proof.
  unfold arange. apply NoDup_fmap_2; [apply Nat2Z.inj'|apply NoDup_seq].
Qed.

(** C9, amended. [decrypt_pdf] unshuffles the cipher-decrypted chunks of a
    page with the argsort of the indices stored for that page in the
    package: when no two of them are equal, with the one list of the
    positions of the stored indices in ascending order of their values;
    it regenerates nothing and does not consult the key for it. In a
    package written by [encrypt_pdf] with a positive chunk size, pages of
    fewer than 2^31 elements and a wrapper image that is a tolerated
    prefix, the indices stored for page [p] are the permutation of
    [arange num_chunks] generated for the seed [shuffleSeedBase + p] of
    the encrypting key. *)
Theorem decrypt_unshuffles_stored `{RandomState}
    (save_png : ndarray -> option (list Z))
    (pixel_processor : PixelProcessor.PixelProcessor) (images : list ndarray)
    (original_filename timestamp : string) (package_bytes : list Z) (key : string) :
  (0 < PixelProcessor.chunk_size pixel_processor)%Z ->
  Forall (fun image => (Z.of_nat (length (data image)) < 2 ^ 31)%Z) images ->
  (forall image png, save_png image = Some png -> Package.prefix_ok png) ->
  Orchestrator.encrypt_pdf save_png pixel_processor images original_filename timestamp
    = Ok (package_bytes, key) ->
  (forall encryptor page inverse,
     NoDup (Package.shuffle_indices page) ->
     sorts (Package.shuffle_indices page) inverse ->
     Orchestrator.decrypt_page encryptor page =
     (metadata <- dict_get (Package.page_fields page) "metadata" ;;
      decrypted <- decrypt_pixels encryptor (Package.image_data page) ;;
      unshuffled <- take_rows decrypted (Z.of_nat <$> inverse) ;;
      PixelProcessor.unchunk_pixels unshuffled metadata)) /\
  exists package,
    Package.extract_encryption_package package_bytes = Ok package /\
    length (Package.pages package) = length images /\
    forall p page,
      Package.pages package !! p = Some page ->
      exists num_chunks,
        len (Package.image_data page) = Ok num_chunks /\
        PixelProcessor.generate_shuffle_indices num_chunks
          (_get_shuffle_seed (DCKPES.__init__ original_filename timestamp) + Z.of_nat p)
          = Ok (Package.shuffle_indices page) /\
        Package.shuffle_indices page ≡ₚ arange num_chunks /\
        NoDup (Package.shuffle_indices page).
Proof.
  intros Hcs Hsizes Hpng Henc. split.
  { intros encryptor page inverse Hnd Hsorts.
    unfold Orchestrator.decrypt_page, PixelProcessor.unshuffle_chunks.
    by rewrite (argsort_unique _ inverse). }
  destruct (Orchestrator.encrypt_pdf_package save_png pixel_processor images
              original_filename timestamp package_bytes key Hcs Hsizes Hpng Henc)
    as (_ & pages & Hlen & Hextract & Hall).
  eexists. split; [exact Hextract|]. cbn [Package.pages].
  split; [by rewrite length_fmap|].
  intros p page Hp. rewrite list_lookup_fmap in Hp.
  destruct (pages !! p) as [[img [md idx]]|] eqn:Hpage; [|done].
  injection Hp as <-.
  destruct (Hall p _ Hpage) as (image & _ & _ & (n & Hn & Hgen) & _).
  exists n. cbn [Package.created_page Package.shuffle_indices Package.image_data] in *.
  cbn [fst snd] in *.
  assert (Hperm : idx ≡ₚ arange n).
  { unfold PixelProcessor.generate_shuffle_indices in Hgen.
    by apply rng_shuffle_perm in Hgen. }
  split; [done|]. split; [done|]. split; [done|].
  rewrite Hperm. apply NoDup_arange.
Qed.

Lemma decrypt_unshuffles_stored_witness :
  (forall encryptor page inverse,
     NoDup (Package.shuffle_indices page) ->
     sorts (Package.shuffle_indices page) inverse ->
     Orchestrator.decrypt_page encryptor page =
     (metadata <- dict_get (Package.page_fields page) "metadata" ;;
      decrypted <- decrypt_pixels encryptor (Package.image_data page) ;;
      unshuffled <- take_rows decrypted (Z.of_nat <$> inverse) ;;
      PixelProcessor.unchunk_pixels unshuffled metadata)) /\
  exists package,
    Package.extract_encryption_package two_page_package = Ok package /\
    length (Package.pages package) = 2 /\
    forall p page,
      Package.pages package !! p = Some page ->
      exists num_chunks,
        len (Package.image_data page) = Ok num_chunks /\
        @PixelProcessor.generate_shuffle_indices rotation_generator num_chunks
          (_get_shuffle_seed doc_encryptor + Z.of_nat p)
          = Ok (Package.shuffle_indices page) /\
        Package.shuffle_indices page ≡ₚ arange num_chunks /\
        NoDup (Package.shuffle_indices page).
Proof.
  apply (@decrypt_unshuffles_stored rotation_generator stub_png two_byte_chunks
           [five_pixels; four_pixels] "doc.pdf" "2024-01-01T00:00:00"
           two_page_package "doc.pdf|2024-01-01T00:00:00").
  - simpl. lia.
  - repeat constructor; simpl; lia.
  - intros image png [= <-]. vm_compute. reflexivity.
  - vm_compute. reflexivity.
Defined.

(** * Further properties *)

(** For every file name and timestamp the keystream generator of the
    encryptor built from them returns: [n] bytes, those of the
    specification's keystream for the derived seed. No iterate of the
    logistic map leaves the unit interval, so [int] never meets a NaN or an
    infinity. *)
Theorem keystream_returns_for_every_key (filename timestamp : string) (n : nat) :
  let self := __init__ filename timestamp in
  exists s,
    _generate_chaos_sequence self n = Ok s /\
    spec_keystream (chaos_seed self) n = Ok s /\
    length s = n /\
    Forall is_byte s.
Proof.
  intros self.
  pose proof (FloatBounds.unit_float_in_unit _
                (FloatBounds.generate_keys_in_unit filename timestamp)) as Hseed.
  fold self in Hseed.
  destruct (FloatBounds.generate_chaos_sequence_total self n Hseed) as [s Hs].
  exists s. split; [done|]. split; [by rewrite <- generate_chaos_sequence_spec|].
  split.
  - by apply (generate_chaos_sequence_length self).
  - by apply (chaos_sequence_is_byte self n).
Qed.

(** [_logistic_map(x, iterations)] maps the doubles between zero and one
    into themselves, for every number of iterations. *)
Theorem logistic_map_keeps_unit_interval (x : float) (iterations : nat) :
  FloatBounds.unit_float x = true ->
  FloatBounds.in_unit (_logistic_map x iterations).
Proof.
  intros Hx%FloatBounds.unit_float_in_unit. unfold _logistic_map.
  induction iterations as [|k IH]; [done|].
  cbn [Nat.iter nat_rect]. by apply FloatBounds.logistic_step_in_unit.
Qed.

Lemma logistic_map_keeps_unit_interval_witness :
  FloatBounds.in_unit (_logistic_map (chaos_seed doc_encryptor) 100).
Proof.
  apply (logistic_map_keeps_unit_interval (chaos_seed doc_encryptor) 100).
  vm_compute. reflexivity.
Defined.

(** Below zero the code and the specification's words part: for the seed
    [-2^-1000], which no key derives, every iterate is a tiny negative
    number, [int(x * 255)] is [0] and the generator emits [0], where
    [floor(x * 255) mod 256] is [255]. *)
Example truncation_is_not_floor_below_zero :
  let self := Encryptor "" "" [] (-0x1p-1000)%float in
  _generate_chaos_sequence self 3 = Ok [0; 0; 0]%Z /\
  spec_keystream (chaos_seed self) 3 = Ok [255; 255; 255]%Z.
Proof. split; vm_compute; reflexivity. Qed.

(** Decrypting the package [encrypt_pdf] returned, under the key it
    returned, gives the page images back, when the pages are arrays of
    bytes of fewer than 2^31 elements and of the shape of an image (height
    by width, or height by width by 2, 3 or 4 channels), the wrapper image
    is a tolerated prefix, the timestamp is in canonical form and the key
    splits into the file name and the timestamp. *)
Theorem decrypt_encrypt_pdf `{RandomState}
    (fromisoformat : string -> option string) (save_png : ndarray -> option (list Z))
    (pixel_processor : PixelProcessor.PixelProcessor) (images : list ndarray)
    (original_filename timestamp : string) (package_bytes : list Z) (key : string) :
  (0 < PixelProcessor.chunk_size pixel_processor)%Z ->
  Forall wf_uint8 images ->
  Forall (fun image => image_shape (shape image)) images ->
  Forall (fun image => (Z.of_nat (length (data image)) < 2 ^ 31)%Z) images ->
  (forall image png, save_png image = Some png -> Package.prefix_ok png) ->
  Orchestrator.split_bar (original_filename +:+ "|" +:+ timestamp)
    = [original_filename; timestamp] ->
  fromisoformat timestamp = Some timestamp ->
  Orchestrator.encrypt_pdf save_png pixel_processor images original_filename timestamp
    = Ok (package_bytes, key) ->
  Orchestrator.decrypt_images fromisoformat package_bytes key
    = Ok (images, original_filename).
Proof.
  intros Hcs Hwf Hshapes Hsizes Hpng Hsplit Hiso Henc.
  destruct (Orchestrator.encrypt_pdf_package save_png pixel_processor images
              original_filename timestamp package_bytes key Hcs Hsizes Hpng Henc)
    as (-> & pages & Hlen & Hextract & Hall).
  unfold Orchestrator.decrypt_images. rewrite Hsplit, Hextract. cbn [bind].
  rewrite Hiso. cbn [Package.pages]. rewrite map_result_fmap.
  rewrite (map_result_Ok_pointwise _ pages images); [done|done|].
  intros i page Hi. destruct (Hall i page Hi) as (image & Himage & _ & _ & Hdec).
  exists image. split; [done|].
  rewrite Forall_lookup in Hwf. rewrite Forall_lookup in Hshapes.
  apply Hdec; [by apply (Hwf i)|by apply (Hshapes i)].
Qed.

Lemma decrypt_encrypt_pdf_witness :
  Orchestrator.decrypt_images Some two_page_package "doc.pdf|2024-01-01T00:00:00"
    = Ok ([five_pixels; four_pixels], "doc.pdf").
Proof.
  apply (@decrypt_encrypt_pdf rotation_generator Some stub_png two_byte_chunks
           [five_pixels; four_pixels] "doc.pdf" "2024-01-01T00:00:00"
           two_page_package "doc.pdf|2024-01-01T00:00:00").
  - simpl. lia.
  - repeat constructor; simpl; lia.
  - repeat constructor; simpl; lia.
  - repeat constructor; simpl; lia.
  - intros image png [= <-]. vm_compute. reflexivity.
  - vm_compute. reflexivity.
  - reflexivity.
  - vm_compute. reflexivity.
Defined.

(** The number of [|] in a string. *)
Fixpoint bars (s : string) : nat :=
  match s with
  | EmptyString => 0
  | String c rest =>
      if Ascii.eqb c (Ascii.ascii_of_nat 124) then S (bars rest) else bars rest
  end.

Lemma length_split_bar s : length (Orchestrator.split_bar s) = S (bars s).
Proof.
  induction s as [|c s IH]; [done|]. cbn [Orchestrator.split_bar bars].
  destruct (Ascii.eqb c (Ascii.ascii_of_nat 124)); [simpl; by rewrite IH|].
  destruct (Orchestrator.split_bar s) as [|part parts]; [done|]. exact IH.
Qed.

Lemma bars_app s t : bars (s +:+ t) = bars s + bars t.
Proof.
  induction s as [|c s IH]; [done|].
  change (String c s +:+ t) with (String c (s +:+ t)). cbn [bars].
  destruct (Ascii.eqb c (Ascii.ascii_of_nat 124)); simpl; by rewrite IH.
Qed.

(** A file name that holds a [|] cannot be decrypted: the key
    [filename|timestamp] that [encrypt_pdf] returns for it splits into more
    than two parts, and [decrypt_pdf] raises its key-format error whatever
    the package. *)
Theorem key_of_barred_filename_rejected
    (fromisoformat : string -> option string) (encrypted_bytes : list Z)
    (original_filename timestamp : string) :
  0 < bars original_filename ->
  Orchestrator.decrypt_images fromisoformat encrypted_bytes
    (original_filename +:+ "|" +:+ timestamp)
  = Raise (ValueError "Invalid decryption key format: Invalid key format").
Proof.
  intros Hbar. unfold Orchestrator.decrypt_images.
  pose proof (length_split_bar (original_filename +:+ "|" +:+ timestamp)) as Hlen.
  rewrite !bars_app in Hlen. change (bars "|") with 1 in Hlen.
  destruct (Orchestrator.split_bar _) as [|a [|b [|c l]]]; try done.
  simpl in Hlen. lia.
Qed.

Lemma key_of_barred_filename_rejected_witness :
  Orchestrator.decrypt_images Some two_page_package
    ("a|b.pdf" +:+ "|" +:+ "2024-01-01T00:00:00")
  = Raise (ValueError "Invalid decryption key format: Invalid key format").
Proof.
  apply (key_of_barred_filename_rejected Some two_page_package "a|b.pdf"
           "2024-01-01T00:00:00").
  simpl. lia.
Defined.

(** The specification's example: the 30,000 bytes of a 100 x 100 RGB image
    in chunks of 32 make 938 chunks, the last padded with 16 zero bytes. *)
Example chunks_of_100x100_rgb :
  PixelProcessor.padding_of 32 (100 * 100 * 3) = 16%Z /\
  PixelProcessor.num_chunks_of 32 (100 * 100 * 3) = 938%Z.
Proof. split; reflexivity. Qed.

(** ** The cipher as a map of byte buffers *)

Ltac xor_ac :=
  apply Z.bits_inj'; intros ? ?; rewrite !Z.lxor_spec;
  repeat match goal with |- context [Z.testbit ?a ?n] => destruct (Z.testbit a n) end;
  reflexivity.

Lemma undiffuse_is_byte a : Forall is_byte a -> Forall is_byte (undiffuse a).
Proof.
  unfold undiffuse. generalize (range_down (length a - 1) 0). intros idx. revert a.
  induction idx as [|i idx IH]; intros a Ha; simpl; [done|].
  apply IH. unfold xor_prev.
  destruct (decide (i < length a)) as [Hi|Hi].
  - apply Forall_insert; [done|].
    apply is_byte_lxor; apply (Forall_lookup_total_1 _ _ _ Ha); lia.
  - by rewrite list_insert_ge by lia.
Qed.

(** The forward loop undoes the reverse loop. *)
Lemma diffuse_undiffuse a : diffuse (undiffuse a) = a.
Proof.
  destruct (undiffuse_spec a) as (Hlen & H0 & Hrec).
  destruct (diffuse_spec (undiffuse a)) as (Hlen' & H0' & Hrec').
  rewrite Hlen in Hrec'.
  assert (Hall : forall i, i < length a -> diffuse (undiffuse a) !!! i = a !!! i).
  { induction i as [|i IH]; intros Hi; [congruence|].
    rewrite Hrec', Hrec by lia. replace (S i - 1) with i by lia.
    rewrite IH by lia.
    by rewrite Z.lxor_assoc, Z.lxor_nilpotent, Z.lxor_0_r. }
  apply (list_eq_same_length _ _ (length a)); [congruence|congruence|].
  intros i x y Hi Hx Hy.
  apply (list_lookup_total_correct _ _ _) in Hx, Hy. subst x y. by apply Hall.
Qed.

Lemma length_undiffuse a : length (undiffuse a) = length a.
Proof. by destruct (undiffuse_spec a). Qed.

(** The cells of the output of the reverse loop. *)
Lemma undiffuse_lookup a i :
  i < length a ->
  undiffuse a !!! i = if decide (i = 0) then a !!! 0 else Z.lxor (a !!! i) (a !!! (i - 1)).
Proof.
  intros Hi. destruct (undiffuse_spec a) as (_ & H0 & Hrec).
  destruct (decide (i = 0)) as [->|Hne]; [done|]. apply Hrec. lia.
Qed.

Lemma bitwise_xor_length a b : length a = length b -> length (bitwise_xor a b) = length a.
Proof. intros Hlen. unfold bitwise_xor. by rewrite length_zip_with_l_eq. Qed.

Lemma bitwise_xor_cancel a b c :
  length a = length b -> length a = length c ->
  bitwise_xor (bitwise_xor a b) c = a -> c = b.
Proof.
  unfold bitwise_xor. revert b c.
  induction a as [|x a IH]; intros [|y b] [|z c]; simpl; try done.
  intros [= Hb] [= Hc] [= Hx Ha]. f_equal; [|by apply IH].
  rewrite Z.lxor_assoc in Hx.
  apply (f_equal (Z.lxor x)) in Hx.
  rewrite <- Z.lxor_assoc, Z.lxor_nilpotent, Z.lxor_0_l in Hx.
  apply Z.lxor_eq in Hx. done.
Qed.

(** With a keystream at hand, [decrypt_pixels] raises on no array whose
    size matches its shape. *)
Lemma decrypt_pixels_Ok self E S :
  Forall (fun d => (0 <= d)%Z) (shape E) ->
  Z.of_nat (length (data E)) = prod_list (shape E) ->
  _generate_chaos_sequence self (length (data E)) = Ok S ->
  decrypt_pixels self E =
  Ok (NDArray (shape E) UInt8 (bitwise_xor (undiffuse (astype_uint8 (data E))) S)).
Proof.
  intros Hdims Hsize HS. unfold decrypt_pixels, flatten.
  rewrite length_astype_uint8, HS. cbn [bind].
  apply generate_chaos_sequence_length in HS.
  apply reshape_wf; [done|].
  rewrite bitwise_xor_length; rewrite length_undiffuse, length_astype_uint8; done.
Qed.

(** [encrypt_pixels] undoes [decrypt_pixels]: every array of bytes is the
    ciphertext of an array of bytes of the same shape, which
    [decrypt_pixels] returns. With the round trip in the other direction,
    the cipher is a bijection of the byte arrays of each shape. *)
Theorem encrypt_decrypt_pixels (self : DCKPESEncryptor) (E : ndarray) :
  wf_uint8 E ->
  FloatBounds.unit_float (chaos_seed self) = true ->
  exists D,
    decrypt_pixels self E = Ok D /\
    wf_uint8 D /\
    shape D = shape E /\
    encrypt_pixels self D = Ok E.
Proof.
  intros [Hdims Hsize Hdt Hbytes] Hseed.
  destruct (FloatBounds.generate_chaos_sequence_total self (length (data E))
              (FloatBounds.unit_float_in_unit _ Hseed)) as [ks HS].
  pose proof (generate_chaos_sequence_length _ _ _ HS) as HlenS.
  pose proof (chaos_sequence_is_byte _ _ _ HS) as HbS.
  set (u := undiffuse (data E)).
  assert (Hlu : length u = length (data E)) by apply length_undiffuse.
  assert (Hbu : Forall is_byte u) by (by apply undiffuse_is_byte).
  exists (NDArray (shape E) UInt8 (bitwise_xor u ks)).
  assert (Hlx : length (bitwise_xor u ks) = length (data E))
    by (rewrite bitwise_xor_length; congruence).
  split.
  { rewrite (decrypt_pixels_Ok self E ks) by done. by rewrite astype_uint8_bytes. }
  split.
  { split; cbn [shape data dtype_of]; [done|by rewrite Hlx|done|].
    by apply bitwise_xor_is_byte. }
  split; [done|].
  rewrite (encrypt_pixels_Ok self _ ks); cbn [shape data];
    [|done|by rewrite Hlx|by rewrite Hlx].
  rewrite astype_uint8_bytes by (by apply bitwise_xor_is_byte).
  rewrite bitwise_xor_involutive by congruence.
  subst u. rewrite diffuse_undiffuse. by destruct E; simpl in *; subst.
Qed.

Lemma encrypt_decrypt_pixels_witness :
  exists D,
    decrypt_pixels doc_encryptor six_pixels = Ok D /\
    wf_uint8 D /\
    shape D = shape six_pixels /\
    encrypt_pixels doc_encryptor D = Ok six_pixels.
Proof.
  apply (encrypt_decrypt_pixels doc_encryptor six_pixels).
  - exact six_pixels_wf.
  - vm_compute. reflexivity.
Defined.

(** What the cipher does to an array that is not of bytes: the elements
    are first reduced modulo 256, and the round trip gives the reduced
    array, as [uint8], not the array that was encrypted. *)
Theorem decrypt_encrypt_any_dtype (self : DCKPESEncryptor) (X : ndarray) :
  Forall (fun d => (0 <= d)%Z) (shape X) ->
  Z.of_nat (length (data X)) = prod_list (shape X) ->
  FloatBounds.unit_float (chaos_seed self) = true ->
  exists E,
    encrypt_pixels self X = Ok E /\
    dtype_of E = UInt8 /\
    decrypt_pixels self E =
      Ok (NDArray (shape X) UInt8 ((fun x => x mod 256)%Z <$> data X)).
Proof.
  intros Hdims Hsize Hseed.
  destruct (FloatBounds.generate_chaos_sequence_total self (length (data X))
              (FloatBounds.unit_float_in_unit _ Hseed)) as [ks HS].
  eexists. split; [by apply (encrypt_pixels_Ok self X ks)|]. split; [done|].
  change ((fun x => x mod 256)%Z <$> data X) with (astype_uint8 (data X)).
  set (X' := NDArray (shape X) UInt8 (astype_uint8 (data X))).
  pose proof (decrypt_encrypt self X' ks) as Hback.
  cbn [X' shape data] in Hback.
  rewrite (astype_uint8_bytes (astype_uint8 (data X))) in Hback
    by apply astype_uint8_is_byte.
  apply Hback; subst X'.
  - split; cbn [shape data dtype_of]; [done|by rewrite length_astype_uint8|done|].
    apply astype_uint8_is_byte.
  - cbn [data]. by rewrite length_astype_uint8.
Qed.

Lemma decrypt_encrypt_any_dtype_witness :
  exists E,
    encrypt_pixels doc_encryptor four_ints = Ok E /\
    dtype_of E = UInt8 /\
    decrypt_pixels doc_encryptor E =
      Ok (NDArray (shape four_ints) UInt8 ((fun x => x mod 256)%Z <$> data four_ints)).
Proof.
  apply (decrypt_encrypt_any_dtype doc_encryptor four_ints).
  - repeat constructor; simpl; lia.
  - reflexivity.
  - vm_compute. reflexivity.
Defined.

(** The XOR of all the elements of a list. *)
Definition xor_all (l : list Z) : Z := foldr Z.lxor 0%Z l.

Lemma xor_all_snoc l x : xor_all (l ++ [x]) = Z.lxor (xor_all l) x.
Proof.
  unfold xor_all. induction l as [|y l IH]; simpl.
  - by rewrite Z.lxor_0_r, Z.lxor_0_l.
  - by rewrite IH, Z.lxor_assoc.
Qed.

Lemma xor_all_zip_with a b :
  length a = length b ->
  xor_all (zip_with Z.lxor a b) = Z.lxor (xor_all a) (xor_all b).
Proof.
  unfold xor_all. revert b. induction a as [|x a IH]; intros [|y b]; try done.
  intros [= Hlen]. simpl. rewrite IH by done. xor_ac.
Qed.

(** The forward loop leaves in cell [i] the XOR of the cells up to [i]. *)
Lemma diffuse_closed a i :
  i < length a -> diffuse a !!! i = xor_all (take (S i) a).
Proof.
  destruct (diffuse_spec a) as (_ & H0 & Hrec).
  induction i as [|i IH]; intros Hi.
  - rewrite H0. destruct a as [|x a]; [simpl in Hi; lia|]. simpl. by rewrite Z.lxor_0_r.
  - rewrite Hrec by lia. replace (S i - 1) with i by lia. rewrite IH by lia.
    rewrite (take_S_r a (S i) (a !!! S i)).
    + rewrite xor_all_snoc. apply Z.lxor_comm.
    + apply list_lookup_lookup_total_lt. lia.
Qed.

(** Byte [i] of the ciphertext is the XOR of the plaintext bytes up to [i]
    and of the keystream bytes up to [i]; hence two images of one size
    that agree on their first [k] bytes have, under one key, ciphertexts
    that agree on their first [k] bytes. *)
Theorem ciphertext_is_running_xor (self : DCKPESEncryptor) (X : ndarray) :
  wf_uint8 X ->
  FloatBounds.unit_float (chaos_seed self) = true ->
  exists keystream E,
    _generate_chaos_sequence self (length (data X)) = Ok keystream /\
    encrypt_pixels self X = Ok E /\
    (forall i, i < length (data X) ->
       data E !!! i =
       Z.lxor (xor_all (take (S i) (data X))) (xor_all (take (S i) keystream))) /\
    (forall X' E' k,
       wf_uint8 X' -> length (data X') = length (data X) ->
       take k (data X') = take k (data X) ->
       encrypt_pixels self X' = Ok E' ->
       take k (data E') = take k (data E)).
Proof.
  intros Hwf Hseed.
  destruct (FloatBounds.generate_chaos_sequence_total self (length (data X))
              (FloatBounds.unit_float_in_unit _ Hseed)) as [ks HS].
  pose proof (generate_chaos_sequence_length _ _ _ HS) as HlenS.
  assert (Hclosed : forall Y : ndarray,
    wf_uint8 Y -> length (data Y) = length (data X) ->
    encrypt_pixels self Y =
      Ok (NDArray (shape Y) UInt8 (diffuse (bitwise_xor (data Y) ks))) /\
    forall i, i < length (data X) ->
      diffuse (bitwise_xor (data Y) ks) !!! i =
      Z.lxor (xor_all (take (S i) (data Y))) (xor_all (take (S i) ks))).
  { intros Y [Hd Hs Ht Hb] Hlen. split.
    - rewrite (encrypt_pixels_Ok self Y ks); [|done|done|by rewrite Hlen].
      by rewrite astype_uint8_bytes.
    - intros i Hi. rewrite diffuse_closed by (rewrite bitwise_xor_length; lia).
      unfold bitwise_xor. rewrite zip_with_take.
      apply xor_all_zip_with. rewrite !length_take. lia. }
  destruct (Hclosed X Hwf eq_refl) as [HE Hbytes].
  eexists ks, _. split; [done|]. split; [exact HE|]. split; [exact Hbytes|].
  intros X' E' k Hwf' Hlen' Hpre HE'.
  destruct (Hclosed X' Hwf' Hlen') as [HE'' Hbytes'].
  rewrite HE'' in HE'. injection HE' as <-. cbn [data].
  assert (Hld : forall Y : ndarray, length (data Y) = length (data X) ->
            length (diffuse (bitwise_xor (data Y) ks)) = length (data X)).
  { intros Y HY. destruct (diffuse_spec (bitwise_xor (data Y) ks)) as (-> & _).
    rewrite bitwise_xor_length; lia. }
  apply (list_eq_same_length _ _ (k `min` length (data X))).
  - rewrite length_take, Hld; done.
  - rewrite length_take, Hld; done.
  - intros i x y Hi. rewrite !lookup_take_lt by lia.
    intros Hx Hy. apply (list_lookup_total_correct _ _ _) in Hx, Hy. subst x y.
    rewrite Hbytes', Hbytes by lia. f_equal.
    replace (take (S i) (data X')) with (take (S i) (take k (data X')))
      by (rewrite take_take; f_equal; lia).
    rewrite Hpre, take_take. do 2 f_equal. lia.
Qed.

Lemma ciphertext_is_running_xor_witness :
  exists keystream E,
    _generate_chaos_sequence doc_encryptor (length (data six_pixels)) = Ok keystream /\
    encrypt_pixels doc_encryptor six_pixels = Ok E /\
    (forall i, i < length (data six_pixels) ->
       data E !!! i =
       Z.lxor (xor_all (take (S i) (data six_pixels)))
         (xor_all (take (S i) keystream))) /\
    (forall X' E' k,
       wf_uint8 X' -> length (data X') = length (data six_pixels) ->
       take k (data X') = take k (data six_pixels) ->
       encrypt_pixels doc_encryptor X' = Ok E' ->
       take k (data E') = take k (data E)).
Proof.
  apply (ciphertext_is_running_xor doc_encryptor six_pixels).
  - exact six_pixels_wf.
  - vm_compute. reflexivity.
Defined.

(** There is nothing in the ciphertext that tells a key from another:
    under any other encryptor [decrypt_pixels] returns, without an error,
    the image XORed with both keystreams, which is the image exactly when
    the two keystreams are equal. *)
Theorem decrypt_with_other_key (self self' : DCKPESEncryptor) (X : ndarray) :
  wf_uint8 X ->
  FloatBounds.unit_float (chaos_seed self) = true ->
  FloatBounds.unit_float (chaos_seed self') = true ->
  exists E keystream keystream',
    encrypt_pixels self X = Ok E /\
    _generate_chaos_sequence self (length (data X)) = Ok keystream /\
    _generate_chaos_sequence self' (length (data X)) = Ok keystream' /\
    decrypt_pixels self' E =
      Ok (NDArray (shape X) UInt8
            (bitwise_xor (bitwise_xor (data X) keystream) keystream')) /\
    (decrypt_pixels self' E = Ok X <-> keystream' = keystream).
Proof.
  intros [Hdims Hsize Hdt Hbytes] Hseed Hseed'.
  destruct (FloatBounds.generate_chaos_sequence_total self (length (data X))
              (FloatBounds.unit_float_in_unit _ Hseed)) as [ks HS].
  destruct (FloatBounds.generate_chaos_sequence_total self' (length (data X))
              (FloatBounds.unit_float_in_unit _ Hseed')) as [ks' HS'].
  pose proof (generate_chaos_sequence_length _ _ _ HS) as Hlks.
  pose proof (generate_chaos_sequence_length _ _ _ HS') as Hlks'.
  pose proof (chaos_sequence_is_byte _ _ _ HS) as Hbks.
  set (c := diffuse (bitwise_xor (data X) ks)).
  assert (Hlc : length c = length (data X)).
  { subst c. destruct (diffuse_spec (bitwise_xor (data X) ks)) as (-> & _).
    by rewrite bitwise_xor_length. }
  assert (Hbc : Forall is_byte c).
  { subst c. by apply diffuse_is_byte, bitwise_xor_is_byte. }
  assert (Hdec : decrypt_pixels self' (NDArray (shape X) UInt8 c) =
            Ok (NDArray (shape X) UInt8 (bitwise_xor (bitwise_xor (data X) ks) ks'))).
  { rewrite (decrypt_pixels_Ok self' _ ks'); cbn [shape data];
      [|done|by rewrite Hlc|by rewrite Hlc].
    rewrite astype_uint8_bytes by done. subst c. by rewrite undiffuse_diffuse. }
  exists (NDArray (shape X) UInt8 c), ks, ks'.
  split.
  { rewrite (encrypt_pixels_Ok self X ks) by done. by rewrite astype_uint8_bytes. }
  split; [done|]. split; [done|]. split; [done|].
  rewrite Hdec. split.
  - intros [= HX]. destruct X as [shp dt d]. simpl in *. injection HX as Hd.
    apply (bitwise_xor_cancel d); [lia|lia|done].
  - intros ->. rewrite bitwise_xor_involutive by lia.
    destruct X; simpl in *; by subst.
Qed.

Lemma decrypt_with_other_key_witness :
  exists E keystream keystream',
    encrypt_pixels doc_encryptor six_pixels = Ok E /\
    _generate_chaos_sequence doc_encryptor (length (data six_pixels)) = Ok keystream /\
    _generate_chaos_sequence other_encryptor (length (data six_pixels))
      = Ok keystream' /\
    decrypt_pixels other_encryptor E =
      Ok (NDArray (shape six_pixels) UInt8
            (bitwise_xor (bitwise_xor (data six_pixels) keystream) keystream')) /\
    (decrypt_pixels other_encryptor E = Ok six_pixels <-> keystream' = keystream).
Proof.
  apply (decrypt_with_other_key doc_encryptor other_encryptor six_pixels).
  - exact six_pixels_wf.
  - vm_compute. reflexivity.
  - vm_compute. reflexivity.
Defined.

(** The ciphertext can be changed at will: XORing [delta] into byte [k] of
    a ciphertext XORs [delta] into bytes [k] and [k + 1] of what
    [decrypt_pixels] returns (into byte [k] alone when it is the last) and
    changes no other byte; no error is raised. *)
Theorem decrypt_of_tampered (self : DCKPESEncryptor) (E D : ndarray) (k : nat)
    (delta : Z) :
  wf_uint8 E ->
  FloatBounds.unit_float (chaos_seed self) = true ->
  is_byte delta ->
  k < length (data E) ->
  decrypt_pixels self E = Ok D ->
  decrypt_pixels self
    (NDArray (shape E) UInt8 (<[k := Z.lxor (data E !!! k) delta]> (data E))) =
  Ok (NDArray (shape E) UInt8
        (<[S k := Z.lxor (data D !!! S k) delta]>
           (<[k := Z.lxor (data D !!! k) delta]> (data D)))).
Proof.
  intros [Hdims Hsize Hdt Hbytes] Hseed Hdelta Hk HD.
  destruct (FloatBounds.generate_chaos_sequence_total self (length (data E))
              (FloatBounds.unit_float_in_unit _ Hseed)) as [ks HS].
  pose proof (generate_chaos_sequence_length _ _ _ HS) as Hlks.
  rewrite (decrypt_pixels_Ok self E ks) in HD by done. injection HD as <-.
  rewrite astype_uint8_bytes by done. cbn [data].
  set (e' := <[k := Z.lxor (data E !!! k) delta]> (data E)).
  assert (Hle' : length e' = length (data E)) by apply length_insert.
  assert (Hbe' : Forall is_byte e').
  { apply Forall_insert; [done|]. apply is_byte_lxor; [|done].
    by apply (Forall_lookup_total_1 _ _ _ Hbytes). }
  rewrite (decrypt_pixels_Ok self _ ks); cbn [shape data];
    [|done|by rewrite Hle'|by rewrite Hle'].
  rewrite astype_uint8_bytes by done.
  f_equal. f_equal.
  apply (list_eq_same_length _ _ (length (data E))).
  - rewrite !length_insert, bitwise_xor_length; rewrite length_undiffuse; lia.
  - rewrite bitwise_xor_length; rewrite length_undiffuse; lia.
  - intros i x y Hi Hx Hy.
    apply (list_lookup_total_correct _ _ _) in Hx, Hy. subst x y.
    rewrite bitwise_xor_lookup by (rewrite length_undiffuse; lia).
    rewrite undiffuse_lookup by lia.
    assert (Hd : bitwise_xor (undiffuse (data E)) ks !!! i =
              Z.lxor (if decide (i = 0) then data E !!! 0
                      else Z.lxor (data E !!! i) (data E !!! (i - 1))) (ks !!! i)).
    { rewrite bitwise_xor_lookup by (rewrite length_undiffuse; lia).
      by rewrite undiffuse_lookup by lia. }
    destruct (decide (i = S k)) as [->|HiS].
    + rewrite list_lookup_total_insert_eq
        by (rewrite length_insert, bitwise_xor_length; rewrite length_undiffuse; lia).
      rewrite Hd. rewrite !decide_False by lia.
      replace (S k - 1) with k by lia. subst e'.
      rewrite list_lookup_total_insert_ne by lia.
      rewrite list_lookup_total_insert_eq by lia. xor_ac.
    + rewrite list_lookup_total_insert_ne by lia.
      destruct (decide (i = k)) as [->|Hik].
      * rewrite list_lookup_total_insert_eq
          by (rewrite bitwise_xor_length; rewrite length_undiffuse; lia).
        rewrite Hd. subst e'.
        destruct (decide (k = 0)) as [->|Hk0].
        -- rewrite list_lookup_total_insert_eq by lia. xor_ac.
        -- rewrite list_lookup_total_insert_eq by lia.
           rewrite list_lookup_total_insert_ne by lia. xor_ac.
      * rewrite list_lookup_total_insert_ne by lia.
        rewrite Hd. subst e'.
        destruct (decide (i = 0)) as [->|Hi0].
        -- by rewrite list_lookup_total_insert_ne by lia.
        -- by rewrite !list_lookup_total_insert_ne by lia.
Qed.

Lemma decrypt_of_tampered_witness :
  exists D,
    decrypt_pixels doc_encryptor six_pixels = Ok D /\
    decrypt_pixels doc_encryptor
      (NDArray (shape six_pixels) UInt8
         (<[2 := Z.lxor (data six_pixels !!! 2) 255]> (data six_pixels))) =
    Ok (NDArray (shape six_pixels) UInt8
          (<[3 := Z.lxor (data D !!! 3) 255]>
             (<[2 := Z.lxor (data D !!! 2) 255]> (data D)))).
Proof.
  eexists. split.
  - vm_compute. reflexivity.
  - apply (decrypt_of_tampered doc_encryptor six_pixels _ 2 255).
    + exact six_pixels_wf.
    + vm_compute. reflexivity.
    + unfold is_byte. lia.
    + simpl. lia.
    + vm_compute. reflexivity.
Defined.

(** The keystream of a length is the beginning of the keystream of every
    greater length. *)
Lemma chaos_sequence_prefix self n m s t i :
  _generate_chaos_sequence self n = Ok s ->
  _generate_chaos_sequence self m = Ok t ->
  i < n -> i < m ->
  s !!! i = t !!! i.
Proof.
  rewrite !generate_chaos_sequence_closed. intros Hs Ht Hn Hm.
  destruct (map_result_Ok_lookup _ _ _ i i Hs) as (y & Hy & Hsi);
    [by apply lookup_seq_lt|].
  destruct (map_result_Ok_lookup _ _ _ i i Ht) as (y' & Hy' & Hti);
    [by apply lookup_seq_lt|].
  apply list_lookup_total_correct in Hsi, Hti. congruence.
Qed.

(** One encryptor uses one keystream for every array it encrypts: the
    keystream cancels in the XOR of two ciphertexts once their diffusion,
    which needs no key, is undone, and what is left is the XOR of the two
    plaintexts. *)
Theorem keystream_is_reused (self : DCKPESEncryptor) (X X' E E' : ndarray) (i : nat) :
  wf_uint8 X ->
  wf_uint8 X' ->
  encrypt_pixels self X = Ok E ->
  encrypt_pixels self X' = Ok E' ->
  i < length (data X) ->
  i < length (data X') ->
  Z.lxor (undiffuse (data E) !!! i) (undiffuse (data E') !!! i) =
  Z.lxor (data X !!! i) (data X' !!! i).
Proof.
  intros [Hd Hs Ht Hb] [Hd' Hs' Ht' Hb'] HE HE' Hi Hi'.
  destruct (encrypt_pixels_inv self X E Hd Hs HE) as (ks & Hks & -> & _).
  destruct (encrypt_pixels_inv self X' E' Hd' Hs' HE') as (ks' & Hks' & -> & _).
  cbn [data]. rewrite !undiffuse_diffuse, !astype_uint8_bytes by done.
  pose proof (generate_chaos_sequence_length _ _ _ Hks) as Hl.
  pose proof (generate_chaos_sequence_length _ _ _ Hks') as Hl'.
  rewrite !bitwise_xor_lookup by lia.
  rewrite (chaos_sequence_prefix self _ _ ks ks' i Hks Hks') by done.
  xor_ac.
Qed.

Lemma keystream_is_reused_witness :
  exists E E',
    encrypt_pixels doc_encryptor six_pixels = Ok E /\
    encrypt_pixels doc_encryptor five_pixels = Ok E' /\
    Z.lxor (undiffuse (data E) !!! 3) (undiffuse (data E') !!! 3) =
    Z.lxor (data six_pixels !!! 3) (data five_pixels !!! 3).
Proof.
  eexists _, _. split; [vm_compute; reflexivity|]. split; [vm_compute; reflexivity|].
  apply (keystream_is_reused doc_encryptor six_pixels five_pixels _ _ 3).
  - exact six_pixels_wf.
  - repeat constructor; simpl; unfold is_byte; lia.
  - vm_compute. reflexivity.
  - vm_compute. reflexivity.
  - simpl. lia.
  - simpl. lia.
Defined.

(** ** The package beyond its round trip *)

Lemma Ok_inj {A : Type} (x y : A) : Ok x = Ok y -> x = y.
Proof. by intros [= ->]. Qed.

(** The extraction loop reads the pages it was written for and leaves
    what follows them alone. *)
Lemma extract_pages_created_then pages : forall pre post acc,
  Forall Package.wf_page pages ->
  Package.extract_pages (pre ++ concat (Package.created_bytes <$> pages) ++ post)
    (Z.of_nat (length pre), acc) (Package.created_meta <$> pages) =
  Ok (Z.of_nat (length (pre ++ concat (Package.created_bytes <$> pages))),
      acc ++ (Package.created_page <$> pages)).
Proof.
  induction pages as [|page pages IH]; intros pre post acc Hpages.
  - simpl. by rewrite !app_nil_r.
  - apply Forall_cons in Hpages as [Hpage Hpages].
    rewrite !fmap_cons. cbn [concat Package.extract_pages].
    rewrite <- (app_assoc (Package.created_bytes page)).
    rewrite Package.extract_page_created by done. cbn [bind].
    rewrite (app_assoc pre). rewrite IH by done.
    by rewrite <- !app_assoc.
Qed.

(** Bytes that follow the last page of a package are never read:
    extraction of a created package followed by any bytes gives what
    extraction of the package gives. Neither the length of the file nor
    its end is checked. *)
Theorem extract_ignores_trailing_bytes (encrypted_images : list ndarray)
    (metadata_list : list json) (shuffle_indices_list : list (list Z))
    (prefix_bytes trailing : list Z) :
  let pages := zip encrypted_images (zip metadata_list shuffle_indices_list) in
  let meta := Package.package_meta (length encrypted_images) pages in
  Forall Package.wf_page pages ->
  (Z.of_nat (length (encode (Json.dumps meta))) < 2 ^ 32)%Z ->
  (forall i, take 6 (drop i prefix_bytes) <> Package.MAGIC) ->
  ~ encode "AARTH" `suffix_of` prefix_bytes ->
  exists package_bytes,
    Package.create_encryption_package encrypted_images metadata_list
      shuffle_indices_list prefix_bytes = Ok package_bytes /\
    Package.extract_encryption_package (package_bytes ++ trailing) =
      Ok (Package.MakePackage meta (Package.created_page <$> pages)) /\
    Package.extract_encryption_package (package_bytes ++ trailing) =
      Package.extract_encryption_package package_bytes.
Proof.
  intros pages meta Hpages Hlen Hno Hsuf.
  assert (Hprefix : Package.prefix_ok prefix_bytes) by (by apply Package.prefix_ok_iff).
  destruct (Package.extract_create encrypted_images metadata_list shuffle_indices_list
              prefix_bytes Hlen Hpages Hprefix) as (package_bytes & Hcreate & Hextract).
  exists package_bytes. split; [done|].
  rewrite Hextract.
  enough (Package.extract_encryption_package (package_bytes ++ trailing) =
          Ok (Package.MakePackage meta (Package.created_page <$> pages))) by done.
  set (meta_json := encode (Json.dumps meta)) in *.
  set (binary := concat (Package.created_bytes <$> pages)).
  set (len_bytes := SHA256.be_bytes 4 (Z.of_nat (length meta_json))).
  assert (Hbytes : package_bytes =
            prefix_bytes ++ (Package.MAGIC ++ [1%Z] ++ len_bytes) ++ meta_json ++ binary).
  { pose proof (Package.create_encryption_package_layout encrypted_images metadata_list
                  shuffle_indices_list prefix_bytes Hlen) as Hlay.
    rewrite Hcreate in Hlay. exact (Ok_inj _ _ Hlay). }
  rewrite Hbytes. clear Hbytes Hcreate Hextract.
  assert (Hmagic : length Package.MAGIC = 6) by done.
  assert (Hlb : length len_bytes = 4) by apply length_be_bytes.
  set (head := prefix_bytes ++ Package.MAGIC ++ [1%Z] ++ len_bytes).
  assert (Hhead : length head = length prefix_bytes + 11).
  { subst head. rewrite !length_app, Hmagic, Hlb. simpl. lia. }
  unfold Package.extract_encryption_package.
  assert (Hfind : bytes_find ((prefix_bytes ++ (Package.MAGIC ++ [1%Z] ++ len_bytes)
                                ++ meta_json ++ binary) ++ trailing) Package.MAGIC
                  = Z.of_nat (length prefix_bytes)).
  { replace ((prefix_bytes ++ (Package.MAGIC ++ [1%Z] ++ len_bytes) ++ meta_json ++ binary)
               ++ trailing)
      with ((prefix_bytes ++ Package.MAGIC)
              ++ ([1%Z] ++ len_bytes ++ meta_json ++ binary ++ trailing))
      by (by rewrite <- !app_assoc).
    by apply bytes_find_app. }
  rewrite Hfind.
  rewrite (proj2 (Z.eqb_neq _ _)) by lia.
  (* the version byte *)
  replace ((prefix_bytes ++ (Package.MAGIC ++ [1%Z] ++ len_bytes) ++ meta_json ++ binary)
             ++ trailing)
    with ((prefix_bytes ++ Package.MAGIC) ++ [1%Z]
            ++ (len_bytes ++ meta_json ++ binary ++ trailing))
    by (by rewrite <- !app_assoc).
  rewrite (slice_middle (prefix_bytes ++ Package.MAGIC) [1%Z]).
  2:{ rewrite length_app, Hmagic. lia. }
  2:{ simpl. lia. }
  cbn [unpack_B bind]. simpl negb. cbv iota.
  (* the length of the metadata *)
  replace ((prefix_bytes ++ Package.MAGIC) ++ [1%Z] ++ len_bytes ++ meta_json
             ++ binary ++ trailing)
    with ((prefix_bytes ++ Package.MAGIC ++ [1%Z]) ++ len_bytes
            ++ (meta_json ++ binary ++ trailing))
    by (by rewrite <- !app_assoc).
  rewrite (slice_middle (prefix_bytes ++ Package.MAGIC ++ [1%Z]) len_bytes).
  2:{ rewrite !length_app, Hmagic. simpl. lia. }
  2:{ rewrite Hlb. lia. }
  rewrite (unpack_pack_I_be (Z.of_nat (length meta_json))).
  2:{ unfold pack_I_be. rewrite (proj2 (Z.leb_le 0 _)) by lia.
      by rewrite (proj2 (Z.ltb_lt _ _)) by done. }
  cbn [bind].
  (* the metadata *)
  replace ((prefix_bytes ++ Package.MAGIC ++ [1%Z]) ++ len_bytes ++ meta_json
             ++ binary ++ trailing)
    with (head ++ meta_json ++ binary ++ trailing)
    by (subst head; by rewrite <- !app_assoc).
  rewrite (slice_middle head meta_json).
  2:{ rewrite Hhead. lia. }
  2:{ done. }
  assert (Hplain : json_plain meta = true) by (by apply Package.package_meta_plain).
  subst meta_json. rewrite decode_encode by (by apply dumps_ascii). cbn [bind].
  rewrite loads_dumps by done. cbn [bind].
  (* the pages, and nothing after them *)
  replace (Z.to_nat (Z.of_nat (length prefix_bytes) + 6 + 1 + 4
                     + Z.of_nat (length (encode (Json.dumps meta)))))
    with (length (head ++ encode (Json.dumps meta))).
  2:{ rewrite length_app, Hhead. lia. }
  rewrite (app_assoc head _ (binary ++ trailing)).
  rewrite drop_app_length.
  change (dict_get meta "pages")
    with (Ok (A:=json) (JList (Package.created_meta <$> pages))).
  cbn [bind Package.iter_pages].
  pose proof (extract_pages_created_then pages [] trailing [] Hpages) as Hpg.
  cbn [app length] in Hpg. fold binary in Hpg.
  change (Z.of_nat 0) with 0%Z in Hpg. rewrite Hpg. done.
Qed.

Lemma extract_ignores_trailing_bytes_witness :
  exists package_bytes,
    Package.create_encryption_package [three_chunks] [three_chunks_metadata]
      [[1; 2; 0]%Z] (encode "PNG") = Ok package_bytes /\
    Package.extract_encryption_package (package_bytes ++ encode "AARTHA and more") =
      Ok (Package.MakePackage
            (Package.package_meta 1
               [(three_chunks, (three_chunks_metadata, [1; 2; 0]%Z))])
            [Package.created_page (three_chunks, (three_chunks_metadata, [1; 2; 0]%Z))]) /\
    Package.extract_encryption_package (package_bytes ++ encode "AARTHA and more") =
      Package.extract_encryption_package package_bytes.
Proof.
  apply (extract_ignores_trailing_bytes [three_chunks] [three_chunks_metadata]
           [[1; 2; 0]%Z] (encode "PNG") (encode "AARTHA and more")).
  - repeat constructor; simpl; lia.
  - vm_compute. reflexivity.
  - apply (bytes_find_none (encode "PNG") Package.MAGIC). vm_compute. reflexivity.
  - intros [front Hfront]. apply (f_equal length) in Hfront.
    rewrite length_app in Hfront. simpl in Hfront. lia.
Defined.

(** [create_encryption_package] zips its three lists and checks their
    lengths nowhere: the package holds as many pages as the shortest list
    has entries, while its [num_pages] field is the length of the first
    list, whatever the others are. *)
Theorem package_pages_are_zipped (encrypted_images : list ndarray)
    (metadata_list : list json) (shuffle_indices_list : list (list Z)) :
  let pages := zip encrypted_images (zip metadata_list shuffle_indices_list) in
  let meta := Package.package_meta (length encrypted_images) pages in
  Forall Package.wf_page pages ->
  (Z.of_nat (length (encode (Json.dumps meta))) < 2 ^ 32)%Z ->
  exists package_bytes package,
    Package.create_encryption_package encrypted_images metadata_list
      shuffle_indices_list [] = Ok package_bytes /\
    Package.extract_encryption_package package_bytes = Ok package /\
    dict_get (Package.package_fields package) "num_pages" =
      Ok (JInt (Z.of_nat (length encrypted_images))) /\
    length (Package.pages package) =
      length encrypted_images
        `min` (length metadata_list `min` length shuffle_indices_list).
Proof.
  intros pages meta Hpages Hlen.
  destruct (Package.extract_create encrypted_images metadata_list shuffle_indices_list
              [] Hlen Hpages) as (package_bytes & Hcreate & Hextract).
  { by vm_compute. }
  eexists _, _. split; [done|]. split; [done|]. split; [done|].
  cbn [Package.pages]. rewrite length_fmap. subst pages.
  by rewrite !length_zip.
Qed.

Lemma package_pages_are_zipped_witness :
  exists package_bytes package,
    Package.create_encryption_package [three_chunks; six_pixels; three_chunks]
      [three_chunks_metadata; three_chunks_metadata] [[1; 2; 0]%Z] []
      = Ok package_bytes /\
    Package.extract_encryption_package package_bytes = Ok package /\
    dict_get (Package.package_fields package) "num_pages" = Ok (JInt 3) /\
    length (Package.pages package) = 1.
Proof.
  apply (package_pages_are_zipped [three_chunks; six_pixels; three_chunks]
           [three_chunks_metadata; three_chunks_metadata] [[1; 2; 0]%Z]).
  - repeat constructor; simpl; lia.
  - vm_compute. reflexivity.
Defined.

(** ** Chunks and their shuffle *)

Lemma num_chunks_of_ceil cs size :
  (0 < cs)%Z -> (0 <= size)%Z ->
  PixelProcessor.num_chunks_of cs size = ((size + cs - 1) / cs)%Z.
Proof.
  intros Hcs Hsize.
  destruct (PixelProcessor.padding_of_spec cs size Hcs Hsize) as (Hpad & Hmul & Hnum).
  apply (Z.div_unique _ _ _ (cs - 1 - PixelProcessor.padding_of cs size)); lia.
Qed.

(** With a positive chunk size [chunk_pixels] raises on no array, whatever
    its shape and element type. It makes the ceiling of size / chunk_size
    chunks: the elements in their order, then fewer zeros than a chunk
    holds, and none when the size is a multiple of the chunk size. *)
Theorem chunk_pixels_counts (self : PixelProcessor.PixelProcessor) (image : ndarray) :
  (0 < PixelProcessor.chunk_size self)%Z ->
  let size := Z.of_nat (length (data image)) in
  let cs := PixelProcessor.chunk_size self in
  let num_chunks := ((size + cs - 1) / cs)%Z in
  let padding := (num_chunks * cs - size)%Z in
  (0 <= padding < cs)%Z /\
  (padding = 0 <-> size mod cs = 0)%Z /\
  exists chunks metadata,
    PixelProcessor.chunk_pixels self image = Ok (chunks, metadata) /\
    shape chunks = [num_chunks; cs] /\
    dtype_of chunks = dtype_of image /\
    data chunks = data image ++ replicate (Z.to_nat padding) 0%Z /\
    dict_get metadata "num_chunks" = Ok (JInt num_chunks) /\
    dict_get metadata "padding" = Ok (JInt padding) /\
    dict_get metadata "original_size" = Ok (JInt size).
Proof.
  intros Hcs size cs num_chunks padding.
  destruct (PixelProcessor.padding_of_spec cs size Hcs ltac:(lia)) as (Hpad & Hmul & Hnum).
  assert (Hn : num_chunks = PixelProcessor.num_chunks_of cs size).
  { subst num_chunks. symmetry. apply num_chunks_of_ceil; lia. }
  assert (Hp : padding = PixelProcessor.padding_of cs size).
  { subst padding. rewrite Hn. lia. }
  split; [lia|]. split.
  { rewrite Hp. unfold PixelProcessor.padding_of.
    pose proof (Z.mod_pos_bound size cs Hcs) as Hrem.
    destruct (decide (size mod cs = 0)%Z) as [H0|H0].
    - rewrite H0, Z.sub_0_r, Z.mod_same by lia. done.
    - rewrite Z.mod_small by lia. lia. }
  eexists _, _. split; [by apply PixelProcessor.chunk_pixels_Ok|].
  fold cs. fold size. rewrite <- Hn, <- Hp. done.
Qed.

Lemma concat_Permutation_rows {A : Type} (l k : list (list A)) :
  l ≡ₚ k -> concat l ≡ₚ concat k.
Proof.
  induction 1 as [|x l k _ IH|x y l|l k m _ IH1 _ IH2]; simpl.
  - done.
  - by rewrite IH.
  - rewrite !app_assoc. by rewrite (Permutation_app_comm y x).
  - by rewrite IH1.
Qed.

(** Shuffling moves the chunks and changes no element: the shuffled array
    has the shape and the element type of the chunk array, and its
    elements are a rearrangement of the elements of the chunk array. *)
Theorem shuffle_keeps_the_bytes `{RandomState} (C shuffled : ndarray) (seed n : Z)
    (rest perm : list Z) :
  shape C = n :: rest ->
  Forall (fun d => (0 <= d)%Z) (shape C) ->
  Z.of_nat (length (data C)) = prod_list (shape C) ->
  PixelProcessor.shuffle_chunks C seed = Ok (shuffled, perm) ->
  shape shuffled = shape C /\
  dtype_of shuffled = dtype_of C /\
  data shuffled ≡ₚ data C.
Proof.
  intros Hshape Hdims Hsize Hsh.
  unfold PixelProcessor.shuffle_chunks, len in Hsh. rewrite Hshape in Hsh.
  cbn [bind] in Hsh.
  apply bind_Ok in Hsh as (perm' & Hgen & Hsh).
  apply bind_Ok in Hsh as (s & Htake & Hsh). injection Hsh as -> ->.
  assert (Hperm : perm ≡ₚ arange n).
  { unfold PixelProcessor.generate_shuffle_indices in Hgen.
    by apply rng_shuffle_perm in Hgen. }
  rewrite Hshape in Hdims, Hsize. apply Forall_cons in Hdims as [Hn Hrest].
  assert (Hw : (0 <= prod_list rest)%Z).
  { clear -Hrest. induction Hrest; simpl; lia. }
  simpl in Hsize.
  assert (Hin : Forall (fun i => (0 <= i < n)%Z) perm).
  { apply Forall_forall. intros i Hi. apply arange_in_range. by rewrite <- Hperm. }
  rewrite (take_rows_in_range C n rest perm Hshape Hin) in Htake.
  injection Htake as <-. cbn [shape dtype_of data].
  assert (Hplen : length perm = Z.to_nat n) by (by rewrite Hperm, length_arange).
  split; [by rewrite Hshape, Hplen, Z2Nat.id|]. split; [done|].
  rewrite (concat_Permutation_rows _
    ((fun i => row (Z.to_nat (prod_list rest)) (data C) (Z.to_nat i)) <$> arange n))
    by (by rewrite Hperm).
  unfold arange. rewrite <- list_fmap_compose.
  rewrite (list_fmap_ext _ (row (Z.to_nat (prod_list rest)) (data C)) (seq 0 (Z.to_nat n))).
  2:{ intros i j _. simpl. by rewrite Nat2Z.id. }
  rewrite concat_rows; [done|]. nia.
Qed.

Lemma shuffle_keeps_the_bytes_witness :
  shape (NDArray [3; 2]%Z UInt8 [3; 4; 5; 6; 1; 2]%Z) = shape three_chunks /\
  dtype_of (NDArray [3; 2]%Z UInt8 [3; 4; 5; 6; 1; 2]%Z) = dtype_of three_chunks /\
  data (NDArray [3; 2]%Z UInt8 [3; 4; 5; 6; 1; 2]%Z) ≡ₚ data three_chunks.
Proof.
  apply (@shuffle_keeps_the_bytes rotation_generator three_chunks
           (NDArray [3; 2]%Z UInt8 [3; 4; 5; 6; 1; 2]%Z) 1 3 [2%Z] [1; 2; 0]%Z).
  - reflexivity.
  - simpl. repeat constructor; lia.
  - reflexivity.
  - vm_compute. reflexivity.
Defined.

Lemma chunk_pixels_counts_witness :
  (0 <= 16 < 32)%Z /\
  (16 = 0 <-> 30000 mod 32 = 0)%Z /\
  exists chunks metadata,
    PixelProcessor.chunk_pixels (PixelProcessor.__init__ None None) rgb_100x100
      = Ok (chunks, metadata) /\
    shape chunks = [938; 32]%Z /\
    dtype_of chunks = UInt8 /\
    data chunks = data rgb_100x100 ++ replicate 16 0%Z /\
    dict_get metadata "num_chunks" = Ok (JInt 938) /\
    dict_get metadata "padding" = Ok (JInt 16) /\
    dict_get metadata "original_size" = Ok (JInt 30000).
Proof.
  apply (chunk_pixels_counts (PixelProcessor.__init__ None None) rgb_100x100).
  simpl. lia.
Defined.

(** ** What the key does not decide *)

(** Whether [reshape] raises, and the shape it gives, depend on the number
    of elements only. *)
Lemma reshape_length_only dt dt' flat flat' shp a :
  length flat = length flat' ->
  reshape dt flat shp = Ok a ->
  a = NDArray (shape a) dt flat /\
  reshape dt' flat' shp = Ok (NDArray (shape a) dt' flat').
Proof.
  intros Hlen. unfold reshape. rewrite <- Hlen.
  destruct (filter _ shp) as [|d [|d' neg]]; [| |done].
  - destruct (_ =? _)%Z; [|done]. by intros [= <-].
  - destruct (d =? -1)%Z; [|done].
    destruct (_ =? 0)%Z; [done|].
    destruct (_ =? 0)%Z; [|done]. by intros [= <-].
Qed.

Lemma reshape_to_length_only dt dt' flat flat' shp a :
  length flat = length flat' ->
  reshape_to dt flat shp = Ok a ->
  a = NDArray (shape a) dt flat /\
  reshape_to dt' flat' shp = Ok (NDArray (shape a) dt' flat').
Proof.
  destruct shp as [shp|]; [apply reshape_length_only|].
  intros Hlen [= <-]. cbn [reshape_to shape]. by rewrite Hlen.
Qed.

(** So do the outcome of indexing by rows and its shape. *)
Lemma take_rows_length_only a a' idx s :
  shape a = shape a' ->
  length (data a) = length (data a') ->
  take_rows a idx = Ok s ->
  exists s',
    take_rows a' idx = Ok s' /\
    shape s' = shape s /\
    length (data s') = length (data s).
Proof.
  intros Hshape Hlen. unfold take_rows. rewrite <- Hshape.
  destruct (shape a) as [|n rest]; [done|].
  set (w := Z.to_nat (prod_list rest)).
  intros Hs. apply bind_Ok in Hs as (rows & Hrows & Hs). injection Hs as <-.
  assert (Hrows' : exists rows',
            map_result (fun i => j <- norm_index n i ;; Ok (row w (data a') j)) idx
              = Ok rows' /\
            length (concat rows') = length (concat rows)).
  { clear -Hlen Hrows. revert rows Hrows.
    induction idx as [|i idx IH]; intros rows; cbn [map_result].
    - intros [= <-]. by exists [].
    - intros Hr. apply bind_Ok in Hr as (r & Hr & Hrest).
      apply bind_Ok in Hr as (j & Hj & Hr). injection Hr as <-.
      apply bind_Ok in Hrest as (rs & Hrs & Hrest). injection Hrest as <-.
      destruct (IH rs Hrs) as (rs' & Hrs' & Hlrs).
      exists (row w (data a') j :: rs'). rewrite Hj. cbn [bind]. rewrite Hrs'.
      cbn [bind]. split; [done|]. cbn [concat]. rewrite !length_app, Hlrs.
      f_equal. unfold row. rewrite !length_take, !length_drop. lia. }
  destruct Hrows' as (rows' & -> & Hl). cbn [bind].
  eexists. split; [done|]. done.
Qed.

Lemma slice_to_length {A B : Type} (l : list A) (l' : list B) stop :
  length l = length l' -> length (slice_to l stop) = length (slice_to l' stop).
Proof.
  intros Hlen. unfold slice_to. rewrite <- Hlen.
  destruct (stop <? 0)%Z; rewrite !length_take; lia.
Qed.

(** And so do the outcome of [unchunk_pixels] and the shape of the image. *)
Lemma unchunk_pixels_length_only c c' metadata img :
  length (data c) = length (data c') ->
  PixelProcessor.unchunk_pixels c metadata = Ok img ->
  exists img',
    PixelProcessor.unchunk_pixels c' metadata = Ok img' /\
    shape img' = shape img /\
    dtype_of img' = dtype_of img /\
    length (data img') = length (data img).
Proof.
  intros Hlen. unfold PixelProcessor.unchunk_pixels, flatten.
  intros Hu.
  apply bind_Ok in Hu as (padding0 & -> & Hu). cbn [bind].
  apply bind_Ok in Hu as (padding & -> & Hu). cbn [bind].
  apply bind_Ok in Hu as (flat & Hflat & Hu).
  assert (Hflat' : exists flat',
            (if (0 <? padding)%Z
             then original_size <- dict_get metadata "original_size" ;;
                  stop <- as_index original_size ;;
                  Ok (match stop with
                      | Some stop => slice_to (data c') stop
                      | None => data c'
                      end)
             else Ok (data c')) = Ok flat' /\
            length flat = length flat').
  { destruct (0 <? padding)%Z.
    - apply bind_Ok in Hflat as (size0 & -> & Hflat). cbn [bind].
      apply bind_Ok in Hflat as (stop & -> & Hflat). cbn [bind].
      injection Hflat as <-. eexists. split; [done|].
      destruct stop; [by apply slice_to_length|done].
    - injection Hflat as <-. by eexists. }
  destruct Hflat' as (flat' & -> & Hlf). cbn [bind].
  apply bind_Ok in Hu as (shape0 & -> & Hu). cbn [bind].
  apply bind_Ok in Hu as (shp & -> & Hu). cbn [bind].
  apply bind_Ok in Hu as (arr & Harr & Hu).
  destruct (reshape_to_length_only _ (dtype_of c') _ flat' _ _ Hlf Harr) as (Ha & ->).
  cbn [bind]. unfold PixelProcessor.array_to_image in *. cbn [shape data].
  destruct (fromarray_shape_only _ _ (astype_uint8 flat') _ Hu) as (Himg & ->).
  eexists. split; [done|]. cbn [shape dtype_of data].
  rewrite Himg. cbn [shape dtype_of data].
  split; [done|]. split; [done|].
  rewrite Ha. cbn [data]. by rewrite !length_astype_uint8.
Qed.

Lemma decrypt_pixels_key_independent self self' E D :
  FloatBounds.unit_float (chaos_seed self') = true ->
  decrypt_pixels self E = Ok D ->
  exists D',
    decrypt_pixels self' E = Ok D' /\
    shape D' = shape D /\
    length (data D') = length (data D).
Proof.
  intros Hseed. unfold decrypt_pixels, flatten.
  rewrite length_astype_uint8.
  intros HD. apply bind_Ok in HD as (ks & Hks & HD).
  destruct (FloatBounds.generate_chaos_sequence_total self' (length (data E))
              (FloatBounds.unit_float_in_unit _ Hseed)) as [ks' Hks'].
  rewrite Hks'. cbn [bind].
  apply generate_chaos_sequence_length in Hks, Hks'.
  assert (Hl : length (bitwise_xor (undiffuse (astype_uint8 (data E))) ks) =
               length (bitwise_xor (undiffuse (astype_uint8 (data E))) ks')).
  { rewrite !bitwise_xor_length; rewrite ?length_undiffuse, ?length_astype_uint8;
      congruence. }
  destruct (reshape_length_only _ UInt8 _ _ _ _ Hl HD) as (Ha & ->).
  eexists. split; [done|]. split; [done|].
  rewrite Ha at 2. done.
Qed.

(** Whether a page decrypts, and the shape of the image it gives, do not
    depend on the key. *)
Lemma decrypt_page_key_independent self self' page image :
  FloatBounds.unit_float (chaos_seed self') = true ->
  Orchestrator.decrypt_page self page = Ok image ->
  exists image',
    Orchestrator.decrypt_page self' page = Ok image' /\
    shape image' = shape image /\
    dtype_of image' = dtype_of image /\
    length (data image') = length (data image).
Proof.
  intros Hseed. unfold Orchestrator.decrypt_page. intros Hp.
  apply bind_Ok in Hp as (metadata & -> & Hp). cbn [bind].
  apply bind_Ok in Hp as (D & HD & Hp).
  apply bind_Ok in Hp as (U & HU & Hp).
  destruct (decrypt_pixels_key_independent self self' _ _ Hseed HD)
    as (D' & -> & HsD & HlD).
  cbn [bind]. unfold PixelProcessor.unshuffle_chunks in *.
  destruct (take_rows_length_only D D' _ U (eq_sym HsD) (eq_sym HlD) HU)
    as (U' & -> & HsU & HlU).
  cbn [bind]. by apply (unchunk_pixels_length_only U).
Qed.

(** No key is ever found wrong. When [decrypt_pdf] gets through its page
    loop with one key, it gets through it with every other key that has
    one [|] and a timestamp that parses, and gives as many images, of the
    same shapes: nothing in the package authenticates the key. *)
Theorem wrong_key_is_not_detected (fromisoformat : string -> option string)
    (encrypted_bytes : list Z) (decryption_key : string)
    (images : list ndarray) (filename : string)
    (other_key other_filename other_timestamp timestamp : string) :
  Orchestrator.decrypt_images fromisoformat encrypted_bytes decryption_key
    = Ok (images, filename) ->
  Orchestrator.split_bar other_key = [other_filename; other_timestamp] ->
  fromisoformat other_timestamp = Some timestamp ->
  exists other_images,
    Orchestrator.decrypt_images fromisoformat encrypted_bytes other_key
      = Ok (other_images, other_filename) /\
    Forall2 (fun other image =>
               shape other = shape image /\
               dtype_of other = dtype_of image /\
               length (data other) = length (data image))
      other_images images.
Proof.
  unfold Orchestrator.decrypt_images. intros Hdec -> Hiso.
  destruct (Orchestrator.split_bar decryption_key) as [|f [|ts [|? ?]]]; try done.
  apply bind_Ok in Hdec as (package & -> & Hdec). cbn [bind]. rewrite Hiso.
  destruct (fromisoformat ts) as [t|]; [|done].
  apply bind_Ok in Hdec as (imgs & Himgs & Hdec). injection Hdec as -> ->.
  assert (Hall : exists others,
            map_result (Orchestrator.decrypt_page (__init__ other_filename timestamp))
              (Package.pages package) = Ok others /\
            Forall2 (fun other image =>
                       shape other = shape image /\
                       dtype_of other = dtype_of image /\
                       length (data other) = length (data image)) others images).
  { revert images Himgs. generalize (Package.pages package). intros pages.
    induction pages as [|page pages IH]; intros images; cbn [map_result].
    - intros [= <-]. by exists [].
    - intros Hp. apply bind_Ok in Hp as (image & Himage & Hp).
      apply bind_Ok in Hp as (rest & Hrest & Hp). injection Hp as <-.
      destruct (IH rest Hrest) as (others & -> & Hothers).
      destruct (decrypt_page_key_independent _ (__init__ other_filename timestamp) _ _
                  (FloatBounds.generate_keys_in_unit other_filename timestamp) Himage)
        as (other & -> & Hother).
      cbn [bind]. eexists. split; [done|]. by constructor. }
  destruct Hall as (others & -> & Hothers). cbn [bind]. by exists others.
Qed.

Lemma wrong_key_is_not_detected_witness :
  exists other_images,
    Orchestrator.decrypt_images Some two_page_package "other.pdf|2025-06-30T12:00:00"
      = Ok (other_images, "other.pdf") /\
    Forall2 (fun other image =>
               shape other = shape image /\
               dtype_of other = dtype_of image /\
               length (data other) = length (data image))
      other_images [five_pixels; four_pixels].
Proof.
  apply (wrong_key_is_not_detected Some two_page_package "doc.pdf|2024-01-01T00:00:00"
           [five_pixels; four_pixels] "doc.pdf" "other.pdf|2025-06-30T12:00:00"
           "other.pdf" "2025-06-30T12:00:00" "2025-06-30T12:00:00").
  - vm_compute. reflexivity.
  - vm_compute. reflexivity.
  - reflexivity.
Defined.

(** ** When [encrypt_pdf] returns, and a document it returns for in vain *)

Section Returns.
Context `{RandomState}.
Variable pixel_processor : PixelProcessor.PixelProcessor.

(** One turn of the page loop raises only if the generator does. *)
Lemma encrypt_page_Ok encryptor shuffle_seed st page_num image perm :
  let cs := PixelProcessor.chunk_size pixel_processor in
  (0 < cs)%Z ->
  FloatBounds.unit_float (chaos_seed encryptor) = true ->
  PixelProcessor.generate_shuffle_indices
    (PixelProcessor.num_chunks_of cs (Z.of_nat (length (data image))))
    (shuffle_seed + Z.of_nat page_num) = Ok perm ->
  exists st',
    Orchestrator.encrypt_page pixel_processor encryptor shuffle_seed st page_num image
      = Ok st' /\
    length (Orchestrator.encrypted_images st') =
      S (length (Orchestrator.encrypted_images st)).
Proof.
  intros cs Hcs Hseed Hgen. unfold Orchestrator.encrypt_page.
  rewrite PixelProcessor.chunk_pixels_Ok by done. cbn [bind fst snd]. fold cs.
  set (size := Z.of_nat (length (data image))) in *.
  destruct (PixelProcessor.padding_of_spec cs size Hcs ltac:(lia)) as (Hpad & Hmul & Hnum).
  set (n := PixelProcessor.num_chunks_of cs size) in *.
  set (chunks := NDArray [n; cs] (dtype_of image) _).
  assert (Hcdims : Forall (fun d => (0 <= d)%Z) (shape chunks)).
  { repeat constructor; simpl; lia. }
  assert (Hcsize : Z.of_nat (length (data chunks)) = prod_list (shape chunks)).
  { subst chunks. simpl. rewrite length_app, length_replicate. fold size. lia. }
  assert (Hperm : perm ≡ₚ arange n).
  { unfold PixelProcessor.generate_shuffle_indices in Hgen.
    by apply rng_shuffle_perm in Hgen. }
  destruct (take_rows_argsort chunks n [cs] perm eq_refl Hcdims Hcsize Hperm)
    as (s & Htake & Hshape & Hdt & Hlen & _).
  unfold PixelProcessor.shuffle_chunks. cbn [len shape chunks bind].
  fold chunks. rewrite Hgen. cbn [bind]. rewrite Htake. cbn [bind fst snd].
  destruct (FloatBounds.generate_chaos_sequence_total encryptor (length (data s))
              (FloatBounds.unit_float_in_unit _ Hseed)) as [ks Hks].
  rewrite (encrypt_pixels_Ok encryptor s ks);
    [|by rewrite Hshape|by rewrite Hlen, Hshape|done].
  cbn [bind]. eexists. split; [done|].
  cbn [Orchestrator.encrypted_images]. rewrite length_app. simpl. lia.
Qed.

Lemma encrypt_pages_Ok encryptor shuffle_seed images : forall st page_num,
  let cs := PixelProcessor.chunk_size pixel_processor in
  (0 < cs)%Z ->
  FloatBounds.unit_float (chaos_seed encryptor) = true ->
  (forall p image, images !! p = Some image ->
     exists perm,
       PixelProcessor.generate_shuffle_indices
         (PixelProcessor.num_chunks_of cs (Z.of_nat (length (data image))))
         (shuffle_seed + Z.of_nat (page_num + p)) = Ok perm) ->
  exists st',
    Orchestrator.encrypt_pages pixel_processor encryptor shuffle_seed st page_num images
      = Ok st' /\
    length (Orchestrator.encrypted_images st') =
      length (Orchestrator.encrypted_images st) + length images.
Proof.
  induction images as [|image images IH]; intros st page_num cs Hcs Hseed Hgen.
  - exists st. simpl. split; [done|lia].
  - cbn [Orchestrator.encrypt_pages].
    destruct (Hgen 0 image eq_refl) as (perm & Hperm). rewrite Nat.add_0_r in Hperm.
    destruct (encrypt_page_Ok encryptor shuffle_seed st page_num image perm Hcs Hseed Hperm)
      as (st1 & -> & Hl1).
    cbn [bind].
    destruct (IH st1 (S page_num) Hcs Hseed) as (st' & -> & Hl').
    { intros p img Hp. replace (S page_num + p) with (page_num + S p) by lia.
      by apply Hgen. }
    exists st'. split; [done|]. simpl. lia.
Qed.

End Returns.

(** With a positive chunk size, the page loop of [encrypt_pdf] raises on
    no list of pages whose seeds the generator accepts, whatever the
    arrays; [encrypt_pdf] then returns the package and the key
    [filename|timestamp] when the metadata is shorter than 4 GiB, and
    raises the error of [struct.pack] otherwise. *)
Theorem encrypt_pdf_raises_only `{RandomState}
    (save_png : ndarray -> option (list Z))
    (pixel_processor : PixelProcessor.PixelProcessor) (images : list ndarray)
    (original_filename timestamp : string) :
  let encryptor := __init__ original_filename timestamp in
  let shuffle_seed := _get_shuffle_seed encryptor in
  let cs := PixelProcessor.chunk_size pixel_processor in
  (0 < cs)%Z ->
  (forall p image, images !! p = Some image ->
     exists perm,
       PixelProcessor.generate_shuffle_indices
         ((Z.of_nat (length (data image)) + cs - 1) / cs)
         (shuffle_seed + Z.of_nat p) = Ok perm) ->
  exists st,
    Orchestrator.encrypt_pages pixel_processor encryptor shuffle_seed
      (Orchestrator.MakeCollected [] [] []) 0 images = Ok st /\
    length (Orchestrator.encrypted_images st) = length images /\
    let meta :=
      Package.package_meta (length images)
        (zip (Orchestrator.encrypted_images st)
           (zip (Orchestrator.metadata_list st) (Orchestrator.shuffle_indices_list st))) in
    let meta_len := Z.of_nat (length (encode (Json.dumps meta))) in
    ((meta_len < 2 ^ 32)%Z ->
     exists package_bytes,
       Orchestrator.encrypt_pdf save_png pixel_processor images original_filename
         timestamp = Ok (package_bytes, original_filename +:+ "|" +:+ timestamp)) /\
    ((2 ^ 32 <= meta_len)%Z ->
     Orchestrator.encrypt_pdf save_png pixel_processor images original_filename
       timestamp = Raise StructError).
Proof.
  intros encryptor shuffle_seed cs Hcs Hgen.
  destruct (encrypt_pages_Ok pixel_processor encryptor shuffle_seed images
              (Orchestrator.MakeCollected [] [] []) 0 Hcs) as (st & Hst & Hlen).
  { apply FloatBounds.generate_keys_in_unit. }
  { intros p image Hp. destruct (Hgen p image Hp) as (perm & Hperm).
    exists perm. rewrite num_chunks_of_ceil by lia. exact Hperm. }
  exists st. split; [done|]. simpl in Hlen. split; [done|].
  unfold Orchestrator.encrypt_pdf. fold encryptor. fold shuffle_seed.
  rewrite Hst. cbn [bind]. rewrite <- Hlen. split.
  - intros Hlt.
    rewrite Package.create_encryption_package_layout by done. cbn [bind]. by eexists.
  - intros Hge. unfold Package.create_encryption_package.
    rewrite Package.foldl_add_page. cbn [fst snd app bind pack_B].
    change (JDict _) with (Package.package_meta
      (length (Orchestrator.encrypted_images st))
      (zip (Orchestrator.encrypted_images st)
         (zip (Orchestrator.metadata_list st) (Orchestrator.shuffle_indices_list st)))).
    simpl andb. cbv iota. cbn [bind]. unfold pack_I_be.
    rewrite (proj2 (Z.ltb_ge _ _)) by lia. by rewrite andb_false_r.
Qed.

Lemma encrypt_pdf_raises_only_witness :
  exists st,
    @Orchestrator.encrypt_pages rotation_generator two_byte_chunks doc_encryptor
      (_get_shuffle_seed doc_encryptor) (Orchestrator.MakeCollected [] [] []) 0
      [five_pixels; four_pixels] = Ok st /\
    length (Orchestrator.encrypted_images st) = 2 /\
    let meta :=
      Package.package_meta 2
        (zip (Orchestrator.encrypted_images st)
           (zip (Orchestrator.metadata_list st) (Orchestrator.shuffle_indices_list st))) in
    let meta_len := Z.of_nat (length (encode (Json.dumps meta))) in
    ((meta_len < 2 ^ 32)%Z ->
     exists package_bytes,
       @Orchestrator.encrypt_pdf rotation_generator stub_png two_byte_chunks
         [five_pixels; four_pixels] "doc.pdf" "2024-01-01T00:00:00"
       = Ok (package_bytes, "doc.pdf" +:+ "|" +:+ "2024-01-01T00:00:00")) /\
    ((2 ^ 32 <= meta_len)%Z ->
     @Orchestrator.encrypt_pdf rotation_generator stub_png two_byte_chunks
       [five_pixels; four_pixels] "doc.pdf" "2024-01-01T00:00:00" = Raise StructError).
Proof.
  apply (@encrypt_pdf_raises_only rotation_generator stub_png two_byte_chunks
           [five_pixels; four_pixels] "doc.pdf" "2024-01-01T00:00:00").
  - simpl. lia.
  - intros [|[|p]] image; simpl; intros [= <-]; eexists; vm_compute; reflexivity.
Defined.

(** A document of no page is encrypted without an error and can never be
    decrypted: [encrypt_pdf] returns a package and a key for the empty
    list of pages, and [decrypt_pdf] raises on that package under that
    key. When the key splits into the file name and a timestamp that
    parses, the page loop ends with no image and it is [images_to_pdf]
    that raises, with "No images provided". *)
Theorem empty_document_cannot_be_decrypted `{RandomState}
    (fromisoformat : string -> option string) (save_png : ndarray -> option (list Z))
    (save_pdf : list ndarray -> result (list Z))
    (pixel_processor : PixelProcessor.PixelProcessor)
    (original_filename timestamp : string) :
  let key := original_filename +:+ "|" +:+ timestamp in
  exists package_bytes,
    Orchestrator.encrypt_pdf save_png pixel_processor [] original_filename timestamp
      = Ok (package_bytes, key) /\
    (exists e,
       Orchestrator.decrypt_pdf fromisoformat (PDFProcessor.images_to_pdf save_pdf)
         package_bytes key = Raise e) /\
    (forall parsed,
       Orchestrator.split_bar key = [original_filename; timestamp] ->
       fromisoformat timestamp = Some parsed ->
       Orchestrator.decrypt_images fromisoformat package_bytes key
         = Ok ([], original_filename) /\
       Orchestrator.decrypt_pdf fromisoformat (PDFProcessor.images_to_pdf save_pdf)
         package_bytes key = Raise (ValueError "No images provided")).
Proof.
  intros key. exists empty_package.
  assert (Hextract : exists meta,
            Package.extract_encryption_package empty_package
              = Ok (Package.MakePackage meta [])).
  { eexists. vm_compute. reflexivity. }
  destruct Hextract as (meta & Hextract).
  split; [reflexivity|].
  unfold Orchestrator.decrypt_pdf, Orchestrator.decrypt_images.
  split.
  - destruct (Orchestrator.split_bar key) as [|f [|ts [|? ?]]]; try (by eexists).
    rewrite Hextract. cbn [bind Package.pages map_result].
    destruct (fromisoformat ts); by eexists.
  - intros parsed -> ->. rewrite Hextract. done.
Qed.

Lemma empty_document_cannot_be_decrypted_witness :
  exists package_bytes,
    @Orchestrator.encrypt_pdf rotation_generator stub_png two_byte_chunks []
      "doc.pdf" "2024-01-01T00:00:00"
      = Ok (package_bytes, "doc.pdf|2024-01-01T00:00:00") /\
    Orchestrator.decrypt_images Some package_bytes "doc.pdf|2024-01-01T00:00:00"
      = Ok ([], "doc.pdf") /\
    Orchestrator.decrypt_pdf Some (PDFProcessor.images_to_pdf (fun _ => Ok []))
      package_bytes "doc.pdf|2024-01-01T00:00:00"
      = Raise (ValueError "No images provided").
Proof.
  destruct (@empty_document_cannot_be_decrypted rotation_generator Some stub_png
              (fun _ => Ok []) two_byte_chunks "doc.pdf" "2024-01-01T00:00:00")
    as (package_bytes & Henc & _ & Hdec).
  exists package_bytes. split; [exact Henc|].
  apply (Hdec "2024-01-01T00:00:00"); reflexivity.
Defined.

(** ** A package cut short *)

Lemma length_slice_le {A : Type} (l : list A) (i j : nat) :
  length (slice l (Z.of_nat i) (Z.of_nat j)) <= length l - i.
Proof.
  unfold slice, clip_index.
  rewrite !(proj2 (Z.ltb_ge _ 0)) by lia.
  rewrite length_take, length_drop. lia.
Qed.

(** A file that ends within the five bytes that follow the magic, the
    version and the length of the metadata, makes
    [extract_encryption_package] raise the error of [struct.unpack],
    which is no [ValueError]; [decrypt_pdf] lets it through. *)
Theorem truncated_header_raises_struct_error
    (fromisoformat : string -> option string)
    (images_to_pdf : list ndarray -> result (list Z))
    (b : list Z) (p : nat) (key filename timestamp_str : string) :
  first_occurrence Package.MAGIC b p ->
  length b < p + 11 ->
  (forall version, b !! (p + 6) = Some version -> version = 1%Z) ->
  Orchestrator.split_bar key = [filename; timestamp_str] ->
  Package.extract_encryption_package b = Raise StructError /\
  Orchestrator.decrypt_pdf fromisoformat images_to_pdf b key = Raise StructError.
Proof.
  intros Hp Hlen Hversion Hkey.
  assert (Hextract : Package.extract_encryption_package b = Raise StructError).
  { apply bytes_find_first_occurrence in Hp.
    unfold Package.extract_encryption_package. rewrite Hp.
    rewrite (proj2 (Z.eqb_neq _ _)) by lia.
    destruct (b !! (p + 6)) as [version|] eqn:Hv.
    - rewrite (Hversion version eq_refl) in Hv.
      assert (Hslice : slice b (Z.of_nat p + 6) (Z.of_nat p + 6 + 1) = [1%Z]).
      { rewrite <- (take_drop (p + 6) b) at 1.
        rewrite (drop_S b 1%Z (p + 6)) by done.
        apply (slice_middle (take (p + 6) b) [1%Z]).
        - apply lookup_lt_Some in Hv. rewrite length_take. lia.
        - simpl. lia. }
      rewrite Hslice. cbn [unpack_B bind]. simpl negb. cbv iota.
      pose proof (length_slice_le b (p + 7) (p + 11)) as Hshort.
      replace (Z.of_nat (p + 7)) with (Z.of_nat p + 6 + 1)%Z in Hshort by lia.
      replace (Z.of_nat (p + 11)) with (Z.of_nat p + 6 + 1 + 4)%Z in Hshort by lia.
      unfold unpack_I_be. rewrite decide_False by lia. done.
    - rewrite slice_beyond; [done|]. apply lookup_ge_None in Hv. lia. }
  split; [done|].
  unfold Orchestrator.decrypt_pdf, Orchestrator.decrypt_images.
  by rewrite Hkey, Hextract.
Qed.

Lemma truncated_header_raises_struct_error_witness :
  Package.extract_encryption_package (encode "PNG AARTHA" ++ [1; 0; 0]%Z)
    = Raise StructError /\
  Orchestrator.decrypt_pdf Some (PDFProcessor.images_to_pdf (fun _ => Ok []))
    (encode "PNG AARTHA" ++ [1; 0; 0]%Z) "doc.pdf|2024-01-01T00:00:00"
    = Raise StructError.
Proof.
  apply (truncated_header_raises_struct_error Some
           (PDFProcessor.images_to_pdf (fun _ => Ok []))
           (encode "PNG AARTHA" ++ [1; 0; 0]%Z) 4 "doc.pdf|2024-01-01T00:00:00"
           "doc.pdf" "2024-01-01T00:00:00").
  - apply bytes_find_first_occurrence. vm_compute. reflexivity.
  - simpl. lia.
  - intros version. vm_compute. by intros [= <-].
  - reflexivity.
Defined.
